(** * mcp-voicevox: the chunked-speech pipeline of [src/index.ts]

    A shallow embedding of the text chunker, the synthesizer client (its
    descriptor override, its temporary files and the filter stage), the
    playback sink, the pipeline scheduler and the dialogue queue, with the
    properties the specification states about them and further properties
    read off the code. *)

From Stdlib Require Import ZArith NArith List Bool Lia.
From stdpp Require Import base option list sorting gmap strings pretty.
Import ListNotations.

Local Open Scope Z_scope.

(** ** JavaScript strings

    A JavaScript string is a sequence of UTF-16 code units; [length],
    [charAt], [substring], [trim] and a regular expression without the
    [u] flag all work on code units. *)

Abbreviation code_unit := N.
Abbreviation jsstring := (list N).

(** U+3002 IDEOGRAPHIC FULL STOP and U+002E FULL STOP. *)
Definition IDEOGRAPHIC_FULL_STOP : code_unit := 12290%N.
Definition FULL_STOP : code_unit := 46%N.

(** The character class [[。.]] of the splitting regular expression. *)
Definition is_terminator (c : code_unit) : bool :=
  (c =? IDEOGRAPHIC_FULL_STOP)%N || (c =? FULL_STOP)%N.

(** ECMAScript WhiteSpace and LineTerminator code points, which
    [String.prototype.trim] strips. *)
Definition is_whitespace (c : code_unit) : bool :=
  ((9 <=? c) && (c <=? 13) || (c =? 32) || (c =? 160) || (c =? 5760)
   || (8192 <=? c) && (c <=? 8202) || (c =? 8232) || (c =? 8233)
   || (c =? 8239) || (c =? 8287) || (c =? 12288) || (c =? 65279))%N.

Definition jslength (s : jsstring) : Z := Z.of_nat (length s).

(** A literal, for the examples (ASCII only). *)
Definition js (s : string) : jsstring :=
  map (fun b => N.of_nat (Ascii.nat_of_ascii b)) (String.list_ascii_of_string s).

(** [s.charAt(i)]: the one-unit string at [i], the empty string out of
    range. *)
Definition charAt (s : jsstring) (i : Z) : jsstring :=
  if (0 <=? i) && (i <? jslength s)
  then match s !! Z.to_nat i with Some c => [c] | None => [] end
  else [].

(** [s.substring(start, end)]: both bounds clamped to [0 .. length], and
    swapped when [start > end]; [end] omitted means [length]. *)
Definition clamp (len i : Z) : Z := Z.min (Z.max i 0) len.

Definition substring (s : jsstring) (start : Z) (end_ : option Z) : jsstring :=
  let len := jslength s in
  let finalStart := clamp len start in
  let finalEnd := clamp len (default len end_) in
  let from := Z.min finalStart finalEnd in
  let to := Z.max finalStart finalEnd in
  take (Z.to_nat (to - from)) (drop (Z.to_nat from) s).

Fixpoint trimStart (s : jsstring) : jsstring :=
  match s with
  | c :: s' => if is_whitespace c then trimStart s' else s
  | [] => []
  end.

Definition trimEnd (s : jsstring) : jsstring := rev (trimStart (rev s)).

Definition trim (s : jsstring) : jsstring := trimEnd (trimStart s).

(** [text.split(/(?<=[。.])/g)]: the zero-width match succeeds at every
    position that follows a terminator; the split algorithm cuts at each
    such position strictly inside the string and always emits the tail, so
    the empty string yields one empty piece. *)
Fixpoint split_after_terminator (s : jsstring) : list jsstring :=
  match s with
  | [] => [[]]
  | c :: s' =>
      if is_terminator c && negb (bool_decide (s' = []))
      then [c] :: split_after_terminator s'
      else match split_after_terminator s' with
           | p :: ps => (c :: p) :: ps
           | [] => [[c]]
           end
  end.

(** [splitTextIntoSentences], src/index.ts 280-291. *)
Definition splitTextIntoSentences (text : jsstring) : list jsstring :=
  let sentences :=
    filter (fun sentence => 0 < jslength sentence)
           (map trim (split_after_terminator text)) in
  if bool_decide (length sentences = 0%nat) && (0 <? jslength (trim text))
  then [trim text]
  else sentences.

(** ** The chunker: the first half of [textToSpeech], src/index.ts 573-598 *)

Section Chunker.

(** [MAX_CHUNK_LENGTH = parseInt(...)], an integer read from the
    environment (default 300); a value that is no number ([NaN]) is left
    out. *)
Variable MAX_CHUNK_LENGTH : Z.

(** The backward scan
    [for (let j = chunkEnd; j > MAX_CHUNK_LENGTH / 2; j--)].  The division
    is on JavaScript numbers, and for integers [j > MAX/2] is
    [MAX < 2 * j].  [Some j] is the offset at which the [break] was taken,
    [None] means that the loop ran to its end.  [j] only decreases, so
    [Z.to_nat j] rounds are enough (lemma [scanBack_fuel]). *)
Fixpoint scanBack (fuel : nat) (remainingText : jsstring) (j : Z) : option Z :=
  if MAX_CHUNK_LENGTH <? 2 * j then
    if bool_decide (charAt remainingText (j - 1) = [IDEOGRAPHIC_FULL_STOP])
    then Some j
    else match fuel with
         | O => None
         | S fuel' => scanBack fuel' remainingText (j - 1)
         end
  else None.

Definition chunkEndOf (remainingText : jsstring) : Z :=
  let chunkEnd := Z.min (jslength remainingText) MAX_CHUNK_LENGTH in
  default chunkEnd (scanBack (Z.to_nat chunkEnd) remainingText chunkEnd).

(** [while (remainingText.length > 0) { ... }].  [None]: the loop was
    still running when the fuel ran out. *)
Fixpoint cutLoop (fuel : nat) (remainingText : jsstring) : option (list jsstring) :=
  if 0 <? jslength remainingText then
    match fuel with
    | O => None
    | S fuel' =>
        let chunkEnd := chunkEndOf remainingText in
        rest ← cutLoop fuel' (substring remainingText chunkEnd None);
        Some (substring remainingText 0 (Some chunkEnd) :: rest)
    end
  else Some [].

(** The cut as the specification words it, for comparison with
    [cutLoop]: scan the offsets from the maximum length down to the
    midpoint for one of the sentence-terminal characters of the splitter
    and cut just after it; otherwise cut exactly at the maximum length;
    repeat until nothing remains. *)
Fixpoint spec_scanBack (fuel : nat) (remainingText : jsstring) (j : Z) : option Z :=
  if MAX_CHUNK_LENGTH <? 2 * j then
    match charAt remainingText (j - 1) with
    | [c] => if is_terminator c then Some j else
               match fuel with
               | O => None
               | S fuel' => spec_scanBack fuel' remainingText (j - 1)
               end
    | _ => match fuel with
           | O => None
           | S fuel' => spec_scanBack fuel' remainingText (j - 1)
           end
    end
  else None.

Definition spec_cutAt (remainingText : jsstring) : Z :=
  default MAX_CHUNK_LENGTH
    (spec_scanBack (Z.to_nat MAX_CHUNK_LENGTH) remainingText MAX_CHUNK_LENGTH).

Fixpoint spec_cutLoop (fuel : nat) (remainingText : jsstring) : option (list jsstring) :=
  match remainingText with
  | [] => Some []
  | _ =>
      match fuel with
      | O => None
      | S fuel' =>
          let cut := Z.to_nat (spec_cutAt remainingText) in
          rest ← spec_cutLoop fuel' (drop cut remainingText);
          Some (take cut remainingText :: rest)
      end
  end.

(** The body of [for (let i = 0; i < sentences.length; i++)]. *)
Definition chunksOfSentence (sentence : jsstring) : option (list jsstring) :=
  if MAX_CHUNK_LENGTH <? jslength sentence
  then cutLoop (length sentence) sentence
  else Some [sentence].

Fixpoint chunkSentences (sentences : list jsstring) : option (list jsstring) :=
  match sentences with
  | [] => Some []
  | sentence :: more =>
      cs ← chunksOfSentence sentence;
      rest ← chunkSentences more;
      Some (cs ++ rest)
  end.

(** [allChunks] as [textToSpeech] hands it to [processChunksParallel]. *)
Definition allChunks (text : jsstring) : option (list jsstring) :=
  chunkSentences (splitTextIntoSentences text).

End Chunker.


(** ** The synthesizer client's descriptor override, src/index.ts 351-357 *)

Section Descriptor.

(** The values of the descriptor are JSON values that the program never
    inspects; the configured scales are JavaScript numbers. *)
Context {Value : Type}.
Variables VOLUME_SCALE SPEED_SCALE PRE_PHONEME_LENGTH
          POST_PHONEME_LENGTH INTONATION_SCALE : Value.

(** [VoicevoxQueryData]: an object with string keys,
    [[key: string]: any]. *)
Abbreviation VoicevoxQueryData := (gmap string Value).

(** The five assignments [queryData.volumeScale = VOLUME_SCALE; ...], in
    the order of the source. *)
Definition overrideQueryData (queryData : VoicevoxQueryData) : VoicevoxQueryData :=
  let queryData := <["volumeScale" := VOLUME_SCALE]> queryData in
  let queryData := <["speedScale" := SPEED_SCALE]> queryData in
  let queryData := <["prePhonemeLength" := PRE_PHONEME_LENGTH]> queryData in
  let queryData := <["postPhonemeLength" := POST_PHONEME_LENGTH]> queryData in
  <["intonationScale" := INTONATION_SCALE]> queryData.

(** The two engine calls of [synthesizeSentence]: [audio_query] answers
    with a descriptor or fails; what is posted to [/synthesis] is the
    overridden descriptor, with the same speaker. *)
Variable audio_query : jsstring -> Z -> option VoicevoxQueryData.

Definition synthesisRequest (text : jsstring) (speaker : Z)
  : option (VoicevoxQueryData * Z) :=
  queryData ← audio_query text speaker;
  Some (overrideQueryData queryData, speaker).



End Descriptor.

(** ** The synthesizer client and the filter stage, src/index.ts 257-382

    [loadFfmpeg], [applyAudioFilters] and [synthesizeSentence] with the
    engine, the clock, the file system and ffmpeg as what they are to the
    program: services that answer or fail.  The scheduler below sees of
    [synthesizeSentence] only whether it produced a file. *)

Module Client.

(** The audio of a response or of a file. *)
Definition Audio := list Byte.byte.

(** How a run of the ffmpeg command ends: the ['end'] event, with the
    output file written, or the ['error'] event, with whatever the command
    left at the output path. *)
Inductive FilterOutcome :=
| Finished (output : Audio)
| Failed (partial : option Audio).

(** What [loadFfmpeg] resolves to when it is not [null]: the module, with
    the binary it was pointed at, if any. *)
Record Ffmpeg := mkFfmpeg { ffmpegPath : option string }.

(** A file of [os.tmpdir()] is identified by its name; [disk] maps the
    names to what the files hold.  [clockReads] counts the readings of
    [Date.now()]. *)
Record Store := mkStore { disk : gmap string Audio; clockReads : nat }.

(** [SynthesisResult], with the path as the program has it. *)
Record SynthesisResult := mkResult { success : bool; tempFile : option string }.

(** ["voicevox_" + Date.now() + ".wav"] and
    ["voicevox_processed_" + Date.now() + ".wav"]: the clock reading is a
    whole number of milliseconds, printed in decimal. *)
Definition rawName (t : N) : string := "voicevox_" +:+ pretty t +:+ ".wav".
Definition processedName (t : N) : string :=
  "voicevox_processed_" +:+ pretty t +:+ ".wav".

Section Client.

Context {Value : Type}.

(** The constants read from the environment: the five scales,
    [ENABLE_FFMPEG = process.env.ENABLE_FFMPEG === "true"] and
    [process.env.FFMPEG_PATH]. *)
Record Config := mkConfig {
  VOLUME_SCALE : Value;
  SPEED_SCALE : Value;
  PRE_PHONEME_LENGTH : Value;
  POST_PHONEME_LENGTH : Value;
  INTONATION_SCALE : Value;
  ENABLE_FFMPEG : bool;
  FFMPEG_PATH : option string
}.

(** What the client does not decide: the two endpoints of the engine
    ([None]: the request threw), the clock, whether the dynamic import of
    [fluent-ffmpeg] succeeds, how the ffmpeg command ends on an input, and
    whether a file can be written. *)
Record Services := mkServices {
  audio_query : jsstring -> Z -> option (gmap string Value);
  synthesis : gmap string Value -> Z -> option Audio;
  now : nat -> N;
  import_ffmpeg : bool;
  run_ffmpeg : string -> Audio -> FilterOutcome;
  writable : string -> bool
}.

Variable config : Config.
Variable services : Services.

(** [Date.now()]. *)
Definition dateNow (st : Store) : N * Store :=
  (now services (clockReads st), mkStore (disk st) (S (clockReads st))).

(** [loadFfmpeg], src/index.ts 257-272; an empty [FFMPEG_PATH] is
    falsy. *)
Definition loadFfmpeg : option Ffmpeg :=
  if negb (ENABLE_FFMPEG config) then None
  else if import_ffmpeg services then
    Some (mkFfmpeg (match FFMPEG_PATH config with
                    | Some p => if bool_decide (p = "") then None else Some p
                    | None => None
                    end))
  else None.

(** [applyAudioFilters], src/index.ts 299-335.  The command fails on an
    input that does not exist.  On ['end'] the handler removes the input
    and resolves with the output path; on ['error'] it resolves with the
    input path. *)
Definition applyAudioFilters (inputFile : string) (st : Store) : string * Store :=
  if negb (ENABLE_FFMPEG config) then (inputFile, st)
  else
    match loadFfmpeg with
    | None => (inputFile, st)
    | Some ffmpeg =>
        let '(t, st) := dateNow st in
        let outputFile := processedName t in
        match disk st !! inputFile with
        | None => (inputFile, st)
        | Some input =>
            match run_ffmpeg services inputFile input with
            | Finished output =>
                let written := <[outputFile := output]> (disk st) in
                (outputFile, mkStore (delete inputFile written) (clockReads st))
            | Failed partial =>
                let left :=
                  match partial with
                  | Some a => <[outputFile := a]> (disk st)
                  | None => disk st
                  end in
                (inputFile, mkStore left (clockReads st))
            end
        end
    end.

(** [synthesizeSentence], src/index.ts 344-382.  Every exception ends in
    the [catch], which returns [{ success: false }]. *)
Definition synthesizeSentence (text : jsstring) (speaker : Z) (st : Store)
  : SynthesisResult * Store :=
  match synthesisRequest (VOLUME_SCALE config) (SPEED_SCALE config)
          (PRE_PHONEME_LENGTH config) (POST_PHONEME_LENGTH config)
          (INTONATION_SCALE config) (audio_query services) text speaker with
  | None => (mkResult false None, st)
  | Some (queryData, speaker) =>
      match synthesis services queryData speaker with
      | None => (mkResult false None, st)
      | Some audio =>
          let '(t, st) := dateNow st in
          let tempFile := rawName t in
          if writable services tempFile then
            let st := mkStore (<[tempFile := audio]> (disk st)) (clockReads st) in
            let '(finalFile, st) :=
              if ENABLE_FFMPEG config then applyAudioFilters tempFile st
              else (tempFile, st) in
            (mkResult true (Some finalFile), st)
          else (mkResult false None, st)
      end
  end.

(** The fields of the descriptor as the client overrides them. *)
Definition override : gmap string Value -> gmap string Value :=
  overrideQueryData (VOLUME_SCALE config) (SPEED_SCALE config)
    (PRE_PHONEME_LENGTH config) (POST_PHONEME_LENGTH config)
    (INTONATION_SCALE config).

End Client.

End Client.

(** ** The world the asynchronous code runs in *)

(** [DialogueData]: [speaker] is optional. *)
Record DialogueData := mkDialogue { text : jsstring; speaker : option Z }.

(** A temporary audio file.  [origin] is a ghost label: the index, in the
    chunk array of the run, of the chunk the audio was synthesised from.
    The program only ever sees [path]; the names
    ["voicevox_" + Date.now() + ".wav"] are taken to be fresh here (what
    the names are, and when two of them coincide, is in [Client]). *)
Record TempFile := mkTempFile { path : nat; origin : nat }.

(** [SynthesisResult]: [{ success, tempFile? }]. *)
Record SynthesisResult := mkSynthesis { success : bool; tempFile : option TempFile }.

(** [AudioResult] is [{ success: boolean }], a boolean. *)
Definition AudioResult := bool.

(** The calls of the tools [speak] and [stop_speak]. *)
Inductive Request :=
| Speak (dialogues : list DialogueData)
| StopSpeak.

(** What can be observed of a run.  [EvBegin]/[EvEnd], [EvTurnBegin]/
    [EvTurnEnd] and [EvEnqueue] are ghost marks; the tickets number the
    Turn-lists in the order in which they were enqueued. *)
Inductive Event :=
| EvSynth (origin : nat) (text : jsstring) (speaker : Z) (ok : bool)
    (* one call of [synthesizeSentence] and its outcome *)
| EvExec (file : TempFile)      (* the platform playback command is run *)
| EvUnlink (path : nat)         (* [fs.unlinkSync] removed the file *)
| EvStop                        (* [stopAudio] *)
| EvEnqueue (ticket : nat)      (* [queue.push] *)
| EvBegin (ticket : nat)        (* [processQueue] took the Turn-list *)
| EvEnd (ticket : nat)          (* its [conversationToSpeech] returned *)
| EvTurnBegin (i : nat)         (* iteration [i] of the dialogue loop *)
| EvTurnEnd (i : nat).

(** The mutable state: the module variable [isPlayingAudio], the fields of
    the one [AudioPlayer], the temporary files on disk, and counters that
    index the environment's answers.  [files] holds the files that
    [synthesizeSentence] has handed to the scheduler and that have not
    been removed; a file that the client leaves behind without handing it
    out (the output of a filter that failed, see [Client]) is not among
    them. *)
Record World := mkWorld {
  isPlayingAudio : bool;
  initialized : bool;
  queue : list (nat * list DialogueData);
  isProcessing : bool;
  files : list nat;
  nextPath : nat;
  awaits : nat;        (* I/O waits so far *)
  synthCalls : nat;    (* calls of [synthesizeSentence] so far *)
  playCalls : nat;     (* platform playback commands so far *)
  tickets : nat;       (* Turn-lists enqueued so far *)
  reentered : bool     (* a drain was started while one was in flight *)
}.

(** What the program does not decide. *)
Record Env := mkEnv {
  engine : nat -> jsstring -> Z -> bool;
    (* did the [k]-th call [synthesizeSentence(text, speaker)] produce a file *)
  player : nat -> bool;
    (* did the [k]-th platform playback command exit without error *)
  arrivals : nat -> list Request
    (* the tool calls served while the [k]-th I/O wait is pending *)
}.

Definition set_isPlayingAudio (b : bool) (w : World) : World :=
  mkWorld b (initialized w) (queue w) (isProcessing w) (files w) (nextPath w)
          (awaits w) (synthCalls w) (playCalls w) (tickets w) (reentered w).
Definition set_initialized (b : bool) (w : World) : World :=
  mkWorld (isPlayingAudio w) b (queue w) (isProcessing w) (files w) (nextPath w)
          (awaits w) (synthCalls w) (playCalls w) (tickets w) (reentered w).
Definition set_queue (q : list (nat * list DialogueData)) (w : World) : World :=
  mkWorld (isPlayingAudio w) (initialized w) q (isProcessing w) (files w)
          (nextPath w) (awaits w) (synthCalls w) (playCalls w) (tickets w)
          (reentered w).
Definition set_isProcessing (b : bool) (w : World) : World :=
  mkWorld (isPlayingAudio w) (initialized w) (queue w) b (files w) (nextPath w)
          (awaits w) (synthCalls w) (playCalls w) (tickets w) (reentered w).
Definition set_files (fs : list nat) (w : World) : World :=
  mkWorld (isPlayingAudio w) (initialized w) (queue w) (isProcessing w) fs
          (nextPath w) (awaits w) (synthCalls w) (playCalls w) (tickets w)
          (reentered w).
Definition set_nextPath (n : nat) (w : World) : World :=
  mkWorld (isPlayingAudio w) (initialized w) (queue w) (isProcessing w) (files w)
          n (awaits w) (synthCalls w) (playCalls w) (tickets w) (reentered w).
Definition set_awaits (n : nat) (w : World) : World :=
  mkWorld (isPlayingAudio w) (initialized w) (queue w) (isProcessing w) (files w)
          (nextPath w) n (synthCalls w) (playCalls w) (tickets w) (reentered w).
Definition set_synthCalls (n : nat) (w : World) : World :=
  mkWorld (isPlayingAudio w) (initialized w) (queue w) (isProcessing w) (files w)
          (nextPath w) (awaits w) n (playCalls w) (tickets w) (reentered w).
Definition set_playCalls (n : nat) (w : World) : World :=
  mkWorld (isPlayingAudio w) (initialized w) (queue w) (isProcessing w) (files w)
          (nextPath w) (awaits w) (synthCalls w) n (tickets w) (reentered w).
Definition set_tickets (n : nat) (w : World) : World :=
  mkWorld (isPlayingAudio w) (initialized w) (queue w) (isProcessing w) (files w)
          (nextPath w) (awaits w) (synthCalls w) (playCalls w) n (reentered w).
Definition set_reentered (b : bool) (w : World) : World :=
  mkWorld (isPlayingAudio w) (initialized w) (queue w) (isProcessing w) (files w)
          (nextPath w) (awaits w) (synthCalls w) (playCalls w) (tickets w) b.

(** ** A monad for the asynchronous code

    A computation reads and writes the world and emits events; [None] means
    that a loop was still running when its fuel ran out. *)
Definition M (A : Type) : Type := World -> option (A * World * list Event).

Definition ret {A} (a : A) : M A := fun w => Some (a, w, []).

Definition bind {A B} (m : M A) (f : A -> M B) : M B :=
  fun w =>
    match m w with
    | None => None
    | Some (a, w1, e1) =>
        match f a w1 with
        | None => None
        | Some (b, w2, e2) => Some (b, w2, e1 ++ e2)
        end
    end.

Definition get : M World := fun w => Some (w, w, []).
Definition modify (f : World -> World) : M unit := fun w => Some (tt, f w, []).
Definition emit (e : Event) : M unit := fun w => Some (tt, w, [e]).
Definition diverge {A} : M A := fun _ => None.

Declare Scope m_scope.
Delimit Scope m_scope with M.
Notation "'do' x <- m ; k" := (bind m (fun x => k))
  (at level 10, x name, m at level 100, k at level 200) : m_scope.
Notation "'do' ' p <- m ; k" := (bind m (fun x => match x with p => k end))
  (at level 10, p pattern, m at level 100, k at level 200) : m_scope.
Notation "'run' m ; k" := (bind m (fun _ => k))
  (at level 10, m at level 100, k at level 200) : m_scope.
Local Open Scope m_scope.

Fixpoint forEachM {A} (f : A -> M unit) (l : list A) : M unit :=
  match l with
  | [] => ret tt
  | a :: l' => run f a; forEachM f l'
  end.

Fixpoint mapM {A B} (f : A -> M B) (l : list A) : M (list B) :=
  match l with
  | [] => ret []
  | a :: l' => do b <- f a; do bs <- mapM f l'; ret (b :: bs)
  end.


(** ** The program *)

Section Program.

Variable env : Env.
Variable MAX_CHUNK_LENGTH : Z.
Variable DEFAULT_SPEAKER : Z.

Definition updatePlayState (isPlaying : bool) : M unit :=
  modify (set_isPlayingAudio isPlaying).

Definition checkPlayState : M bool :=
  do w <- get; ret (isPlayingAudio w).

(** [AudioPlayer.stopAudio], src/index.ts 481-500.  The kill command is
    fire-and-forget: whether the playback command in flight then fails
    is the environment's [player]. *)
Definition stopAudio : M bool :=
  run updatePlayState false;
  run modify (set_queue []);
  run emit EvStop;
  ret true.

(** [this.queue.push(dialogues)]. *)
Definition queuePush (dialogues : list DialogueData) : M unit :=
  do w <- get;
  run modify (fun w => set_tickets (S (tickets w))
                         (set_queue (queue w ++ [(tickets w, dialogues)]) w));
  emit (EvEnqueue (tickets w)).

(** A tool call served while the program waits for I/O.  [speak] refuses
    an empty array and otherwise calls [addToQueue], which pushes and
    starts [processQueue] unless [isProcessing]; a drain started here
    would run concurrently with the one that is waiting, which this
    sequential model only records in [reentered]. *)
Definition serve (r : Request) : M unit :=
  match r with
  | StopSpeak => run stopAudio; ret tt
  | Speak [] => ret tt
  | Speak dialogues =>
      run queuePush dialogues;
      do w <- get;
      if isProcessing w then ret tt else modify (set_reentered true)
  end.

(** One wait for I/O (an engine call, a playback command): the tool calls
    that arrive meanwhile are served. *)
Definition io_wait : M unit :=
  do w <- get;
  run modify (set_awaits (S (awaits w)));
  forEachM serve (arrivals env (awaits w)).

(** [synthesizeSentence], src/index.ts 344-382, as the scheduler sees it:
    a wait (the engine calls, whose request is [synthesisRequest] above),
    then the temporary file it hands out, under a fresh name, or a
    failure.  [origin] is the ghost label of the file.  The requests, the
    names and the filter stage are in [Client.synthesizeSentence]. *)
Definition synthesizeSentence (origin : nat) (text : jsstring) (speaker : Z)
  : M SynthesisResult :=
  do w <- get;
  run modify (set_synthCalls (S (synthCalls w)));
  run io_wait;
  if engine env (synthCalls w) text speaker then
    do w' <- get;
    let tempFile := mkTempFile (nextPath w') origin in
    run modify (fun w => set_nextPath (S (nextPath w))
                           (set_files (nextPath w :: files w) w));
    run emit (EvSynth origin text speaker true);
    ret (mkSynthesis true (Some tempFile))
  else
    run emit (EvSynth origin text speaker false);
    ret (mkSynthesis false None).

(** [AudioPlayer.initialize], src/index.ts 431-436. *)
Definition initialize : M unit :=
  do w <- get;
  if initialized w then ret tt
  else run modify (set_initialized true); updatePlayState false.

(** [fs.unlinkSync(path)]: [false] stands for the exception thrown when
    the file does not exist. *)
Definition unlinkSync (p : nat) : M bool :=
  do w <- get;
  if bool_decide (p ∈ files w) then
    run modify (set_files (filter (fun q => q ≠ p) (files w)));
    run emit (EvUnlink p);
    ret true
  else ret false.

(** [AudioPlayer.playAudio], src/index.ts 508-544.  Every exception ends
    in the [catch], which returns [{ success: false }]. *)
Definition playAudio (tempFile : TempFile) : M AudioResult :=
  do w0 <- get;
  run (if initialized w0 then ret tt else initialize);
  do playing <- checkPlayState;
  if negb playing then
    run unlinkSync (path tempFile);
    ret false
  else
    do w <- get;
    run emit (EvExec tempFile);
    run modify (set_playCalls (S (playCalls w)));
    run io_wait;
    if player env (playCalls w) then
      do removed <- unlinkSync (path tempFile);
      ret removed
    else ret false.

Definition playAudioFile (tempFile : TempFile) : M AudioResult :=
  playAudio tempFile.

(** [chunks[i]]; every use is in range. *)
Definition chunkAt (chunks : list jsstring) (i : nat) : jsstring :=
  default [] (chunks !! i).

Definition MAX_PARALLEL : nat := 3.

(** A result that the scheduler treats as usable:
    [r.success && r.tempFile]. *)
Definition usable (r : SynthesisResult) : option TempFile :=
  if success r then tempFile r else None.

(** [for (const preloadedResult of preloadedResults)], src/index.ts
    689-709.  The array iterator is at position [p]; the body pushes onto
    the array it iterates.  The result is the array, [currentIndex] and
    [hasError] when the loop is left. *)
Fixpoint steadyLoop (fuel : nat) (chunks : list jsstring) (speaker : Z)
    (p : nat) (preloadedResults : list SynthesisResult)
    (currentIndex : nat) (hasError : bool)
  : M (list SynthesisResult * nat * bool) :=
  match preloadedResults !! p with
  | None => ret (preloadedResults, currentIndex, hasError)
  | Some preloadedResult =>
      do playing <- checkPlayState;
      match playing, tempFile preloadedResult with
      | true, Some file =>
          match fuel with
          | O => diverge
          | S fuel' =>
              let nextIndex := (currentIndex + length preloadedResults)%nat in
              (* [nextSynthesisPromise] is started here and awaited after
                 the playback *)
              do playResult <- playAudioFile file;
              let hasError := hasError || negb playResult in
              let currentIndex := S currentIndex in
              do nextSynthResult <-
                (if (nextIndex <? length chunks)%nat
                 then do r <- synthesizeSentence nextIndex
                                (chunkAt chunks nextIndex) speaker;
                      ret (Some r)
                 else ret None);
              let preloadedResults :=
                match nextSynthResult with
                | Some r => match usable r with
                            | Some _ => preloadedResults ++ [r]
                            | None => preloadedResults
                            end
                | None => preloadedResults
                end in
              steadyLoop fuel' chunks speaker (S p) preloadedResults
                         currentIndex hasError
          end
      | _, _ => ret (preloadedResults, currentIndex, hasError)
      end
  end.

(** [while (currentIndex + preloadedResults.length < chunks.length)],
    src/index.ts 711-731; [buffered] is [preloadedResults.length], which
    no longer changes.  The result is [hasError]. *)
Fixpoint sequentialLoop (fuel : nat) (chunks : list jsstring) (speaker : Z)
    (buffered : nat) (currentIndex : nat) (hasError : bool) : M bool :=
  if (currentIndex + buffered <? length chunks)%nat then
    do playing <- checkPlayState;
    if negb playing then ret hasError
    else
      match fuel with
      | O => diverge
      | S fuel' =>
          let nextIndex := (currentIndex + buffered)%nat in
          do synthResult <- synthesizeSentence nextIndex
                              (chunkAt chunks nextIndex) speaker;
          do playing <- checkPlayState;
          if negb playing then ret hasError
          else
            match usable synthResult with
            | None =>
                sequentialLoop fuel' chunks speaker buffered
                               (S currentIndex) true
            | Some file =>
                do playResult <- playAudioFile file;
                sequentialLoop fuel' chunks speaker buffered
                               (S currentIndex) (hasError || negb playResult)
            end
      end
  else ret hasError.

(** [processChunksParallel], src/index.ts 647-734. *)
Definition processChunksParallel (chunks : list jsstring) (speaker : Z)
  : M AudioResult :=
  if bool_decide (length chunks = 0%nat) then ret true
  else
    do currentSynthResult <- synthesizeSentence 0 (chunkAt chunks 0) speaker;
    match usable currentSynthResult with
    | None => ret false
    | Some file =>
        (* the lookahead calls run concurrently and are awaited together;
           [allSettled] keeps their order *)
        do results <-
          mapM (fun i => synthesizeSentence i (chunkAt chunks i) speaker)
               (seq 1 (Nat.min (length chunks) MAX_PARALLEL - 1));
        let preloadedResults := filter (fun r => success r = true) results in
        let hasError := existsb (fun r => negb (success r)) results in
        do playResult <- playAudioFile file;
        let hasError := hasError || negb playResult in
        do '(preloadedResults, currentIndex, hasError) <-
          steadyLoop (length chunks + 3) chunks speaker 0 preloadedResults
                     1 hasError;
        do hasError <-
          sequentialLoop (length chunks) chunks speaker
                         (length preloadedResults) currentIndex hasError;
        ret (negb hasError)
    end.

(** [textToSpeech], src/index.ts 571-604.  [allChunks] is [None] when the
    [while] loop of a sentence makes no progress, which is the case only
    for a [MAX_CHUNK_LENGTH] of zero or less: each round pushes an empty
    chunk, until [allChunks.push] throws a [RangeError]; the [catch]
    returns [{ success: false }]. *)
Definition textToSpeech (text : jsstring) (speaker : Z) : M AudioResult :=
  match allChunks MAX_CHUNK_LENGTH text with
  | None => ret false
  | Some chunks => processChunksParallel chunks speaker
  end.

(** The loop of [conversationToSpeech], src/index.ts 616-633, at
    iteration [i] with [dialogues.slice(i)] still to do. *)
Fixpoint conversationLoop (i : nat) (dialogues : list DialogueData)
  : M AudioResult :=
  match dialogues with
  | [] => run updatePlayState false; ret true
  | dialogue :: more =>
      do playing <- checkPlayState;
      if negb playing then ret false
      else
        run emit (EvTurnBegin i);
        do result <- textToSpeech (text dialogue)
                       (default DEFAULT_SPEAKER (speaker dialogue));
        run emit (EvTurnEnd i);
        if negb result then run updatePlayState false; ret false
        else conversationLoop (S i) more
  end.

Definition conversationToSpeech (dialogues : list DialogueData)
  : M AudioResult :=
  run updatePlayState true;
  conversationLoop 0 dialogues.

(** [AudioPlayer.processQueue], src/index.ts 457-474.  The drain goes on
    for as long as Turn-lists keep arriving, so [rounds] bounds what is
    observed: with no round left the drain is observed where it stands,
    about to take the next Turn-list. *)
Fixpoint processQueue (rounds : nat) : M unit :=
  do w <- get;
  match queue w with
  | [] => modify (set_isProcessing false)
  | (ticket, currentDialogues) :: rest =>
      match rounds with
      | O => ret tt
      | S rounds' =>
          run modify (set_isProcessing true);
          run modify (set_queue rest);
          run emit (EvBegin ticket);
          run conversationToSpeech currentDialogues;
          run emit (EvEnd ticket);
          processQueue rounds'
      end
  end.

(** [AudioPlayer.addToQueue], src/index.ts 444-449, called while no async
    function of the program is waiting. *)
Definition addToQueue (rounds : nat) (dialogues : list DialogueData) : M unit :=
  run queuePush dialogues;
  do w <- get;
  if isProcessing w then ret tt else processQueue rounds.

(** The tools [speak] and [stop_speak], src/index.ts 795-848, called while
    the program is idle. *)
Definition tool (rounds : nat) (r : Request) : M unit :=
  match r with
  | StopSpeak => run stopAudio; ret tt
  | Speak [] => ret tt
  | Speak dialogues => addToQueue rounds dialogues
  end.

(** The server: the tool calls [requests] arrive one after the other,
    each when the program is idle again. *)
Definition server (rounds : nat) (requests : list Request) : M unit :=
  forEachM (tool rounds) requests.

End Program.

(** ** Reading a trace *)

(** The chunk indices for which the platform player was run, in order. *)
Definition played (evs : list Event) : list nat :=
  omap (fun e => match e with EvExec f => Some (origin f) | _ => None end) evs.

(** The chunk indices whose synthesis was attempted, in order. *)
Definition attempted (evs : list Event) : list nat :=
  omap (fun e => match e with EvSynth i _ _ _ => Some i | _ => None end) evs.

Definition is_exec (e : Event) : bool :=
  match e with EvExec _ => true | _ => false end.

(** The tickets of the Turn-lists that were enqueued, and of those whose
    processing began, in order. *)
Definition enqueued (evs : list Event) : list nat :=
  omap (fun e => match e with EvEnqueue t => Some t | _ => None end) evs.

Definition begun (evs : list Event) : list nat :=
  omap (fun e => match e with EvBegin t => Some t | _ => None end) evs.

(** Where the drain stands: between Turn-lists; inside the Turn-list
    [ticket], about to start its turn [next]; inside turn [i] of it. *)
Inductive Phase :=
| Idle
| InList (ticket : nat) (next : nat)
| InTurn (ticket : nat) (i : nat).

(** The only moves of a drain that takes one Turn-list at a time and one
    turn at a time: tool calls are served in any phase; a Turn-list begins
    only between Turn-lists; turn [i] begins only when the turns before it
    have ended; engine calls, playback and file removal happen only inside
    a turn. *)
Definition track (ph : Phase) (e : Event) : option Phase :=
  match e, ph with
  | EvStop, _ | EvEnqueue _, _ => Some ph
  | EvBegin t, Idle => Some (InList t 0)
  | EvTurnBegin i, InList t n => if (i =? n)%nat then Some (InTurn t i) else None
  | EvTurnEnd i, InTurn t j => if (i =? j)%nat then Some (InList t (S i)) else None
  | EvEnd t, InList t' _ => if (t =? t')%nat then Some Idle else None
  | EvSynth _ _ _ _, InTurn _ _ | EvExec _, InTurn _ _ | EvUnlink _, InTurn _ _ =>
      Some ph
  | _, _ => None
  end.

Fixpoint follow (ph : Phase) (evs : list Event) : option Phase :=
  match evs with
  | [] => Some ph
  | e :: evs' =>
      match track ph e with
      | Some ph' => follow ph' evs'
      | None => None
      end
  end.

(** The texts handed to the synthesizer client, in order. *)
Definition synthesised (evs : list Event) : list jsstring :=
  omap (fun e => match e with EvSynth _ t _ _ => Some t | _ => None end) evs.

Definition is_begin (e : Event) : bool :=
  match e with EvBegin _ => true | _ => false end.

(** The events up to the next Turn-list that begins. *)
Fixpoint until_begin (evs : list Event) : list Event :=
  match evs with
  | [] => []
  | e :: evs' => if is_begin e then [] else e :: until_begin evs'
  end.

(** The initial world after [main] has called [audioPlayer.initialize()]:
    nothing queued, nothing playing. *)
Definition idle : World :=
  mkWorld false true [] false [] 0 0 0 0 0 false.

(** The world in which [conversationToSpeech] calls into a Turn: the
    stream is authorised and the drain is marked as running. *)
Definition streaming : World :=
  mkWorld true true [] true [] 0 0 0 0 0 false.

(** ** Scenarios *)

Definition five : list jsstring := [js "c0"; js "c1"; js "c2"; js "c3"; js "c4"].

(** Nothing fails and no tool call arrives. *)
Definition calm : Env :=
  mkEnv (fun _ _ _ => true) (fun _ => true) (fun _ => []).

(** The engine fails on the text [t] and on nothing else. *)
Definition fails_on (t : jsstring) : Env :=
  mkEnv (fun _ text _ => negb (bool_decide (text = t))) (fun _ => true)
        (fun _ => []).

(** Every platform playback command exits with an error. *)
Definition command_fails : Env :=
  mkEnv (fun _ _ _ => true) (fun _ => false) (fun _ => []).

(** [stop_speak] is served during the [k]-th I/O wait. *)
Definition stop_at (k : nat) : Env :=
  mkEnv (fun _ _ _ => true) (fun _ => true)
        (fun i => if (i =? k)%nat then [StopSpeak] else []).

(** Two turns, as in [enqueue([{text:"A"},{text:"B"}])]. *)
Definition greeting : list DialogueData :=
  [mkDialogue (js "A") None; mkDialogue (js "B") None].

(** A [speak] is served during the [k]-th I/O wait and [stop_speak] during
    the [j]-th. *)
Definition speak_then_stop (k j : nat) (dialogues : list DialogueData) : Env :=
  mkEnv (fun _ _ _ => true) (fun _ => true)
        (fun i => if (i =? k)%nat then [Speak dialogues]
                  else if (i =? j)%nat then [StopSpeak] else []).

(** What a run returned, which chunks it played and which it tried to
    synthesise. *)
Definition outcome {A} (r : option (A * World * list Event))
  : option (A * list nat * list nat) :=
  match r with
  | Some (a, _, evs) => Some (a, played evs, attempted evs)
  | None => None
  end.

(** The engine is down: every call fails. *)
Definition engine_down : Env :=
  mkEnv (fun _ _ _ => false) (fun _ => true) (fun _ => []).

(** A speak is served during the playback of the first chunk. *)
Definition speak_at (k : nat) (dialogues : list DialogueData) : Env :=
  mkEnv (fun _ _ _ => true) (fun _ => true)
        (fun i => if (i =? k)%nat then [Speak dialogues] else []).

(** A client of an engine that answers every query with an empty
    descriptor and every synthesis with one byte of audio; the clock
    reads the same millisecond twice and then moves on; ffmpeg, when it
    is enabled, ends well. *)
Definition studio (enable_ffmpeg : bool) : Client.Config (Value := unit) :=
  Client.mkConfig tt tt tt tt tt enable_ffmpeg None.

Definition studio_services : Client.Services (Value := unit) :=
  Client.mkServices
    (fun _ _ => Some ∅)
    (fun _ speaker => Some [Byte.x00])
    (fun k => (1700000000000 + N.of_nat (k / 2))%N)
    true
    (fun _ input => Client.Finished (Byte.xff :: input))
    (fun _ => true).

Definition empty_store : Client.Store := Client.mkStore ∅ 0.

(** * The vocabulary of the properties *)

Definition all_whitespace (s : jsstring) : Prop :=
  Forall (fun c => is_whitespace c = true) s.

(** A terminator can only be the last code unit. *)
Definition last_only (s : jsstring) : Prop :=
  forall (i : nat) (c : code_unit),
    s !! i = Some c -> is_terminator c = true -> S i = length s.

(** [boundary_whitespace chunks text]: [text] is the chunks in order, with
    whitespace-only strings between them, before the first and after the
    last. *)
Inductive boundary_whitespace : list jsstring -> jsstring -> Prop :=
| bw_nil w : all_whitespace w -> boundary_whitespace [] w
| bw_cons w c cs t :
    all_whitespace w -> boundary_whitespace cs t ->
    boundary_whitespace (c :: cs) (w ++ c ++ t).

Definition good_chunk (MAX_CHUNK_LENGTH : Z) (c : jsstring) : Prop :=
  c <> [] /\ jslength c <= MAX_CHUNK_LENGTH.

(** A relation between the world before, the world after and the events in
    between that holds of nothing-happened and composes is kept by every
    program built from pieces that keep it. *)
Definition respects {A} (T : World -> World -> list Event -> Prop) (m : M A) : Prop :=
  forall w a w' evs, m w = Some (a, w', evs) -> T w w' evs.

(** [returns P m]: from every world [m] returns, with a result in [P]. *)
Definition returns {A} (P : A -> Prop) (m : M A) : Prop :=
  forall w, exists a w' evs, m w = Some (a, w', evs) /\ P a.

Abbreviation total m := (returns (fun _ => True) m).

(** What is left of the steady-state loop: every round moves the iterator
    one step towards the end of the array, and a round can only lengthen
    the array when [currentIndex + length] is still below the number of
    chunks, which the round then raises by two. *)
Definition steady_measure (n p len ci : nat) : nat :=
  ((n - (ci + len)) + (len - p))%nat.

Definition is_arrival (e : Event) : Prop :=
  match e with EvStop | EvEnqueue _ => True | _ => False end.

(** Serving tool calls leaves the files, the player's initialisation and
    the counters of the engine and the player alone; it can only clear the
    playback flag, never set it; it emits [EvStop] and [EvEnqueue] only;
    and while a drain is marked as running it starts no second one. *)
Definition arrivals_frame (w w' : World) (evs : list Event) : Prop :=
  files w' = files w /\ nextPath w' = nextPath w
  /\ initialized w' = initialized w
  /\ synthCalls w' = synthCalls w /\ playCalls w' = playCalls w
  /\ isProcessing w' = isProcessing w
  /\ (isPlayingAudio w = false -> isPlayingAudio w' = false)
  /\ (isProcessing w = true -> reentered w' = reentered w)
  /\ (awaits w <= awaits w')%nat
  /\ Forall is_arrival evs.

(** A step that only touches the files and the counters of the engine and
    the player, and emits [EvSynth] and [EvUnlink] only. *)
Definition quiet_step (w w' : World) (evs : list Event) : Prop :=
  isPlayingAudio w' = isPlayingAudio w /\ initialized w' = initialized w
  /\ queue w' = queue w /\ isProcessing w' = isProcessing w
  /\ tickets w' = tickets w /\ reentered w' = reentered w
  /\ awaits w' = awaits w
  /\ Forall (fun e => match e with
                      | EvSynth _ _ _ _ | EvUnlink _ => True
                      | _ => False
                      end) evs.

Definition no_exec (evs : list Event) : Prop :=
  Forall (fun e => is_exec e = false) evs.

(** Once the flag is false it stays false and nothing is played; a stop
    leaves the flag false; and nothing is played after a stop. *)
Definition cancel_safe (w w' : World) (evs : list Event) : Prop :=
  (isPlayingAudio w = false -> isPlayingAudio w' = false /\ no_exec evs)
  /\ (EvStop ∈ evs -> isPlayingAudio w' = false)
  /\ (forall pre post, evs = pre ++ EvStop :: post -> no_exec post).

(** While [isProcessing] is set, nothing a run does clears it or starts a
    second drain. *)
Definition drain_kept (w w' : World) (evs : list Event) : Prop :=
  isProcessing w = true -> isProcessing w' = true /\ reentered w' = reentered w.

Definition no_queue_event (e : Event) : Prop :=
  match e with EvBegin _ | EvEnqueue _ => False | _ => True end.

(** Every Turn-list that begins was enqueued before. *)
Definition begin_after_enqueue (evs : list Event) : Prop :=
  forall p1 p2 t, evs = p1 ++ EvBegin t :: p2 -> EvEnqueue t ∈ p1.

(** The tickets that have begun, followed by those that wait in the queue,
    ascend; the tickets handed out so far are [0 .. tickets - 1], in the
    order of the enqueues. *)
Definition ticket_inv (w : World) (pre : list Event) : Prop :=
  StronglySorted lt (begun pre ++ (queue w).*1)
  /\ Forall (fun t => t < tickets w)%nat (begun pre ++ (queue w).*1)
  /\ enqueued pre = seq 0 (tickets w)
  /\ begin_after_enqueue pre.

Definition ticket_order (w w' : World) (evs : list Event) : Prop :=
  forall pre, ticket_inv w pre -> ticket_inv w' (pre ++ evs).

(** What a Turn emits keeps the drain inside that turn. *)
Definition stays_in_turn (w w' : World) (evs : list Event) : Prop :=
  forall t i, follow (InTurn t i) evs = Some (InTurn t i).

Definition no_begin (evs : list Event) : Prop :=
  Forall (fun e => is_begin e = false) evs.

(** Nothing is played up to the next Turn-list that begins, and if none
    begins the flag ends up false. *)
Definition quiet_head (evs : list Event) (w' : World) : Prop :=
  no_exec (until_begin evs) /\ (no_begin evs -> isPlayingAudio w' = false).

(** From a false flag, and from every stop on, the run is quiet up to the
    next Turn-list that begins. *)
Definition silenced (w w' : World) (evs : list Event) : Prop :=
  (isPlayingAudio w = false -> quiet_head evs w')
  /\ (forall pre post, evs = pre ++ EvStop :: post -> quiet_head post w').

(** Every ticket that waits or is still to be handed out is at least [n]. *)
Definition lower_bound (n : nat) (w : World) : Prop :=
  Forall (fun t => n <= t)%nat (queue w).*1 /\ (n <= tickets w)%nat.

(** The tickets handed out are counted by the enqueues; a bound on the
    tickets that can still begin is kept; and from a stop on, only
    Turn-lists enqueued after it begin. *)
Definition late_tickets (w w' : World) (evs : list Event) : Prop :=
  tickets w' = (tickets w + length (enqueued evs))%nat
  /\ (forall n, lower_bound n w ->
        lower_bound n w' /\ Forall (fun t => n <= t)%nat (begun evs))
  /\ (forall pre post, evs = pre ++ EvStop :: post ->
        lower_bound (tickets w + length (enqueued pre)) w'
        /\ Forall (fun t => tickets w + length (enqueued pre) <= t)%nat (begun post)).

(** What the lookahead buffer holds: the chunk index of each file. *)
Definition origins (buf : list SynthesisResult) : list nat :=
  omap (fun r => origin <$> tempFile r) buf.

(** The buffer of the steady-state loop: every entry has a file; the chunk
    indices do not descend and stay at or below
    [currentIndex + preloadedResults.length]. *)
Definition buffer_inv (buf : list SynthesisResult) (ci : nat) : Prop :=
  Forall (fun r => is_Some (tempFile r)) buf
  /\ StronglySorted le (origins buf)
  /\ Forall (fun o => o <= ci + length buf)%nat (origins buf).

(** What a run of the scheduler on [chunks] with [speaker] may emit: an
    engine call for the chunk at its index, with the speaker of the run;
    a playback of audio synthesised from a chunk of the array; the removal
    of a file; what serving tool calls emits. *)
Definition call_of (chunks : list jsstring) (speaker : Z) (e : Event) : Prop :=
  match e with
  | EvSynth i t s _ => chunks !! i = Some t /\ s = speaker
  | EvExec f => (origin f < length chunks)%nat
  | EvBegin _ | EvEnd _ | EvTurnBegin _ | EvTurnEnd _ => False
  | _ => True
  end.

(** The temporary files on disk were all named before [nextPath]. *)
Definition fresh_paths (w : World) : Prop :=
  Forall (fun p => p < nextPath w)%nat (files w).

(** The disk holds the files [old], which it held when the next name was
    [n0], below files named since. *)
Definition disk_since (n0 : nat) (old : list nat) (w : World) : Prop :=
  (n0 <= nextPath w)%nat
  /\ exists created,
       files w = created ++ old
       /\ Forall (fun p => n0 <= p < nextPath w)%nat created.

(** Only files named at or after [n0] are removed. *)
Definition unlinks_since (n0 : nat) (e : Event) : Prop :=
  match e with EvUnlink p => (n0 <= p)%nat | _ => True end.

(** The paths of the files that the lookahead buffer holds. *)
Definition paths (buf : list SynthesisResult) : list nat :=
  omap (fun r => path <$> tempFile r) buf.

(** Every file on disk named at or after [n0] is one of [pending]. *)
Definition only_pending (n0 : nat) (pending : list nat) (w : World) : Prop :=
  forall q, q ∈ files w -> (n0 <= q)%nat -> q ∈ pending.

(** A file that was on disk or was named since, and is no longer on
    disk, was removed by an unlink of the trace. *)
Definition removals_logged (w w' : World) (evs : list Event) : Prop :=
  (nextPath w <= nextPath w')%nat
  /\ forall p, p ∈ files w \/ (nextPath w <= p < nextPath w')%nat ->
               p ∉ files w' -> EvUnlink p ∈ evs.

(** Every removal of a file follows the playback command of that file. *)
Definition unlinks_paired (evs : list Event) : Prop :=
  forall pre p post,
    evs = pre ++ EvUnlink p :: post -> exists o, EvExec (mkTempFile p o) ∈ pre.


(** While the player is initialised, the flag is set and no stop is
    served, they stay so, and a file is only removed after its playback
    command was run. *)
Definition unlink_after_exec (w w' : World) (evs : list Event) : Prop :=
  initialized w = true -> isPlayingAudio w = true -> EvStop ∉ evs ->
  initialized w' = true /\ isPlayingAudio w' = true /\ unlinks_paired evs.

(** The platform commands run between two worlds all exited without
    error. *)
Definition commands_ok (env : Env) (w w' : World) : Prop :=
  forall k, (playCalls w <= k < playCalls w')%nat -> player env k = true.

(** The platform commands are counted by the playbacks. *)
Definition counts_commands (w w' : World) (evs : list Event) : Prop :=
  playCalls w' = (playCalls w + length (played evs))%nat.


(** The engine calls of a trace, each with the turn it was made in. *)
Fixpoint calls (turn : option nat) (evs : list Event)
  : list (option nat * jsstring * Z) :=
  match evs with
  | [] => []
  | EvTurnBegin i :: evs' => calls (Some i) evs'
  | EvTurnEnd _ :: evs' => calls None evs'
  | EvSynth _ t s _ :: evs' => (turn, t, s) :: calls turn evs'
  | _ :: evs' => calls turn evs'
  end.

(** An engine call made in a turn is for a chunk of the text of that
    turn's dialogue, with its speaker or, when it names none, the default
    speaker. *)
Definition call_of_dialogue (MAX_CHUNK_LENGTH DEFAULT_SPEAKER : Z)
    (dialogues : list DialogueData) (c : option nat * jsstring * Z) : Prop :=
  let '(turn, t, s) := c in
  exists i d chunks,
    turn = Some i /\ dialogues !! i = Some d
    /\ s = default DEFAULT_SPEAKER (speaker d)
    /\ allChunks MAX_CHUNK_LENGTH (text d) = Some chunks /\ t ∈ chunks.

(** Unless a stop is served, the Turn-lists that began, followed by those
    that wait, are those that waited before, followed by those enqueued
    since. *)
Definition none_lost (w w' : World) (evs : list Event) : Prop :=
  EvStop ∉ evs ->
  begun evs ++ (queue w').*1 = (queue w).*1 ++ enqueued evs.

(** No Turn-list begins. *)
Definition begins_none (w w' : World) (evs : list Event) : Prop :=
  begun evs = [].

(** * Properties *)

Example split_ex1 : split_after_terminator (js "a.b. c") = [js "a."; js "b."; js " c"].
Proof. reflexivity. Qed.
Example split_ex2 : split_after_terminator (js "..") = [js "."; js "."].
Proof. reflexivity. Qed.
Example chunks_ex1 : allChunks 3 (js "abcdefgh. ij.") = Some [js "abc"; js "def"; js "gh."; js "ij."].
Proof. vm_compute. reflexivity. Qed.
Example chunks_ex0 : allChunks 0 (js "a") = None.
Proof. vm_compute. reflexivity. Qed.



(** ** Strings *)

Lemma terminator_not_whitespace c : is_terminator c = true -> is_whitespace c = false.
Proof.
  unfold is_terminator, IDEOGRAPHIC_FULL_STOP, FULL_STOP.
  intros H. apply orb_true_iff in H as [H|H]; apply N.eqb_eq in H; subst; reflexivity.
Qed.

Lemma split_concat s : concat (split_after_terminator s) = s.
Proof.
  induction s as [|c s IH]; [reflexivity|]. simpl.
  destruct (is_terminator c && negb (bool_decide (s = []))).
  - simpl. by rewrite IH.
  - destruct (split_after_terminator s) as [|p ps]; simpl in *.
    + by rewrite <- IH.
    + by rewrite <- IH.
Qed.

Lemma split_last_only s : Forall last_only (split_after_terminator s).
Proof.
  induction s as [|c s IH]; simpl.
  - constructor; [|constructor]. intros i c Hi; by destruct i.
  - destruct (is_terminator c && negb (bool_decide (s = []))) eqn:E.
    + constructor; [|exact IH]. intros [|i] d Hi _; [reflexivity|by destruct i].
    + destruct (split_after_terminator s) as [|p ps] eqn:Es.
      * constructor; [|constructor]. intros [|i] d Hi _; [reflexivity|by destruct i].
      * inversion IH as [|? ? Hp Hps]; subst. constructor; [|exact Hps].
        intros [|i] d Hi Hd; simpl in *.
        -- injection Hi as ->. rewrite Hd in E. simpl in E.
           apply negb_false_iff, bool_decide_eq_true in E. subst s.
           simpl in Es. injection Es as <- <-. reflexivity.
        -- f_equal. by apply (Hp i d).
Qed.

Lemma last_only_middle a m b : last_only (a ++ m ++ b) -> last_only m.
Proof.
  intros H i c Hi Hc.
  assert (Hlt : (i < length m)%nat) by (eapply lookup_lt_Some; eauto).
  specialize (H (length a + i)%nat c).
  rewrite lookup_app_r in H by lia.
  replace (length a + i - length a)%nat with i in H by lia.
  rewrite lookup_app_l in H by lia.
  specialize (H Hi Hc). rewrite !length_app in H. lia.
Qed.

Lemma trimStart_spec s : exists w, s = w ++ trimStart s /\ all_whitespace w.
Proof.
  induction s as [|c s [w [IH Hw]]]; simpl.
  - exists []. split; [reflexivity|constructor].
  - destruct (is_whitespace c) eqn:E.
    + exists (c :: w). split; [simpl; congruence|by constructor].
    + exists []. split; [reflexivity|constructor].
Qed.

Lemma trimEnd_spec s : exists w, s = trimEnd s ++ w /\ all_whitespace w.
Proof.
  unfold trimEnd. destruct (trimStart_spec (rev s)) as [w [E Hw]].
  exists (rev w). split.
  - rewrite <- rev_app_distr, <- E. by rewrite rev_involutive.
  - unfold all_whitespace in *. apply Forall_forall. intros x Hx.
    rewrite Forall_forall in Hw. apply Hw. apply list_elem_of_In.
    apply in_rev. by apply list_elem_of_In.
Qed.

Lemma trim_spec s :
  exists w1 w2, s = w1 ++ trim s ++ w2 /\ all_whitespace w1 /\ all_whitespace w2.
Proof.
  destruct (trimStart_spec s) as [w1 [E1 H1]].
  destruct (trimEnd_spec (trimStart s)) as [w2 [E2 H2]].
  exists w1, w2. unfold trim. split; [|by split].
  rewrite <- E2. exact E1.
Qed.

Lemma trimStart_whitespace s : all_whitespace s -> trimStart s = [].
Proof.
  induction 1 as [|c s Hc _ IH]; simpl; [reflexivity|]. by rewrite Hc.
Qed.

Lemma trim_whitespace s : all_whitespace s -> trim s = [].
Proof.
  intros H. unfold trim, trimEnd. rewrite (trimStart_whitespace s H). reflexivity.
Qed.

Lemma trim_empty_whitespace s : trim s = [] -> all_whitespace s.
Proof.
  intros E. destruct (trim_spec s) as (w1 & w2 & Es & H1 & H2).
  rewrite E in Es. rewrite Es. simpl. by apply Forall_app.
Qed.

Lemma bw_prepend w cs t :
  all_whitespace w -> boundary_whitespace cs t -> boundary_whitespace cs (w ++ t).
Proof.
  intros Hw H. destruct H as [w0 H0|w0 c cs t H0 H].
  - constructor. by apply Forall_app.
  - rewrite app_assoc. constructor; [by apply Forall_app|exact H].
Qed.

Lemma bw_concat cs0 cs t :
  boundary_whitespace cs t -> boundary_whitespace (cs0 ++ cs) (concat cs0 ++ t).
Proof.
  intros H. induction cs0 as [|c cs0 IH]; simpl; [exact H|].
  rewrite <- app_assoc. apply (bw_cons [] c); [constructor|exact IH].
Qed.

Lemma substring_take s e :
  0 <= e <= jslength s -> substring s 0 (Some e) = take (Z.to_nat e) s.
Proof.
  intros He. unfold substring, clamp. simpl.
  rewrite (Z.max_l 0 0), (Z.min_l 0 (jslength s)), (Z.max_l e 0),
    (Z.min_l e (jslength s)), (Z.min_l 0 e), (Z.max_r 0 e) by lia.
  simpl. by rewrite Z.sub_0_r.
Qed.

Lemma substring_drop s e :
  0 <= e <= jslength s -> substring s e None = drop (Z.to_nat e) s.
Proof.
  intros He. unfold substring, clamp. simpl.
  rewrite (Z.max_l e 0), (Z.min_l e (jslength s)), (Z.max_l (jslength s) 0),
    (Z.min_l (jslength s) (jslength s)), (Z.min_l e (jslength s)),
    (Z.max_r e (jslength s)) by lia.
  apply take_ge. rewrite length_drop. unfold jslength. lia.
Qed.

Lemma charAt_Some s i c :
  charAt s i = [c] -> 0 <= i /\ s !! Z.to_nat i = Some c.
Proof.
  unfold charAt. destruct ((0 <=? i) && (i <? jslength s)) eqn:E; [|discriminate].
  apply andb_true_iff in E as [E1 E2]. apply Z.leb_le in E1.
  destruct (s !! Z.to_nat i); [|discriminate]. intros [= ->]. by split.
Qed.

Section ChunkerFacts.

Variable MAX_CHUNK_LENGTH : Z.

Lemma scanBack_Some fuel s j j' :
  scanBack MAX_CHUNK_LENGTH fuel s j = Some j' ->
  j' <= j /\ MAX_CHUNK_LENGTH < 2 * j'
  /\ charAt s (j' - 1) = [IDEOGRAPHIC_FULL_STOP].
Proof.
  revert j. induction fuel as [|fuel IH]; intros j; simpl.
  - destruct (MAX_CHUNK_LENGTH <? 2 * j) eqn:E; [|discriminate].
    apply Z.ltb_lt in E. case_bool_decide; [|discriminate].
    intros [= <-]. repeat split; [lia|lia|assumption].
  - destruct (MAX_CHUNK_LENGTH <? 2 * j) eqn:E; [|discriminate].
    apply Z.ltb_lt in E. case_bool_decide.
    + intros [= <-]. repeat split; [lia|lia|assumption].
    + intros Hs. apply IH in Hs. destruct Hs as (? & ? & ?).
      repeat split; [lia|lia|assumption].
Qed.

(** The scan never needs more rounds than it is given: when it starts at
    [min(length, MAX)] with [Z.to_nat] of that as fuel, more fuel changes
    nothing. *)
Lemma scanBack_fuel_gen fuel extra s j :
  (0 <= MAX_CHUNK_LENGTH \/ j <= MAX_CHUNK_LENGTH) -> (Z.to_nat j <= fuel)%nat ->
  scanBack MAX_CHUNK_LENGTH (fuel + extra) s j = scanBack MAX_CHUNK_LENGTH fuel s j.
Proof.
  revert j. induction fuel as [|fuel IH]; intros j HM Hj.
  - destruct extra; [reflexivity|]. simpl.
    destruct (MAX_CHUNK_LENGTH <? 2 * j) eqn:E; [|reflexivity].
    apply Z.ltb_lt in E. lia.
  - simpl. destruct (MAX_CHUNK_LENGTH <? 2 * j) eqn:E; [|reflexivity].
    apply Z.ltb_lt in E. case_bool_decide; [reflexivity|].
    apply IH; lia.
Qed.

Lemma scanBack_fuel extra s :
  let chunkEnd := Z.min (jslength s) MAX_CHUNK_LENGTH in
  scanBack MAX_CHUNK_LENGTH (Z.to_nat chunkEnd + extra) s chunkEnd
  = scanBack MAX_CHUNK_LENGTH (Z.to_nat chunkEnd) s chunkEnd.
Proof. intros chunkEnd. apply scanBack_fuel_gen; unfold chunkEnd; lia. Qed.

Hypothesis MAX_positive : 1 <= MAX_CHUNK_LENGTH.

Lemma chunkEndOf_bounds s :
  s <> [] ->
  1 <= chunkEndOf MAX_CHUNK_LENGTH s <= Z.min (jslength s) MAX_CHUNK_LENGTH.
Proof.
  intros Hs. assert (1 <= jslength s).
  { unfold jslength. destruct s; [done|simpl; lia]. }
  unfold chunkEndOf.
  destruct (scanBack _ _ _ _) as [j'|] eqn:E; simpl; [|lia].
  apply scanBack_Some in E. lia.
Qed.

(** On a string whose only terminator is its last unit, the scan never
    moves the cut. *)
Lemma chunkEndOf_last_only s :
  last_only s ->
  chunkEndOf MAX_CHUNK_LENGTH s = Z.min (jslength s) MAX_CHUNK_LENGTH.
Proof.
  intros Hs. unfold chunkEndOf.
  destruct (scanBack _ _ _ _) as [j'|] eqn:E; simpl; [|reflexivity].
  apply scanBack_Some in E as (Hle & Hmid & Hc).
  apply charAt_Some in Hc as [H0 Hc].
  pose proof (Hs _ _ Hc eq_refl) as Hlast. unfold jslength in *. lia.
Qed.

Lemma cutLoop_spec fuel s :
  (length s <= fuel)%nat ->
  exists cs, cutLoop MAX_CHUNK_LENGTH fuel s = Some cs
             /\ concat cs = s /\ Forall (good_chunk MAX_CHUNK_LENGTH) cs.
Proof.
  revert s. induction fuel as [|fuel IH]; intros s Hlen.
  - destruct s; [|simpl in Hlen; lia]. exists []. by repeat split.
  - destruct s as [|c s].
    { exists []. by repeat split. }
    set (r := c :: s) in *.
    assert (Hr : r <> []) by done.
    pose proof (chunkEndOf_bounds r Hr) as Hb.
    change (cutLoop MAX_CHUNK_LENGTH (S fuel) r) with
      (if (0 <? jslength r) then
         (rest ← cutLoop MAX_CHUNK_LENGTH fuel
                   (substring r (chunkEndOf MAX_CHUNK_LENGTH r) None);
          Some (substring r 0 (Some (chunkEndOf MAX_CHUNK_LENGTH r)) :: rest))
       else Some []).
    assert (Hpos : (0 <? jslength r) = true).
    { apply Z.ltb_lt. unfold jslength, r. simpl. lia. }
    rewrite Hpos, substring_take, substring_drop by lia.
    set (e := Z.to_nat (chunkEndOf MAX_CHUNK_LENGTH r)).
    assert (He : (1 <= e <= length r)%nat) by (unfold e, jslength in *; lia).
    destruct (IH (drop e r)) as (cs & E & Hcat & Hgood).
    { rewrite length_drop. unfold r in *. simpl in *. lia. }
    rewrite E. simpl. exists (take e r :: cs). repeat split.
    + simpl. rewrite Hcat. apply take_drop.
    + constructor; [|exact Hgood]. split.
      * intros Ht. apply (f_equal length) in Ht. rewrite length_take in Ht.
        simpl in Ht. lia.
      * unfold jslength. rewrite length_take. unfold e, jslength in *. lia.
Qed.

Lemma chunksOfSentence_spec sentence :
  sentence <> [] ->
  exists cs, chunksOfSentence MAX_CHUNK_LENGTH sentence = Some cs
             /\ concat cs = sentence /\ Forall (good_chunk MAX_CHUNK_LENGTH) cs.
Proof.
  intros Hs. unfold chunksOfSentence.
  destruct (MAX_CHUNK_LENGTH <? jslength sentence) eqn:E.
  - by apply cutLoop_spec.
  - apply Z.ltb_ge in E. exists [sentence]. repeat split.
    + simpl. by rewrite app_nil_r.
    + constructor; [by split|constructor].
Qed.

Lemma chunk_pieces pieces :
  exists cs,
    chunkSentences MAX_CHUNK_LENGTH
      (filter (fun sentence => 0 < jslength sentence) (map trim pieces)) = Some cs
    /\ boundary_whitespace cs (concat pieces) /\ Forall (good_chunk MAX_CHUNK_LENGTH) cs.
Proof.
  induction pieces as [|p pieces (cs & E & Hbw & Hgood)]; simpl.
  - exists []. repeat split; constructor. constructor.
  - destruct (trim_spec p) as (w1 & w2 & Ep & H1 & H2).
    destruct (decide (0 < jslength (trim p))) as [Hne|Hem].
    + rewrite filter_cons_True by done. simpl.
      destruct (chunksOfSentence_spec (trim p)) as (cs0 & E0 & Hcat & Hg0).
      { intros Ht. rewrite Ht in Hne. unfold jslength in Hne. simpl in Hne. lia. }
      rewrite E0, E. simpl. exists (cs0 ++ cs). repeat split.
      * rewrite Ep, <- !app_assoc. apply bw_prepend; [exact H1|].
        rewrite <- Hcat. apply bw_concat. by apply bw_prepend.
      * by apply Forall_app.
    + rewrite filter_cons_False by done. exists cs. repeat split; [exact E| |exact Hgood].
      apply bw_prepend; [|exact Hbw].
      apply trim_empty_whitespace.
      destruct (trim p); [reflexivity|]. unfold jslength in Hem. simpl in Hem. lia.
Qed.

End ChunkerFacts.

Lemma filter_trim_nil pieces :
  filter (fun sentence => 0 < jslength sentence) (map trim pieces) = [] ->
  all_whitespace (concat pieces).
Proof.
  induction pieces as [|p pieces IH]; simpl; [constructor|].
  destruct (decide (0 < jslength (trim p))) as [Hne|Hem].
  - rewrite filter_cons_True by done. discriminate.
  - rewrite filter_cons_False by done. intros H. apply Forall_app. split; [|by apply IH].
    apply trim_empty_whitespace.
    destruct (trim p); [reflexivity|]. unfold jslength in Hem. simpl in Hem. lia.
Qed.

(** The fallback [return [text.trim()]] is never taken: the pieces add up
    to the text, so when all of them are blank the text is blank. *)
Lemma splitTextIntoSentences_eq text :
  splitTextIntoSentences text
  = filter (fun sentence => 0 < jslength sentence)
           (map trim (split_after_terminator text)).
Proof.
  unfold splitTextIntoSentences.
  case_bool_decide as Hn; simpl; [|reflexivity].
  destruct (filter _ _) eqn:E; [|discriminate].
  apply filter_trim_nil in E. rewrite split_concat in E.
  by rewrite (trim_whitespace text E).
Qed.

Lemma whitespace_pieces pieces :
  all_whitespace (concat pieces) ->
  filter (fun sentence => 0 < jslength sentence) (map trim pieces) = [].
Proof.
  induction pieces as [|p pieces IH]; simpl; [reflexivity|].
  intros H. apply Forall_app in H as [Hp Hr].
  rewrite filter_cons_False; [by apply IH|].
  rewrite (trim_whitespace p Hp). unfold jslength. simpl. lia.
Qed.

Lemma sentences_last_only text sentence :
  sentence ∈ splitTextIntoSentences text -> last_only sentence /\ sentence <> [].
Proof.
  rewrite splitTextIntoSentences_eq. intros H.
  apply list_elem_of_filter in H as [Hne H].
  apply list_elem_of_fmap in H as (p & -> & Hp). split.
  - pose proof (split_last_only text) as Hall.
    rewrite Forall_forall in Hall. specialize (Hall p Hp).
    destruct (trim_spec p) as (w1 & w2 & Ep & _ & _).
    rewrite Ep in Hall. by apply last_only_middle in Hall.
  - intros E. rewrite E in Hne. unfold jslength in Hne. simpl in Hne. lia.
Qed.

Lemma last_only_drop n s : last_only s -> last_only (drop n s).
Proof.
  intros H. apply (last_only_middle (take n s) (drop n s) []).
  by rewrite app_nil_r, take_drop.
Qed.

Section CutAgreement.

Variable MAX_CHUNK_LENGTH : Z.
Hypothesis MAX_positive : 1 <= MAX_CHUNK_LENGTH.

Lemma spec_scanBack_Some fuel s j j' :
  spec_scanBack MAX_CHUNK_LENGTH fuel s j = Some j' ->
  j' <= j /\ MAX_CHUNK_LENGTH < 2 * j'
  /\ exists c, charAt s (j' - 1) = [c] /\ is_terminator c = true.
Proof.
  revert j. induction fuel as [|fuel IH]; intros j; simpl;
    (destruct (MAX_CHUNK_LENGTH <? 2 * j) eqn:E; [|discriminate]);
    apply Z.ltb_lt in E;
    destruct (charAt s (j - 1)) as [|c [|? ?]] eqn:Ec; try discriminate;
    try (destruct (is_terminator c) eqn:Et; try discriminate);
    try (intros [= <-]; repeat split; [lia|lia|by exists c]);
    intros Hs; apply IH in Hs; destruct Hs as (? & ? & ?);
    (repeat split; [lia|lia|assumption]).
Qed.

Lemma spec_cut_same s :
  last_only s ->
  let e := Z.to_nat (chunkEndOf MAX_CHUNK_LENGTH s) in
  let cut := Z.to_nat (spec_cutAt MAX_CHUNK_LENGTH s) in
  take cut s = take e s /\ drop cut s = drop e s.
Proof.
  intros Hs e cut. unfold e, cut. rewrite (chunkEndOf_last_only _ s Hs).
  unfold spec_cutAt.
  destruct (spec_scanBack _ _ _ _) as [j'|] eqn:E; simpl.
  - apply spec_scanBack_Some in E as (Hle & Hmid & c & Hc & Ht).
    apply charAt_Some in Hc as [H0 Hc].
    pose proof (Hs _ _ Hc Ht) as Hlast.
    replace (Z.min (jslength s) MAX_CHUNK_LENGTH) with j'
      by (unfold jslength; lia).
    by split.
  - destruct (Z.le_gt_cases (jslength s) MAX_CHUNK_LENGTH) as [Hsmall|Hbig].
    + rewrite Z.min_l by lia. unfold jslength in *.
      rewrite !take_ge, !drop_ge by lia. by split.
    + rewrite Z.min_r by lia. by split.
Qed.

Lemma cut_agree fuel s :
  last_only s ->
  cutLoop MAX_CHUNK_LENGTH fuel s = spec_cutLoop MAX_CHUNK_LENGTH fuel s.
Proof.
  revert s. induction fuel as [|fuel IH]; intros s Hs.
  - destruct s; reflexivity.
  - destruct s as [|c s]; [reflexivity|].
    set (r := c :: s) in *.
    assert (Hr : r <> []) by done.
    pose proof (chunkEndOf_bounds _ MAX_positive r Hr) as Hb.
    destruct (spec_cut_same r Hs) as [Etake Edrop].
    change (cutLoop MAX_CHUNK_LENGTH (S fuel) r) with
      (if (0 <? jslength r) then
         (rest ← cutLoop MAX_CHUNK_LENGTH fuel
                   (substring r (chunkEndOf MAX_CHUNK_LENGTH r) None);
          Some (substring r 0 (Some (chunkEndOf MAX_CHUNK_LENGTH r)) :: rest))
       else Some []).
    assert (Hpos : (0 <? jslength r) = true).
    { apply Z.ltb_lt. unfold jslength, r. simpl. lia. }
    rewrite Hpos, substring_take, substring_drop by lia.
    unfold r at 1. cbn [spec_cutLoop]. fold r.
    rewrite Etake, Edrop, IH by (by apply last_only_drop). reflexivity.
Qed.

End CutAgreement.

(** ** The chunker *)

Lemma allChunks_good MAX_CHUNK_LENGTH text :
  1 <= MAX_CHUNK_LENGTH ->
  exists chunks,
    allChunks MAX_CHUNK_LENGTH text = Some chunks
    /\ boundary_whitespace chunks text
    /\ Forall (good_chunk MAX_CHUNK_LENGTH) chunks.
Proof.
  intros HM. unfold allChunks. rewrite splitTextIntoSentences_eq.
  destruct (chunk_pieces MAX_CHUNK_LENGTH HM (split_after_terminator text))
    as (cs & E & Hbw & Hgood).
  exists cs. rewrite split_concat in Hbw. by repeat split.
Qed.

(** C3: the chunks are the text in order, up to whitespace at the chunk
    boundaries; no chunk is longer than [MAX_CHUNK_LENGTH] (in no case at
    all, so in particular outside the exception the specification allows); a blank
    text gives no chunk.  [MAX_CHUNK_LENGTH] is taken to be a positive
    length. *)
Theorem allChunks_reconstructs (MAX_CHUNK_LENGTH : Z) (text : jsstring) :
  1 <= MAX_CHUNK_LENGTH ->
  exists chunks,
    allChunks MAX_CHUNK_LENGTH text = Some chunks
    /\ boundary_whitespace chunks text
    /\ Forall (fun c => jslength c <= MAX_CHUNK_LENGTH) chunks
    /\ (all_whitespace text -> chunks = []).
Proof.
  intros HM. unfold allChunks. rewrite splitTextIntoSentences_eq.
  destruct (chunk_pieces MAX_CHUNK_LENGTH HM (split_after_terminator text))
    as (cs & E & Hbw & Hgood).
  exists cs. rewrite split_concat in Hbw. repeat split; try assumption.
  - eapply Forall_impl; [exact Hgood|]. by intros c [_ Hc].
  - intros Hws. rewrite <- (split_concat text) in Hws.
    apply whitespace_pieces in Hws. rewrite Hws in E. simpl in E. congruence.
Qed.

(** C7: a sentence longer than [MAX_CHUNK_LENGTH] is cut by the code
    exactly as the worded procedure cuts it. *)
Theorem long_sentence_cut (MAX_CHUNK_LENGTH : Z) (text sentence : jsstring) :
  1 <= MAX_CHUNK_LENGTH ->
  sentence ∈ splitTextIntoSentences text ->
  MAX_CHUNK_LENGTH < jslength sentence ->
  exists chunks,
    chunksOfSentence MAX_CHUNK_LENGTH sentence = Some chunks
    /\ spec_cutLoop MAX_CHUNK_LENGTH (length sentence) sentence = Some chunks.
Proof.
  intros HM Hin Hlong. apply sentences_last_only in Hin as [Hlast Hne].
  unfold chunksOfSentence. apply Z.ltb_lt in Hlong. rewrite Hlong.
  destruct (cutLoop_spec MAX_CHUNK_LENGTH HM (length sentence) sentence)
    as (cs & E & _); [lia|].
  exists cs. split; [exact E|]. by rewrite <- cut_agree.
Qed.

(** ** The descriptor override *)


(** ** Running the monad *)

Lemma bind_Some {A B} (m : M A) (f : A -> M B) w b w2 evs :
  bind m f w = Some (b, w2, evs) <->
  exists a w1 e1 e2,
    m w = Some (a, w1, e1) /\ f a w1 = Some (b, w2, e2) /\ evs = e1 ++ e2.
Proof.
  unfold bind. split.
  - destruct (m w) as [[[a w1] e1]|]; [|discriminate].
    destruct (f a w1) as [[[b' w2'] e2]|] eqn:Ef; [|discriminate].
    intros [= <- <- <-]. by exists a, w1, e1, e2.
  - intros (a & w1 & e1 & e2 & -> & -> & ->). reflexivity.
Qed.

Lemma ret_Some {A} (a : A) w b w' evs :
  ret a w = Some (b, w', evs) <-> b = a /\ w' = w /\ evs = [].
Proof. unfold ret. split; [by intros [= <- <- <-]|by intros (-> & -> & ->)]. Qed.

Lemma get_Some w b w' evs :
  get w = Some (b, w', evs) <-> b = w /\ w' = w /\ evs = [].
Proof. unfold get. split; [by intros [= <- <- <-]|by intros (-> & -> & ->)]. Qed.

Lemma modify_Some f w b w' evs :
  modify f w = Some (b, w', evs) <-> w' = f w /\ evs = [].
Proof.
  unfold modify. split; [by intros [= <- <-]|intros (-> & ->); by destruct b].
Qed.

Lemma emit_Some e w b w' evs :
  emit e w = Some (b, w', evs) <-> w' = w /\ evs = [e].
Proof.
  unfold emit. split; [by intros [= <- <-]|intros (-> & ->); by destruct b].
Qed.

(** Take a terminated run apart, one bind at a time. *)
Ltac minv1 :=
  match goal with
  | H : bind _ _ _ = Some _ |- _ =>
      apply bind_Some in H; destruct H as (? & ? & ? & ? & ? & H & ?)
  | H : ret _ _ = Some _ |- _ => apply ret_Some in H; destruct H as (? & ? & ?)
  | H : get _ = Some _ |- _ => apply get_Some in H; destruct H as (? & ? & ?)
  | H : modify _ _ = Some _ |- _ => apply modify_Some in H; destruct H as (? & ?)
  | H : emit _ _ = Some _ |- _ => apply emit_Some in H; destruct H as (? & ?)
  | H : diverge _ = Some _ |- _ => discriminate H
  | H : updatePlayState _ _ = Some _ |- _ => unfold updatePlayState in H
  | H : checkPlayState _ = Some _ |- _ => unfold checkPlayState in H
  end.

Ltac minv := repeat (minv1; subst).

(** The same, also splitting on the tests the run went through. *)
Ltac msplit :=
  match goal with
  | H : (if ?c then _ else _) _ = Some _ |- _ => destruct c eqn:?
  | H : (match ?x with _ => _ end) _ = Some _ |- _ => destruct x eqn:?
  end.

Ltac mrun := repeat first [minv1; subst | msplit]; simpl in *.

Section Respects.

Variable T : World -> World -> list Event -> Prop.
Hypothesis T_refl : forall w, T w w [].
Hypothesis T_trans :
  forall w1 w2 w3 e1 e2, T w1 w2 e1 -> T w2 w3 e2 -> T w1 w3 (e1 ++ e2).

Lemma respects_ret {A} (a : A) : respects T (ret a).
Proof. intros w b w' evs H. minv. apply T_refl. Qed.

Lemma respects_get : respects T get.
Proof. intros w b w' evs H. minv. apply T_refl. Qed.

Lemma respects_check : respects T checkPlayState.
Proof. intros w b w' evs H. minv. apply T_refl. Qed.

Lemma respects_diverge {A} : respects T (@diverge A).
Proof. intros w b w' evs H. discriminate. Qed.

Lemma respects_bind {A B} (m : M A) (f : A -> M B) :
  respects T m -> (forall a, respects T (f a)) -> respects T (bind m f).
Proof.
  intros Hm Hf w b w' evs H. minv. eapply T_trans; [eapply Hm|eapply Hf]; eauto.
Qed.

Lemma respects_forEachM {A} (f : A -> M unit) l :
  (forall a, respects T (f a)) -> respects T (forEachM f l).
Proof.
  intros Hf. induction l as [|a l IH]; simpl.
  - apply respects_ret.
  - apply respects_bind; [apply Hf|intros _; exact IH].
Qed.

Lemma respects_mapM {A B} (f : A -> M B) l :
  (forall a, respects T (f a)) -> respects T (mapM f l).
Proof.
  intros Hf. induction l as [|a l IH]; simpl.
  - apply respects_ret.
  - apply respects_bind; [apply Hf|intros b].
    apply respects_bind; [exact IH|intros bs; apply respects_ret].
Qed.

End Respects.

(** Split a goal [respects T m] along the structure of [m]. *)
Ltac respects_step T_refl T_trans :=
  lazymatch goal with
  | |- respects _ (ret _) => apply (respects_ret _ T_refl)
  | |- respects _ get => apply (respects_get _ T_refl)
  | |- respects _ checkPlayState => apply (respects_check _ T_refl)
  | |- respects _ diverge => apply respects_diverge
  | |- respects _ (bind _ _) =>
      apply (respects_bind _ T_trans); [|intros ?]
  | |- respects _ (if ?c then _ else _) => destruct c eqn:?
  | |- respects _ (match ?x with _ => _ end) => destruct x eqn:?
  | |- respects _ (let (_, _) := ?x in _) => destruct x eqn:?
  end.

Section SchedulerRespects.

Variable env : Env.
Variable T : World -> World -> list Event -> Prop.
Hypothesis T_refl : forall w, T w w [].
Hypothesis T_trans :
  forall w1 w2 w3 e1 e2, T w1 w2 e1 -> T w2 w3 e2 -> T w1 w3 (e1 ++ e2).
Hypothesis synth_respects :
  forall o t s, respects T (synthesizeSentence env o t s).
Hypothesis play_respects : forall f, respects T (playAudio env f).

Lemma steadyLoop_respects fuel chunks speaker p buf ci he :
  respects T (steadyLoop env fuel chunks speaker p buf ci he).
Proof.
  revert p buf ci he. induction fuel as [|fuel IH]; intros p buf ci he; simpl.
  - repeat (respects_step T_refl T_trans).
  - repeat first [apply IH | apply play_respects | apply synth_respects
                 | respects_step T_refl T_trans].
Qed.

Lemma sequentialLoop_respects fuel chunks speaker buffered ci he :
  respects T (sequentialLoop env fuel chunks speaker buffered ci he).
Proof.
  revert ci he. induction fuel as [|fuel IH]; intros ci he; simpl.
  - repeat first [apply synth_respects | respects_step T_refl T_trans].
  - repeat first [apply IH | apply play_respects | apply synth_respects
                 | respects_step T_refl T_trans].
Qed.

Lemma processChunksParallel_respects chunks speaker :
  respects T (processChunksParallel env chunks speaker).
Proof.
  unfold processChunksParallel, playAudioFile.
  repeat first [apply steadyLoop_respects | apply sequentialLoop_respects
               | apply play_respects | apply synth_respects
               | apply (respects_mapM _ T_refl T_trans); intros ?
               | respects_step T_refl T_trans].
Qed.

Lemma textToSpeech_respects MAX_CHUNK_LENGTH text speaker :
  respects T (textToSpeech env MAX_CHUNK_LENGTH text speaker).
Proof.
  unfold textToSpeech.
  repeat first [apply processChunksParallel_respects
               | respects_step T_refl T_trans].
Qed.

End SchedulerRespects.

(** ** The program returns *)

Lemma returns_ret {A} (P : A -> Prop) a : P a -> returns P (ret a).
Proof. intros Ha w. by exists a, w, []. Qed.

Lemma returns_bind {A B} (P : A -> Prop) (Q : B -> Prop) (m : M A) (f : A -> M B) :
  returns P m -> (forall a, P a -> returns Q (f a)) -> returns Q (bind m f).
Proof.
  intros Hm Hf w. destruct (Hm w) as (a & w1 & e1 & Em & Ha).
  destruct (Hf a Ha w1) as (b & w2 & e2 & Ef & Hb).
  exists b, w2, (e1 ++ e2). split; [|exact Hb]. apply bind_Some. by exists a, w1, e1, e2.
Qed.

Lemma returns_weaken {A} (P Q : A -> Prop) (m : M A) :
  returns P m -> (forall a, P a -> Q a) -> returns Q m.
Proof.
  intros Hm HPQ w. destruct (Hm w) as (a & w' & evs & E & Ha). exists a, w', evs. auto.
Qed.

Lemma total_bind {A B} (m : M A) (f : A -> M B) :
  total m -> (forall a, total (f a)) -> total (bind m f).
Proof. intros Hm Hf. eapply returns_bind; [exact Hm|]. intros a _. apply Hf. Qed.

Lemma total_get : total get.
Proof. intros w. by exists w, w, []. Qed.

Lemma total_modify f : total (modify f).
Proof. intros w. by exists tt, (f w), []. Qed.

Lemma total_emit e : total (emit e).
Proof. intros w. by exists tt, w, [e]. Qed.

Lemma total_forEachM {A} (f : A -> M unit) l :
  (forall a, total (f a)) -> total (forEachM f l).
Proof.
  intros Hf. induction l as [|a l IH]; simpl.
  - by apply returns_ret.
  - apply total_bind; [apply Hf|intros _; exact IH].
Qed.

Lemma total_mapM {A B} (f : A -> M B) l :
  (forall a, total (f a)) -> total (mapM f l).
Proof.
  intros Hf. induction l as [|a l IH]; simpl.
  - by apply returns_ret.
  - apply total_bind; [apply Hf|intros b].
    apply total_bind; [exact IH|intros bs; by apply returns_ret].
Qed.

Lemma returns_mapM_length {A B} (f : A -> M B) l :
  (forall a, total (f a)) -> returns (fun bs => length bs = length l) (mapM f l).
Proof.
  intros Hf. induction l as [|a l IH]; simpl.
  - by apply returns_ret.
  - eapply returns_bind; [apply Hf|intros b _].
    eapply returns_bind; [exact IH|intros bs Hbs].
    apply returns_ret. simpl. by rewrite Hbs.
Qed.

Ltac total_step :=
  lazymatch goal with
  | |- returns _ (ret _) => by apply returns_ret
  | |- returns _ get => apply total_get
  | |- returns _ checkPlayState => unfold checkPlayState
  | |- returns _ (updatePlayState _) => apply total_modify
  | |- returns _ (modify _) => apply total_modify
  | |- returns _ (emit _) => apply total_emit
  | |- returns _ (bind _ _) => apply total_bind; [|intros ?]
  | |- returns _ (forEachM _ _) => apply total_forEachM; intros ?
  | |- returns _ (mapM _ _) => apply total_mapM; intros ?
  | |- returns _ (if ?c then _ else _) => destruct c eqn:?
  | |- returns _ (match ?x with _ => _ end) => destruct x eqn:?
  end.

Section Totality.

Variable env : Env.

Lemma total_stopAudio : total stopAudio.
Proof. unfold stopAudio. repeat total_step. Qed.

Lemma total_serve r : total (serve r).
Proof.
  unfold serve, queuePush.
  repeat first [apply total_stopAudio | total_step].
Qed.

Lemma total_io_wait : total (io_wait env).
Proof. unfold io_wait. repeat first [apply total_serve | total_step]. Qed.

Lemma total_synthesizeSentence o t s : total (synthesizeSentence env o t s).
Proof.
  unfold synthesizeSentence. repeat first [apply total_io_wait | total_step].
Qed.

Lemma total_unlinkSync p : total (unlinkSync p).
Proof. unfold unlinkSync. repeat total_step. Qed.

Lemma total_playAudio f : total (playAudio env f).
Proof.
  unfold playAudio, initialize.
  repeat first [apply total_io_wait | apply total_unlinkSync | total_step].
Qed.

Lemma total_steadyLoop fuel chunks speaker p buf ci he :
  (steady_measure (length chunks) p (length buf) ci <= fuel)%nat ->
  total (steadyLoop env fuel chunks speaker p buf ci he).
Proof.
  revert p buf ci he. induction fuel as [|fuel IH]; intros p buf ci he Hm.
  - simpl. destruct (buf !! p) eqn:Ep; [|by apply returns_ret].
    apply lookup_lt_Some in Ep. unfold steady_measure in Hm. lia.
  - simpl. destruct (buf !! p) eqn:Ep; [|by apply returns_ret].
    apply lookup_lt_Some in Ep. unfold steady_measure in Hm.
    apply total_bind; [repeat total_step|intros playing].
    destruct playing; [|by apply returns_ret].
    destruct (tempFile s) as [file|]; [|by apply returns_ret].
    apply total_bind; [apply total_playAudio|intros playResult].
    destruct (ci + length buf <? length chunks)%nat eqn:En.
    + apply Nat.ltb_lt in En.
      apply total_bind.
      { apply total_bind; [apply total_synthesizeSentence|].
        intros r. by apply returns_ret. }
      intros [r|]; [destruct (usable r)|]; apply IH;
        unfold steady_measure; rewrite ?length_app; simpl; lia.
    + apply Nat.ltb_ge in En.
      eapply returns_bind with (P := fun a => a = None).
      { by apply returns_ret. }
      intros a ->. apply IH. unfold steady_measure. lia.
Qed.

Lemma total_sequentialLoop fuel chunks speaker buffered ci he :
  (length chunks - (ci + buffered) <= fuel)%nat ->
  total (sequentialLoop env fuel chunks speaker buffered ci he).
Proof.
  revert ci he. induction fuel as [|fuel IH]; intros ci he Hm; simpl.
  - destruct (ci + buffered <? length chunks)%nat eqn:En; [|by apply returns_ret].
    apply Nat.ltb_lt in En. lia.
  - destruct (ci + buffered <? length chunks)%nat eqn:En; [|by apply returns_ret].
    apply Nat.ltb_lt in En.
    repeat first [apply IH; lia | apply total_synthesizeSentence
                 | apply total_playAudio | total_step].
Qed.

(** The scheduler returns on every chunk array, whatever the engine, the
    player and the tool calls do. *)
Lemma total_processChunksParallel chunks speaker :
  total (processChunksParallel env chunks speaker).
Proof.
  unfold processChunksParallel.
  case_bool_decide as Hn; [by apply returns_ret|].
  apply total_bind; [apply total_synthesizeSentence|intros r0].
  destruct (usable r0) as [file|]; [|by apply returns_ret].
  eapply returns_bind.
  { apply returns_mapM_length. intros i. apply total_synthesizeSentence. }
  intros results Hlen. rewrite length_seq in Hlen.
  apply total_bind; [apply total_playAudio|intros playResult].
  apply total_bind.
  { apply total_steadyLoop. unfold steady_measure.
    pose proof (length_filter (fun r => success r = true) results).
    unfold MAX_PARALLEL in Hlen. lia. }
  intros [[buf ci] he].
  apply total_bind; [|intros ?; by apply returns_ret].
  apply total_sequentialLoop. lia.
Qed.

End Totality.

(** ** What a wait for I/O can change *)

Lemma arrivals_frame_refl w : arrivals_frame w w [].
Proof. unfold arrivals_frame. repeat split; auto. Qed.

Lemma arrivals_frame_trans w1 w2 w3 e1 e2 :
  arrivals_frame w1 w2 e1 -> arrivals_frame w2 w3 e2 ->
  arrivals_frame w1 w3 (e1 ++ e2).
Proof.
  unfold arrivals_frame.
  intros (?&?&?&?&?&?&?&?&?&?) (?&?&?&?&?&?&?&?&?&?).
  repeat split; try congruence; try lia; auto.
  - intros Hp. assert (isProcessing w2 = true) by congruence.
    transitivity (reentered w2); auto.
  - by apply Forall_app.
Qed.

Lemma serve_frame r : respects arrivals_frame (serve r).
Proof.
  intros w a w' evs H. destruct r as [[|d ds]|]; simpl in H.
  - minv. apply arrivals_frame_refl.
  - unfold queuePush in H. minv.
    destruct (isProcessing _) eqn:Ep in H; minv; simpl in *;
      unfold arrivals_frame; simpl; repeat split; auto;
      try (intros; congruence); repeat constructor.
  - unfold stopAudio in H. minv. unfold arrivals_frame; simpl.
    repeat split; auto; repeat constructor.
Qed.

Lemma io_wait_frame env : respects arrivals_frame (io_wait env).
Proof.
  intros w a w' evs H. unfold io_wait in H. minv.
  match goal with H : forEachM _ _ _ = Some _ |- _ =>
    apply (respects_forEachM _ arrivals_frame_refl arrivals_frame_trans) in H;
    [|apply serve_frame] end.
  simpl. eapply (arrivals_frame_trans _ _ _ [] _); [|eassumption].
  unfold arrivals_frame; simpl. repeat split; auto.
Qed.

(** ** The playback sink *)

Section PlaybackSink.

Variable env : Env.

(** Not authorised: the file is gone, nothing is run, failure. *)
Lemma playAudio_refused tempFile w :
  isPlayingAudio w = false ->
  exists w' evs,
    playAudio env tempFile w = Some (false, w', evs)
    /\ Forall (fun e => is_exec e = false) evs
    /\ (path tempFile ∉ files w')
    /\ isPlayingAudio w' = false
    /\ playCalls w' = playCalls w.
Proof.
  intros Hflag. unfold playAudio, initialize, unlinkSync, checkPlayState,
    updatePlayState, bind, get, modify, emit, ret.
  destruct (initialized w) eqn:Ei; simpl; rewrite ?Ei; simpl; rewrite ?Hflag; simpl;
    case_bool_decide as Hin; simpl; eexists _, _;
    (split; [reflexivity|]); simpl; repeat split; auto;
    try (repeat constructor; fail).
  all: rewrite list_elem_of_filter; tauto.
Qed.

(** Authorised: the platform command is run, and its failure is reported
    as failure; after a command that succeeded the file is gone. *)
Lemma playAudio_authorised tempFile w :
  initialized w = true -> isPlayingAudio w = true ->
  exists r w' evs,
    playAudio env tempFile w = Some (r, w', evs)
    /\ EvExec tempFile ∈ evs
    /\ (player env (playCalls w) = false -> r = false)
    /\ (player env (playCalls w) = true -> path tempFile ∉ files w').
Proof.
  intros Hi Hflag.
  destruct (total_playAudio env tempFile w) as (r & w' & evs & E & _).
  exists r, w', evs. split; [exact E|].
  unfold playAudio in E. minv. rewrite Hi in *. minv.
  simpl in *. rewrite Hflag in *. simpl in *. minv.
  match goal with H : io_wait _ _ = Some _ |- _ => apply io_wait_frame in H;
    destruct H as (Hf & _) end.
  simpl in *.
  destruct (player env (playCalls _)) eqn:Ep; minv.
  - unfold unlinkSync in *. minv. split; [set_solver|]. split; [done|]. intros _.
    match goal with H : (if bool_decide _ then _ else _) _ = Some _ |- _ =>
      case_bool_decide as Hin; minv; simpl end.
    + rewrite list_elem_of_filter; tauto.
    + exact Hin.
  - split; [set_solver|]. by split.
Qed.

(** C5, where the code departs from it: after a platform command that
    failed, [playAudio] returns failure and the audio file is still on
    disk; only the other two outcomes release it. *)
Theorem playAudio_command_failure_keeps_file tempFile w :
  initialized w = true -> isPlayingAudio w = true ->
  player env (playCalls w) = false ->
  path tempFile ∈ files w ->
  exists w' evs,
    playAudio env tempFile w = Some (false, w', evs)
    /\ path tempFile ∈ files w'.
Proof.
  intros Hi Hflag Hp Hin.
  destruct (total_playAudio env tempFile w) as (r & w' & evs & E & _).
  pose proof E as E'.
  unfold playAudio in E. minv. rewrite Hi in *. minv.
  simpl in *. rewrite Hflag in *. simpl in *. minv.
  rewrite Hp in *. minv.
  match goal with H : io_wait _ _ = Some _ |- _ => apply io_wait_frame in H;
    destruct H as (Hf & _) end.
  simpl in *. eexists _, _. split; [exact E'|]. by rewrite Hf.
Qed.

End PlaybackSink.

(** ** The engine call and the playback call keep what their parts keep *)

Lemma T_chain (T : World -> World -> list Event -> Prop)
    (T_trans : forall w1 w2 w3 e1 e2, T w1 w2 e1 -> T w2 w3 e2 -> T w1 w3 (e1 ++ e2))
    w1 w2 w3 e1 e2 e :
  T w1 w2 e1 -> T w2 w3 e2 -> e = e1 ++ e2 -> T w1 w3 e.
Proof. intros H1 H2 ->. by eapply T_trans. Qed.

Lemma T_chain_nil (T : World -> World -> list Event -> Prop)
    (T_trans : forall w1 w2 w3 e1 e2, T w1 w2 e1 -> T w2 w3 e2 -> T w1 w3 (e1 ++ e2))
    w1 w2 w3 e :
  T w1 w2 [] -> T w2 w3 e -> T w1 w3 e.
Proof. intros H1 H2. by apply (T_trans w1 w2 w3 [] e). Qed.

Section Primitives.

Variable env : Env.
Variable T : World -> World -> list Event -> Prop.
Hypothesis T_refl : forall w, T w w [].
Hypothesis T_trans :
  forall w1 w2 w3 e1 e2, T w1 w2 e1 -> T w2 w3 e2 -> T w1 w3 (e1 ++ e2).
Hypothesis T_quiet : forall w w' evs, quiet_step w w' evs -> T w w' evs.
Hypothesis T_initialize : respects T initialize.
Hypothesis T_exec :
  forall w f, isPlayingAudio w = true -> T w w [EvExec f].

Lemma io_wait_from_serve :
  (forall r, respects T (serve r)) ->
  (forall w n, T w (set_awaits n w) []) ->
  respects T (io_wait env).
Proof.
  intros Hserve Hbump w a w' evs H. unfold io_wait in H. minv.
  match goal with H : forEachM _ _ _ = Some _ |- _ =>
    apply (respects_forEachM _ T_refl T_trans) in H; [|exact Hserve] end.
  simpl. eapply (T_chain T T_trans); [apply Hbump|eassumption|reflexivity].
Qed.

Hypothesis T_io_wait : respects T (io_wait env).

Lemma unlinkSync_quiet p w a w' evs :
  unlinkSync p w = Some (a, w', evs) -> quiet_step w w' evs.
Proof.
  unfold unlinkSync. intros H. minv.
  case_bool_decide; minv; unfold quiet_step; simpl; repeat split; auto.
Qed.

Lemma synthesizeSentence_respects o t s :
  respects T (synthesizeSentence env o t s).
Proof.
  intros w a w' evs H. unfold synthesizeSentence in H. minv.
  match goal with H : io_wait _ _ = Some _ |- _ => apply T_io_wait in H end.
  simpl. eapply (T_chain_nil T T_trans); cycle 1.
  - eapply T_trans; [eassumption|].
    destruct (engine env _ _ _); minv; simpl; apply T_quiet;
      unfold quiet_step; simpl; repeat split; auto.
  - apply T_quiet. unfold quiet_step; simpl. repeat split; auto.
Qed.

Lemma playAudio_respects f : respects T (playAudio env f).
Proof.
  intros w a w' evs H. unfold playAudio in H.
  apply bind_Some in H as (w0 & ? & ? & ? & Hget & H & ->).
  apply get_Some in Hget as (-> & -> & ->). simpl.
  apply bind_Some in H as ([] & w1 & e1 & ? & Hinit & H & ->).
  assert (Tinit : T w w1 e1).
  { destruct (initialized w); [minv; apply T_refl|by apply T_initialize in Hinit]. }
  eapply T_trans; [exact Tinit|].
  minv. destruct (isPlayingAudio _) eqn:Eflag; simpl in *; minv.
  - match goal with H : io_wait _ _ = Some _ |- _ => apply T_io_wait in H end.
    simpl.
    change (EvExec f :: ?l) with ([EvExec f] ++ l).
    eapply T_trans; [apply (T_exec _ f); eassumption|].
    eapply (T_chain_nil T T_trans); cycle 1.
    + eapply T_trans; [eassumption|].
      destruct (player env _); minv; simpl.
      * rewrite app_nil_r. apply T_quiet. by eapply unlinkSync_quiet.
      * apply T_refl.
    + apply T_quiet. unfold quiet_step; simpl; repeat split; auto.
  - rewrite app_nil_r. apply T_quiet. by eapply unlinkSync_quiet.
Qed.

End Primitives.

(** ** Cancellation *)

Lemma app_eq_app_cons {A} (e1 e2 pre post : list A) x :
  e1 ++ e2 = pre ++ x :: post ->
  (exists post1, e1 = pre ++ x :: post1 /\ post = post1 ++ e2)
  \/ (exists pre2, pre = e1 ++ pre2 /\ e2 = pre2 ++ x :: post).
Proof.
  revert pre. induction e1 as [|a e1 IH]; intros pre H; simpl in *.
  - right. by exists pre.
  - destruct pre as [|b pre]; simpl in *.
    + injection H as -> <-. left. by exists e1.
    + injection H as -> H. destruct (IH pre H) as [(p1 & -> & ->)|(p2 & -> & ->)].
      * left. by exists p1.
      * right. by exists p2.
Qed.

Lemma cancel_safe_refl w : cancel_safe w w [].
Proof.
  repeat split; auto.
  - constructor.
  - intros H. by apply elem_of_nil in H.
  - intros [|? ?] post H; discriminate.
Qed.

Lemma cancel_safe_trans w1 w2 w3 e1 e2 :
  cancel_safe w1 w2 e1 -> cancel_safe w2 w3 e2 -> cancel_safe w1 w3 (e1 ++ e2).
Proof.
  intros (A1 & B1 & C1) (A2 & B2 & C2). repeat split.
  - apply A2. apply A1. assumption.
  - apply Forall_app. split; [apply A1; assumption|]. apply A2, A1. assumption.
  - intros H. apply elem_of_app in H as [H|H]; [|apply B2; assumption].
    apply A2, B1. assumption.
  - intros pre post H.
    apply app_eq_app_cons in H as [(p1 & -> & ->)|(p2 & -> & ->)].
    + apply Forall_app. split; [by eapply C1|].
      apply A2, B1. apply elem_of_app. right. apply elem_of_cons. by left.
    + by eapply C2.
Qed.

Lemma no_stop_safe w w' evs :
  isPlayingAudio w' = isPlayingAudio w -> no_exec evs -> EvStop ∉ evs ->
  cancel_safe w w' evs.
Proof.
  intros Hflag Hne Hns. repeat split.
  - congruence.
  - exact Hne.
  - intros H. by destruct Hns.
  - intros pre post ->. destruct Hns. set_solver.
Qed.

Lemma cancel_safe_quiet w w' evs : quiet_step w w' evs -> cancel_safe w w' evs.
Proof.
  intros (Hflag & _ & _ & _ & _ & _ & _ & Hevs). apply no_stop_safe; [done| |].
  - eapply Forall_impl; [exact Hevs|]. by intros [].
  - intros Hin. rewrite Forall_forall in Hevs. by apply Hevs in Hin.
Qed.

Lemma cancel_safe_initialize : respects cancel_safe initialize.
Proof.
  intros w a w' evs H. unfold initialize in H. minv.
  destruct (initialized w); minv; simpl; repeat split; auto; try constructor;
    try (intros Hin; by apply elem_of_nil in Hin);
    try (intros [|? ?] post Hp; discriminate).
Qed.

Lemma cancel_safe_exec w f : isPlayingAudio w = true -> cancel_safe w w [EvExec f].
Proof.
  intros Hflag. repeat split; try congruence.
  - intros Hin. apply list_elem_of_singleton in Hin. discriminate.
  - intros [|? [|? ?]] post Hp; discriminate.
Qed.

Lemma cancel_safe_serve r : respects cancel_safe (serve r).
Proof.
  intros w a w' evs H. destruct r as [[|d ds]|]; simpl in H.
  - minv. apply cancel_safe_refl.
  - unfold queuePush in H. minv.
    destruct (isProcessing _) in H; minv; simpl;
      (apply no_stop_safe; [done|by repeat constructor|]);
      intros Hin; apply list_elem_of_singleton in Hin; discriminate.
  - unfold stopAudio in H. minv. simpl. repeat split; auto.
    + repeat constructor.
    + intros [|? [|? ?]] post Hp; try discriminate.
      injection Hp as <-. constructor.
Qed.

Lemma cancel_safe_io_wait env : respects cancel_safe (io_wait env).
Proof.
  apply (io_wait_from_serve env _ cancel_safe_refl cancel_safe_trans).
  - apply cancel_safe_serve.
  - intros w n. apply no_stop_safe; [done|constructor|]. apply not_elem_of_nil.
Qed.

Ltac cancel_safe_parts :=
  first [exact cancel_safe_refl | exact cancel_safe_trans
        | exact cancel_safe_quiet | exact (cancel_safe_io_wait _)
        | exact cancel_safe_initialize | exact cancel_safe_exec].

Lemma cancel_safe_synthesizeSentence env o t s :
  respects cancel_safe (synthesizeSentence env o t s).
Proof.
  apply synthesizeSentence_respects; cancel_safe_parts.
Qed.

Lemma cancel_safe_playAudio env f : respects cancel_safe (playAudio env f).
Proof.
  apply playAudio_respects; cancel_safe_parts.
Qed.


(** ** A drain in flight is not joined by a second one *)

Lemma drain_kept_refl w : drain_kept w w [].
Proof. by intros H. Qed.

Lemma drain_kept_trans w1 w2 w3 e1 e2 :
  drain_kept w1 w2 e1 -> drain_kept w2 w3 e2 -> drain_kept w1 w3 (e1 ++ e2).
Proof.
  intros H1 H2 Hp. destruct (H1 Hp) as [Hp2 Hr2]. destruct (H2 Hp2) as [Hp3 Hr3].
  split; congruence.
Qed.

Lemma drain_kept_quiet w w' evs : quiet_step w w' evs -> drain_kept w w' evs.
Proof. intros (_ & _ & _ & Hp & _ & Hr & _) H. split; congruence. Qed.

Lemma drain_kept_initialize : respects drain_kept initialize.
Proof.
  intros w a w' evs H. unfold initialize in H. minv.
  destruct (initialized w); minv; by intros Hp.
Qed.

Lemma drain_kept_io_wait env : respects drain_kept (io_wait env).
Proof.
  intros w a w' evs H. apply io_wait_frame in H.
  destruct H as (_ & _ & _ & _ & _ & Hp & _ & Hr & _). intros Hw.
  split; [congruence|auto].
Qed.

Ltac drain_kept_parts :=
  first [exact drain_kept_refl | exact drain_kept_trans
        | exact drain_kept_quiet | exact (drain_kept_io_wait _)
        | exact drain_kept_initialize
        | (intros ? ? ?; apply drain_kept_refl)].

Lemma drain_kept_synthesizeSentence env o t s :
  respects drain_kept (synthesizeSentence env o t s).
Proof. apply synthesizeSentence_respects; drain_kept_parts. Qed.

Lemma drain_kept_playAudio env f : respects drain_kept (playAudio env f).
Proof. apply playAudio_respects; drain_kept_parts. Qed.


(** ** A run that plays nothing reports failure *)


Lemma no_exec_app e1 e2 : no_exec (e1 ++ e2) <-> no_exec e1 /\ no_exec e2.
Proof. apply Forall_app. Qed.





(** ** The pipeline scheduler and cancellation *)


Lemma is_arrival_no_exec evs : Forall is_arrival evs -> no_exec evs.
Proof. intros H. eapply Forall_impl; [exact H|]. by intros []. Qed.

(** X10: the first chunk: when its synthesis fails the run reports
    failure at once and nothing is played. *)
Lemma first_chunk_failure env chunks speaker w :
  chunks <> [] ->
  engine env (synthCalls w) (chunkAt chunks 0) speaker = false ->
  exists w' evs,
    processChunksParallel env chunks speaker w = Some (false, w', evs)
    /\ played evs = []
    /\ attempted evs = [0%nat].
Proof.
  intros Hne Hfail.
  destruct (total_processChunksParallel env chunks speaker w) as (r & w' & evs & E & _).
  pose proof E as E'. unfold processChunksParallel in E.
  case_bool_decide as Hn; [by destruct chunks|].
  unfold synthesizeSentence in E. minv. rewrite Hfail in *. minv. simpl in *. minv.
  eexists _, _. split; [exact E'|].
  match goal with H : io_wait _ _ = Some (_, _, ?e) |- _ =>
    apply io_wait_frame in H; destruct H as (_&_&_&_&_&_&_&_&_&Harr);
    assert (Hp : played e = [] /\ attempted e = []) end.
  { clear -Harr. induction Harr as [|e l He _ [IH1 IH2]]; [done|].
    destruct e; try done. }
  destruct Hp as [Hp Ha]. unfold played, attempted in *.
  rewrite !omap_app, Hp, Ha. done.
Qed.

(** The scenario of the specification: the engine fails on chunk 2 of 5;
    the run reports failure and chunks 0, 1, 3 and 4 are played. *)
Lemma engine_fails_on_third_of_five :
  outcome (processChunksParallel (fails_on (js "c2")) five 3 streaming)
  = Some (false, [0; 1; 3; 4]%nat, [0; 1; 2; 2; 3; 4]%nat).
Proof. vm_compute. reflexivity. Qed.

(** C4, where the code departs from it: a Turn of four sentences, the
    engine failing on the last one.  Chunk 3 is synthesised by the
    steady-state loop, which does not record the failure; the run reports
    success although chunk 3 was never played. *)
Theorem lookahead_failure_not_recorded :
  allChunks 300 (js "a. b. c. d.") = Some [js "a."; js "b."; js "c."; js "d."]
  /\ outcome (textToSpeech (fails_on (js "d.")) 300 (js "a. b. c. d.") 3 streaming)
     = Some (true, [0; 1; 2]%nat, [0; 1; 2; 3]%nat).
Proof. split; vm_compute; reflexivity. Qed.

(** With five chunks and no failure at all the last chunk is neither
    synthesised nor played, and the run reports success. *)
Lemma fifth_chunk_skipped :
  outcome (processChunksParallel calm five 3 streaming)
  = Some (true, [0; 1; 2; 3]%nat, [0; 1; 2; 3]%nat).
Proof. vm_compute. reflexivity. Qed.

(** C1, where the code departs from it: a Turn of three sentences, the
    engine failing on the second one.  The lookahead synthesis of chunk 1
    fails and that of chunk 2 succeeds; the steady-state loop synthesises
    chunk 2 a second time and plays it twice. *)
Theorem chunk_played_twice :
  allChunks 300 (js "a. b. c.") = Some [js "a."; js "b."; js "c."]
  /\ outcome (textToSpeech (fails_on (js "b.")) 300 (js "a. b. c.") 3 streaming)
     = Some (false, [0; 2; 2]%nat, [0; 1; 2; 2]%nat).
Proof. split; vm_compute; reflexivity. Qed.

(** ** The dialogue queue returns *)

Section QueueTotality.

Variable env : Env.
Variable MAX_CHUNK_LENGTH : Z.
Variable DEFAULT_SPEAKER : Z.
Hypothesis MAX_positive : 1 <= MAX_CHUNK_LENGTH.

Lemma total_textToSpeech text speaker :
  total (textToSpeech env MAX_CHUNK_LENGTH text speaker).
Proof.
  unfold textToSpeech.
  destruct (allChunks_good MAX_CHUNK_LENGTH text MAX_positive) as (cs & -> & _).
  apply total_processChunksParallel.
Qed.

Lemma total_conversationLoop i dialogues :
  total (conversationLoop env MAX_CHUNK_LENGTH DEFAULT_SPEAKER i dialogues).
Proof.
  revert i. induction dialogues as [|d ds IH]; intros i; simpl;
    repeat first [apply IH | apply total_textToSpeech | total_step].
Qed.

Lemma total_conversationToSpeech dialogues :
  total (conversationToSpeech env MAX_CHUNK_LENGTH DEFAULT_SPEAKER dialogues).
Proof.
  unfold conversationToSpeech.
  repeat first [apply total_conversationLoop | total_step].
Qed.

Lemma total_processQueue rounds :
  total (processQueue env MAX_CHUNK_LENGTH DEFAULT_SPEAKER rounds).
Proof.
  induction rounds as [|rounds IH]; simpl;
    repeat first [apply IH | apply total_conversationToSpeech | total_step].
Qed.

Lemma total_tool rounds r :
  total (tool env MAX_CHUNK_LENGTH DEFAULT_SPEAKER rounds r).
Proof.
  unfold tool, addToQueue, queuePush.
  repeat first [apply total_processQueue | apply total_stopAudio | total_step].
Qed.

Lemma total_server rounds requests :
  total (server env MAX_CHUNK_LENGTH DEFAULT_SPEAKER rounds requests).
Proof. unfold server. apply total_forEachM. apply total_tool. Qed.

End QueueTotality.

(** ** The dialogue loop keeps what a Turn keeps *)

Section ConversationRespects.

Variable env : Env.
Variable MAX_CHUNK_LENGTH : Z.
Variable DEFAULT_SPEAKER : Z.
Variable T : World -> World -> list Event -> Prop.
Hypothesis T_refl : forall w, T w w [].
Hypothesis T_trans :
  forall w1 w2 w3 e1 e2, T w1 w2 e1 -> T w2 w3 e2 -> T w1 w3 (e1 ++ e2).
Hypothesis T_turn :
  forall text speaker, respects T (textToSpeech env MAX_CHUNK_LENGTH text speaker).
Hypothesis T_flag_false : forall w, T w (set_isPlayingAudio false w) [].
Hypothesis T_mark :
  forall w i, T w w [EvTurnBegin i] /\ T w w [EvTurnEnd i].

Lemma conversationLoop_respects i dialogues :
  respects T (conversationLoop env MAX_CHUNK_LENGTH DEFAULT_SPEAKER i dialogues).
Proof.
  revert i. induction dialogues as [|d ds IH]; intros i; simpl;
    repeat first [apply IH | apply T_turn
                 | (intros ? ? ? ? ?; minv; first [apply T_flag_false | apply T_mark])
                 | respects_step T_refl T_trans].
Qed.

Lemma conversationToSpeech_respects dialogues :
  (forall w, T w (set_isPlayingAudio true w) []) ->
  respects T (conversationToSpeech env MAX_CHUNK_LENGTH DEFAULT_SPEAKER dialogues).
Proof.
  intros T_flag_true. unfold conversationToSpeech.
  apply (respects_bind _ T_trans); [|intros _; apply conversationLoop_respects].
  intros ? ? ? ? ?. minv. apply T_flag_true.
Qed.

End ConversationRespects.

(** ** Turn-lists begin in the order of their tickets *)

Lemma ticket_order_refl w : ticket_order w w [].
Proof. intros pre H. by rewrite app_nil_r. Qed.

Lemma ticket_order_trans w1 w2 w3 e1 e2 :
  ticket_order w1 w2 e1 -> ticket_order w2 w3 e2 -> ticket_order w1 w3 (e1 ++ e2).
Proof. intros H1 H2 pre H. rewrite app_assoc. by apply H2, H1. Qed.

Lemma begun_app e1 e2 : begun (e1 ++ e2) = begun e1 ++ begun e2.
Proof. apply omap_app. Qed.

Lemma enqueued_app e1 e2 : enqueued (e1 ++ e2) = enqueued e1 ++ enqueued e2.
Proof. apply omap_app. Qed.

Lemma no_queue_event_omap evs :
  Forall no_queue_event evs -> begun evs = [] /\ enqueued evs = [].
Proof.
  induction 1 as [|e evs He _ [IH1 IH2]]; [done|].
  destruct e; try done; (split; [exact IH1|exact IH2]).
Qed.

Lemma begin_after_enqueue_app pre evs :
  begin_after_enqueue pre -> Forall (fun e => forall t, e <> EvBegin t) evs ->
  begin_after_enqueue (pre ++ evs).
Proof.
  intros Hpre Hevs p1 p2 t H.
  apply app_eq_app_cons in H as [(post1 & -> & ->)|(pre2 & -> & ->)].
  - by eapply Hpre.
  - apply Forall_app in Hevs as [_ Hevs]. inversion Hevs as [|? ? Hb _]; subst.
    by destruct (Hb t).
Qed.

Lemma begin_after_enqueue_begin pre t :
  begin_after_enqueue pre -> EvEnqueue t ∈ pre ->
  begin_after_enqueue (pre ++ [EvBegin t]).
Proof.
  intros Hpre Hin p1 p2 t' H.
  apply app_eq_app_cons in H as [(post1 & -> & ->)|(pre2 & -> & H)].
  - by eapply Hpre.
  - destruct pre2 as [|? [|? ?]]; try discriminate.
    injection H as <- <-. by rewrite app_nil_r.
Qed.

(** A step that takes nothing from the queue but possibly all of it, hands
    out no ticket and emits no queue event. *)
Lemma ticket_order_plain w w' evs :
  queue w' = queue w \/ queue w' = [] -> tickets w' = tickets w ->
  Forall no_queue_event evs -> ticket_order w w' evs.
Proof.
  intros Hq Ht Hevs pre (Hs & Hb & He & Ha).
  destruct (no_queue_event_omap evs Hevs) as [Eb Ee].
  unfold ticket_inv. rewrite begun_app, enqueued_app, Eb, Ee, !app_nil_r, Ht.
  repeat split.
  - destruct Hq as [->| ->]; [exact Hs|].
    simpl. rewrite app_nil_r. by apply StronglySorted_app_1_l in Hs.
  - destruct Hq as [->| ->]; [exact Hb|].
    simpl. rewrite app_nil_r. by apply Forall_app in Hb as [Hb _].
  - exact He.
  - apply begin_after_enqueue_app; [exact Ha|].
    eapply Forall_impl; [exact Hevs|]. intros [] He' t; try done.
Qed.

Lemma ticket_order_quiet w w' evs : quiet_step w w' evs -> ticket_order w w' evs.
Proof.
  intros (_ & _ & Hq & _ & Ht & _ & _ & Hevs).
  apply ticket_order_plain; [by left|done|].
  eapply Forall_impl; [exact Hevs|]. by intros [].
Qed.

Lemma ticket_order_push w dialogues :
  ticket_order w
    (set_tickets (S (tickets w)) (set_queue (queue w ++ [(tickets w, dialogues)]) w))
    [EvEnqueue (tickets w)].
Proof.
  intros pre (Hs & Hb & He & Ha). unfold ticket_inv.
  rewrite begun_app, enqueued_app. simpl. rewrite app_nil_r, fmap_app. simpl.
  rewrite app_assoc. repeat split.
  - apply StronglySorted_app_2; [|exact Hs|repeat constructor].
    intros x1 x2 H1 H2. apply list_elem_of_singleton in H2 as ->.
    rewrite Forall_forall in Hb. by apply Hb.
  - apply Forall_app. split; [|repeat constructor].
    eapply Forall_impl; [exact Hb|]. simpl. intros; lia.
  - rewrite He. symmetry. apply (seq_S (tickets w) 0).
  - apply begin_after_enqueue_app; [exact Ha|]. repeat constructor. done.
Qed.

Lemma ticket_order_serve r : respects ticket_order (serve r).
Proof.
  intros w a w' evs H. destruct r as [[|d ds]|]; simpl in H.
  - minv. apply ticket_order_refl.
  - unfold queuePush in H. minv.
    destruct (isProcessing _) in H; minv; simpl;
      intros pre Hinv; apply (ticket_order_push _ (d :: ds)) in Hinv; exact Hinv.
  - unfold stopAudio in H. minv. simpl.
    apply ticket_order_plain; [by right|done|by repeat constructor].
Qed.

Lemma ticket_order_io_wait env : respects ticket_order (io_wait env).
Proof.
  apply (io_wait_from_serve env _ ticket_order_refl ticket_order_trans).
  - apply ticket_order_serve.
  - intros w n. apply ticket_order_plain; [by left|done|constructor].
Qed.

Lemma ticket_order_initialize : respects ticket_order initialize.
Proof.
  intros w a w' evs H. unfold initialize in H. minv.
  destruct (initialized w); minv; simpl;
    (apply ticket_order_plain; [by left|done|constructor]).
Qed.

Lemma ticket_order_textToSpeech env MAX_CHUNK_LENGTH text speaker :
  respects ticket_order (textToSpeech env MAX_CHUNK_LENGTH text speaker).
Proof.
  apply textToSpeech_respects;
    first [exact ticket_order_refl | exact ticket_order_trans | idtac].
  - intros o t s. apply synthesizeSentence_respects;
      first [exact ticket_order_trans | exact ticket_order_quiet
            | exact (ticket_order_io_wait env)].
  - intros f. apply playAudio_respects;
      first [exact ticket_order_refl | exact ticket_order_trans
            | exact ticket_order_quiet | exact (ticket_order_io_wait env)
            | exact ticket_order_initialize | idtac].
    intros w f' _. apply ticket_order_plain; [by left|done|by repeat constructor].
Qed.

Lemma ticket_order_conversationToSpeech env MAX_CHUNK_LENGTH DEFAULT_SPEAKER dialogues :
  respects ticket_order
    (conversationToSpeech env MAX_CHUNK_LENGTH DEFAULT_SPEAKER dialogues).
Proof.
  apply conversationToSpeech_respects;
    first [exact ticket_order_refl | exact ticket_order_trans
          | exact (ticket_order_textToSpeech env MAX_CHUNK_LENGTH) | idtac].
  all: intros; try split;
    (apply ticket_order_plain; [by left|done|by repeat constructor]).
Qed.

Lemma ticket_order_dequeue w t ds rest :
  queue w = (t, ds) :: rest ->
  ticket_order w (set_queue rest (set_isProcessing true w)) [EvBegin t].
Proof.
  intros Eq pre (Hs & Hb & He & Ha). unfold ticket_inv.
  rewrite begun_app, enqueued_app. simpl. rewrite Eq in *. simpl in *.
  rewrite app_nil_r, <- app_assoc. simpl. repeat split; try assumption.
  apply begin_after_enqueue_begin; [exact Ha|].
  assert (Ht : (t < tickets w)%nat).
  { rewrite Forall_forall in Hb. apply Hb. apply elem_of_app. right.
    apply elem_of_cons. by left. }
  assert (Hin : t ∈ enqueued pre).
  { rewrite He. apply elem_of_seq. lia. }
  apply list_elem_of_omap in Hin as (e & Hin & Hf).
  destruct e; try discriminate. by injection Hf as ->.
Qed.

Section QueueOrder.

Variable env : Env.
Variable MAX_CHUNK_LENGTH : Z.
Variable DEFAULT_SPEAKER : Z.

Lemma ticket_order_processQueue rounds :
  respects ticket_order (processQueue env MAX_CHUNK_LENGTH DEFAULT_SPEAKER rounds).
Proof.
  induction rounds as [|rounds IH]; intros w a w' evs H; simpl in H; minv.
  - destruct (queue w) as [|[t ds] rest]; minv.
    + apply ticket_order_plain; [by left|done|constructor].
    + apply ticket_order_refl.
  - destruct (queue w) as [|[t ds] rest] eqn:Eq; minv.
    + apply ticket_order_plain; [by left|done|constructor].
    + simpl.
      match goal with H : conversationToSpeech _ _ _ _ _ = Some _ |- _ =>
        apply ticket_order_conversationToSpeech in H end.
      match goal with H : processQueue _ _ _ _ _ = Some _ |- _ => apply IH in H end.
      eapply (T_chain _ ticket_order_trans);
        [apply (ticket_order_dequeue w t ds rest Eq)| |reflexivity].
      eapply ticket_order_trans; [eassumption|].
      match goal with H : ticket_order ?w1 ?w2 ?e |- ticket_order ?w1 ?w2 (?x :: ?e) =>
        apply (ticket_order_trans w1 w1 w2 [x] e); [|exact H] end.
      apply ticket_order_plain; [by left|done|by repeat constructor].
Qed.

Lemma ticket_order_tool rounds r :
  respects ticket_order (tool env MAX_CHUNK_LENGTH DEFAULT_SPEAKER rounds r).
Proof.
  intros w a w' evs H. destruct r as [[|d ds]|]; simpl in H.
  - minv. apply ticket_order_refl.
  - unfold addToQueue, queuePush in H. minv. simpl.
    eapply (T_chain _ ticket_order_trans);
      [apply (ticket_order_push w (d :: ds))| |reflexivity].
    destruct (isProcessing _) in *; minv; [apply ticket_order_refl|].
    by eapply ticket_order_processQueue.
  - unfold stopAudio in H. minv. simpl.
    apply ticket_order_plain; [by right|done|by repeat constructor].
Qed.

Lemma ticket_order_server rounds requests :
  respects ticket_order (server env MAX_CHUNK_LENGTH DEFAULT_SPEAKER rounds requests).
Proof.
  apply (respects_forEachM _ ticket_order_refl ticket_order_trans).
  apply ticket_order_tool.
Qed.

End QueueOrder.

(** ** One Turn-list at a time, one turn at a time *)

Lemma follow_app ph e1 e2 :
  follow ph (e1 ++ e2)
  = match follow ph e1 with Some ph' => follow ph' e2 | None => None end.
Proof.
  revert ph. induction e1 as [|e e1 IH]; intros ph; simpl; [reflexivity|].
  destruct (track ph e); [apply IH|reflexivity].
Qed.

Lemma stays_in_turn_refl w : stays_in_turn w w [].
Proof. by intros t i. Qed.

Lemma stays_in_turn_trans w1 w2 w3 e1 e2 :
  stays_in_turn w1 w2 e1 -> stays_in_turn w2 w3 e2 -> stays_in_turn w1 w3 (e1 ++ e2).
Proof. intros H1 H2 t i. by rewrite follow_app, H1, H2. Qed.

Lemma arrivals_any_phase evs ph :
  Forall is_arrival evs -> follow ph evs = Some ph.
Proof.
  induction 1 as [|e evs He _ IH]; [reflexivity|].
  destruct e; try done; destruct ph; exact IH.
Qed.

Lemma stays_in_turn_quiet w w' evs : quiet_step w w' evs -> stays_in_turn w w' evs.
Proof.
  intros (_ & _ & _ & _ & _ & _ & _ & Hevs) t i.
  induction Hevs as [|e evs He _ IH]; [reflexivity|]. by destruct e.
Qed.

Lemma stays_in_turn_io_wait env : respects stays_in_turn (io_wait env).
Proof.
  intros w a w' evs H t i. apply io_wait_frame in H.
  apply arrivals_any_phase. apply H.
Qed.

Lemma stays_in_turn_initialize : respects stays_in_turn initialize.
Proof.
  intros w a w' evs H. unfold initialize in H. minv.
  destruct (initialized w); minv; by intros t i.
Qed.

Lemma stays_in_turn_textToSpeech env MAX_CHUNK_LENGTH text speaker :
  respects stays_in_turn (textToSpeech env MAX_CHUNK_LENGTH text speaker).
Proof.
  apply textToSpeech_respects;
    first [exact stays_in_turn_refl | exact stays_in_turn_trans | idtac].
  - intros o t s. apply synthesizeSentence_respects;
      first [exact stays_in_turn_trans | exact stays_in_turn_quiet
            | exact (stays_in_turn_io_wait env)].
  - intros f. apply playAudio_respects;
      first [exact stays_in_turn_refl | exact stays_in_turn_trans
            | exact stays_in_turn_quiet | exact (stays_in_turn_io_wait env)
            | exact stays_in_turn_initialize | idtac].
    by intros w f' _ t i.
Qed.

Lemma drain_kept_textToSpeech env MAX_CHUNK_LENGTH text speaker :
  respects drain_kept (textToSpeech env MAX_CHUNK_LENGTH text speaker).
Proof.
  apply textToSpeech_respects;
    first [exact drain_kept_refl | exact drain_kept_trans
          | exact (drain_kept_synthesizeSentence env)
          | exact (drain_kept_playAudio env)].
Qed.

Lemma drain_kept_conversationToSpeech env MAX_CHUNK_LENGTH DEFAULT_SPEAKER dialogues :
  respects drain_kept
    (conversationToSpeech env MAX_CHUNK_LENGTH DEFAULT_SPEAKER dialogues).
Proof.
  apply conversationToSpeech_respects;
    first [exact drain_kept_refl | exact drain_kept_trans
          | exact (drain_kept_textToSpeech env MAX_CHUNK_LENGTH) | idtac].
  all: intros; try split; by intros Hp.
Qed.

Section QueuePhases.

Variable env : Env.
Variable MAX_CHUNK_LENGTH : Z.
Variable DEFAULT_SPEAKER : Z.

Lemma conversationLoop_follow dialogues i w r w' evs t :
  conversationLoop env MAX_CHUNK_LENGTH DEFAULT_SPEAKER i dialogues w
  = Some (r, w', evs) ->
  exists k, follow (InList t i) evs = Some (InList t k).
Proof.
  revert i w evs. induction dialogues as [|d ds IH]; intros i w evs H; simpl in H.
  - minv. by exists i.
  - minv. destruct (isPlayingAudio _); simpl in *; minv; [|by exists i].
    match goal with H : textToSpeech _ _ _ _ _ = Some _ |- _ =>
      apply stays_in_turn_textToSpeech in H; rename H into Hturn end.
    simpl. rewrite Nat.eqb_refl, follow_app, (Hturn t i). simpl.
    rewrite Nat.eqb_refl.
    match goal with H : (if negb ?b then _ else _) _ = Some _ |- _ =>
      destruct b; simpl in H; minv end.
    + eapply IH. eassumption.
    + by exists (S i).
Qed.

Lemma processQueue_follow rounds w a w' evs :
  processQueue env MAX_CHUNK_LENGTH DEFAULT_SPEAKER rounds w = Some (a, w', evs) ->
  follow Idle evs = Some Idle.
Proof.
  revert w evs. induction rounds as [|rounds IH]; intros w evs H; simpl in H; minv.
  - destruct (queue w) as [|[t ds] rest]; minv; reflexivity.
  - destruct (queue w) as [|[t ds] rest]; minv; [reflexivity|].
    unfold conversationToSpeech in *. minv. simpl.
    match goal with H : conversationLoop _ _ _ _ _ _ = Some _ |- _ =>
      apply (conversationLoop_follow _ _ _ _ _ _ t) in H; destruct H as [k Hk] end.
    rewrite follow_app, Hk. simpl. rewrite Nat.eqb_refl. eapply IH. eassumption.
Qed.

Lemma tool_follow rounds r w a w' evs :
  tool env MAX_CHUNK_LENGTH DEFAULT_SPEAKER rounds r w = Some (a, w', evs) ->
  follow Idle evs = Some Idle.
Proof.
  intros H. destruct r as [[|d ds]|]; simpl in H.
  - by minv.
  - unfold addToQueue, queuePush in H. minv. simpl.
    destruct (isProcessing _) in *; minv; [reflexivity|].
    by eapply processQueue_follow.
  - unfold stopAudio in H. by minv.
Qed.

Lemma server_follow rounds requests w a w' evs :
  server env MAX_CHUNK_LENGTH DEFAULT_SPEAKER rounds requests w = Some (a, w', evs) ->
  follow Idle evs = Some Idle.
Proof.
  unfold server. revert w evs.
  induction requests as [|r requests IH]; intros w evs H; simpl in H; minv.
  - reflexivity.
  - match goal with H : tool _ _ _ _ _ _ = Some _ |- _ => apply tool_follow in H;
      rename H into Htool end.
    rewrite follow_app, Htool. eapply IH. eassumption.
Qed.

Lemma processQueue_reentered rounds w a w' evs :
  processQueue env MAX_CHUNK_LENGTH DEFAULT_SPEAKER rounds w = Some (a, w', evs) ->
  reentered w' = reentered w.
Proof.
  revert w evs. induction rounds as [|rounds IH]; intros w evs H; simpl in H; minv.
  - destruct (queue w) as [|[t ds] rest]; minv; reflexivity.
  - destruct (queue w) as [|[t ds] rest]; minv; [reflexivity|].
    match goal with H : conversationToSpeech _ _ _ _ _ = Some _ |- _ =>
      apply drain_kept_conversationToSpeech in H; destruct (H eq_refl) as [_ Hre] end.
    match goal with H : processQueue _ _ _ _ _ = Some _ |- _ => apply IH in H;
      rename H into Hrec end.
    rewrite Hrec, Hre. reflexivity.
Qed.

Lemma tool_reentered rounds r w a w' evs :
  tool env MAX_CHUNK_LENGTH DEFAULT_SPEAKER rounds r w = Some (a, w', evs) ->
  reentered w' = reentered w.
Proof.
  intros H. destruct r as [[|d ds]|]; simpl in H.
  - by minv.
  - unfold addToQueue, queuePush in H. minv. simpl in *.
    destruct (isProcessing _) in *; minv; [reflexivity|].
    match goal with H : processQueue _ _ _ _ _ = Some _ |- _ =>
      apply processQueue_reentered in H; rewrite H end.
    reflexivity.
  - unfold stopAudio in H. by minv.
Qed.

Lemma server_reentered rounds requests w a w' evs :
  server env MAX_CHUNK_LENGTH DEFAULT_SPEAKER rounds requests w = Some (a, w', evs) ->
  reentered w' = reentered w.
Proof.
  unfold server. revert w evs.
  induction requests as [|r requests IH]; intros w evs H; simpl in H; minv.
  - reflexivity.
  - match goal with H : tool _ _ _ _ _ _ = Some _ |- _ => apply tool_reentered in H;
      rename H into Htool end.
    match goal with H : forEachM _ _ _ = Some _ |- _ => apply IH in H; rewrite H end.
    exact Htool.
Qed.

End QueuePhases.

(** ** The dialogue queue *)

(** C9: whatever tool calls arrive and whenever, the server takes the
    Turn-lists in the order in which they were enqueued (the tickets count
    the enqueues, and the tickets of the Turn-lists that begin ascend),
    each only after it was enqueued and only between Turn-lists; inside a
    Turn-list turn [i] begins only after the turns before it have ended,
    and engine calls and playback happen only inside a turn; and no second
    drain is ever started beside the one in flight. *)
Theorem turn_lists_in_order env MAX_CHUNK_LENGTH DEFAULT_SPEAKER rounds requests :
  1 <= MAX_CHUNK_LENGTH ->
  exists w' evs,
    server env MAX_CHUNK_LENGTH DEFAULT_SPEAKER rounds requests idle
    = Some (tt, w', evs)
    /\ follow Idle evs = Some Idle
    /\ StronglySorted lt (begun evs)
    /\ enqueued evs = seq 0 (tickets w')
    /\ begin_after_enqueue evs
    /\ reentered w' = false.
Proof.
  intros HM.
  destruct (total_server env MAX_CHUNK_LENGTH DEFAULT_SPEAKER HM rounds requests idle)
    as ([] & w' & evs & E & _).
  exists w', evs. split; [exact E|].
  pose proof (ticket_order_server _ _ _ _ _ _ _ _ _ E []) as Hinv.
  destruct Hinv as (Hs & _ & He & Ha).
  { repeat split; try constructor. intros [|? ?] p2 t H; discriminate. }
  simpl in *. repeat split; try assumption.
  - by eapply server_follow.
  - by apply StronglySorted_app_1_l in Hs.
  - by apply server_reentered in E.
Qed.

(** ** The server keeps what its steps keep *)

Section ServerRespects.

Variable env : Env.
Variable MAX_CHUNK_LENGTH : Z.
Variable DEFAULT_SPEAKER : Z.
Variable T : World -> World -> list Event -> Prop.
Hypothesis T_refl : forall w, T w w [].
Hypothesis T_trans :
  forall w1 w2 w3 e1 e2, T w1 w2 e1 -> T w2 w3 e2 -> T w1 w3 (e1 ++ e2).
Hypothesis T_quiet : forall w w' evs, quiet_step w w' evs -> T w w' evs.
Hypothesis T_initialize : respects T initialize.
Hypothesis T_exec : forall w f, isPlayingAudio w = true -> T w w [EvExec f].
Hypothesis T_awaits : forall w n, T w (set_awaits n w) [].
Hypothesis T_reenter : forall w, T w (set_reentered true w) [].
Hypothesis T_flag_false : forall w, T w (set_isPlayingAudio false w) [].
Hypothesis T_mark : forall w i, T w w [EvTurnBegin i] /\ T w w [EvTurnEnd i].
Hypothesis T_push :
  forall w ds,
    T w (set_tickets (S (tickets w)) (set_queue (queue w ++ [(tickets w, ds)]) w))
      [EvEnqueue (tickets w)].
Hypothesis T_stop : respects T stopAudio.
Hypothesis T_begin :
  forall w t ds rest,
    queue w = (t, ds) :: rest ->
    T w (set_isPlayingAudio true (set_queue rest (set_isProcessing true w)))
      [EvBegin t].
Hypothesis T_end : forall w t, T w w [EvEnd t].
Hypothesis T_done : forall w, T w (set_isProcessing false w) [].

Lemma serve_keeps r : respects T (serve r).
Proof.
  intros w a w' evs H. destruct r as [[|d ds]|]; simpl in H.
  - minv. apply T_refl.
  - unfold queuePush in H. minv. simpl.
    destruct (isProcessing _) in H; minv; simpl.
    + apply T_push.
    + eapply (T_chain T T_trans); [apply (T_push w (d :: ds))|apply T_reenter|reflexivity].
  - apply bind_Some in H as (b & w1 & e1 & e2 & Hs & H & ->). minv.
    rewrite app_nil_r. by eapply T_stop.
Qed.

Lemma io_wait_keeps : respects T (io_wait env).
Proof.
  apply (io_wait_from_serve env T T_refl T_trans); [apply serve_keeps|apply T_awaits].
Qed.

Lemma textToSpeech_keeps text speaker :
  respects T (textToSpeech env MAX_CHUNK_LENGTH text speaker).
Proof.
  apply textToSpeech_respects; first [exact T_refl | exact T_trans | idtac].
  - intros o t s. apply synthesizeSentence_respects;
      first [exact T_trans | exact T_quiet | exact io_wait_keeps].
  - intros f. apply playAudio_respects;
      first [exact T_refl | exact T_trans | exact T_quiet | exact io_wait_keeps
            | exact T_initialize | exact T_exec].
Qed.

Lemma conversationLoop_keeps i dialogues :
  respects T (conversationLoop env MAX_CHUNK_LENGTH DEFAULT_SPEAKER i dialogues).
Proof.
  apply conversationLoop_respects;
    first [exact T_refl | exact T_trans | exact textToSpeech_keeps
          | exact T_flag_false | exact T_mark].
Qed.

Lemma processQueue_keeps rounds :
  respects T (processQueue env MAX_CHUNK_LENGTH DEFAULT_SPEAKER rounds).
Proof.
  induction rounds as [|rounds IH]; intros w a w' evs H; simpl in H; minv.
  - destruct (queue w) as [|[t ds] rest]; minv; [apply T_done|apply T_refl].
  - destruct (queue w) as [|[t ds] rest] eqn:Eq; minv; [apply T_done|].
    unfold conversationToSpeech in *. minv. simpl.
    match goal with H : conversationLoop _ _ _ _ _ _ = Some _ |- _ =>
      apply conversationLoop_keeps in H end.
    match goal with H : processQueue _ _ _ _ _ = Some _ |- _ => apply IH in H end.
    eapply (T_chain T T_trans); [apply (T_begin w t ds rest Eq)| |reflexivity].
    eapply T_trans; [eassumption|].
    match goal with H : T ?w1 ?w2 ?e |- T ?w1 ?w2 (?x :: ?e) =>
      apply (T_trans w1 w1 w2 [x] e); [apply T_end|exact H] end.
Qed.

Lemma tool_keeps rounds r :
  respects T (tool env MAX_CHUNK_LENGTH DEFAULT_SPEAKER rounds r).
Proof.
  intros w a w' evs H. destruct r as [[|d ds]|]; simpl in H.
  - minv. apply T_refl.
  - unfold addToQueue, queuePush in H. minv. simpl.
    eapply (T_chain T T_trans); [apply (T_push w (d :: ds))| |reflexivity].
    destruct (isProcessing _) in *; minv; [apply T_refl|].
    by eapply processQueue_keeps.
  - apply bind_Some in H as (b & w1 & e1 & e2 & Hs & H & ->). minv.
    rewrite app_nil_r. by eapply T_stop.
Qed.

Lemma server_keeps rounds requests :
  respects T (server env MAX_CHUNK_LENGTH DEFAULT_SPEAKER rounds requests).
Proof. apply (respects_forEachM _ T_refl T_trans). apply tool_keeps. Qed.

End ServerRespects.

(** ** After a stop *)

Lemma quiet_head_app e1 e2 w2 w3 :
  quiet_head e1 w2 -> (isPlayingAudio w2 = false -> quiet_head e2 w3) ->
  quiet_head (e1 ++ e2) w3.
Proof.
  unfold quiet_head.
  induction e1 as [|e e1 IH]; intros [Hq Hf] H2; simpl in *.
  - apply H2, Hf. constructor.
  - destruct (is_begin e) eqn:Eb.
    + split; [constructor|]. intros Hnb. inversion Hnb; subst. congruence.
    + inversion Hq as [|? ? He Hq']; subst.
      destruct IH as [IH1 IH2]; [split; [exact Hq'|]|exact H2|].
      { intros Hnb. apply Hf. by constructor. }
      split; [by constructor|]. intros Hnb. inversion Hnb; subst. by apply IH2.
Qed.

Lemma silenced_refl w : silenced w w [].
Proof.
  split.
  - intros Hf. split; [constructor|done].
  - intros [|? ?] post H; discriminate.
Qed.

Lemma silenced_trans w1 w2 w3 e1 e2 :
  silenced w1 w2 e1 -> silenced w2 w3 e2 -> silenced w1 w3 (e1 ++ e2).
Proof.
  intros [A1 B1] [A2 B2]. split.
  - intros Hf. apply (quiet_head_app e1 e2 w2 w3); [apply A1; exact Hf|exact A2].
  - intros pre post H.
    apply app_eq_app_cons in H as [(p1 & -> & ->)|(p2 & -> & ->)].
    + apply (quiet_head_app p1 e2 w2 w3); [eapply B1; reflexivity|exact A2].
    + eapply B2. reflexivity.
Qed.

Lemma no_exec_until_begin evs : no_exec evs -> no_exec (until_begin evs).
Proof.
  induction 1 as [|e evs He _ IH]; simpl; [constructor|].
  destruct (is_begin e); [constructor|by constructor].
Qed.

(** A step that plays nothing, serves no stop and does not set the flag. *)
Lemma silenced_plain w w' evs :
  isPlayingAudio w' = isPlayingAudio w \/ isPlayingAudio w' = false ->
  no_exec evs -> EvStop ∉ evs -> silenced w w' evs.
Proof.
  intros Hflag Hne Hns. split.
  - intros Hf. split; [by apply no_exec_until_begin|].
    intros _. destruct Hflag; congruence.
  - intros pre post ->. destruct Hns. apply elem_of_app. right.
    apply elem_of_cons. by left.
Qed.

Lemma silenced_quiet w w' evs : quiet_step w w' evs -> silenced w w' evs.
Proof.
  intros (Hflag & _ & _ & _ & _ & _ & _ & Hevs). apply silenced_plain; [by left| |].
  - eapply Forall_impl; [exact Hevs|]. by intros [].
  - intros Hin. rewrite Forall_forall in Hevs. by apply Hevs in Hin.
Qed.

Ltac plain_events :=
  first [ by repeat constructor
        | apply not_elem_of_nil
        | (intros Hin; apply list_elem_of_singleton in Hin; discriminate) ].

Lemma silenced_initialize : respects silenced initialize.
Proof.
  intros w a w' evs H. unfold initialize in H. minv.
  destruct (initialized w); minv; simpl;
    (apply silenced_plain; [first [by left|by right]|plain_events|plain_events]).
Qed.

Lemma silenced_stopAudio : respects silenced stopAudio.
Proof.
  intros w a w' evs H. unfold stopAudio in H. minv. simpl. split.
  - intros _. split; [by repeat constructor|done].
  - intros [|? [|? ?]] post H; try discriminate. injection H as <-.
    split; [constructor|done].
Qed.

Lemma silenced_server env MAX_CHUNK_LENGTH DEFAULT_SPEAKER rounds requests :
  respects silenced (server env MAX_CHUNK_LENGTH DEFAULT_SPEAKER rounds requests).
Proof.
  apply server_keeps;
    first [exact silenced_refl | exact silenced_trans | exact silenced_quiet
          | exact silenced_initialize | exact silenced_stopAudio | idtac].
  all: intros;
    lazymatch goal with
    | |- silenced _ _ [EvExec _] =>
        split; [congruence|intros [|? [|? ?]] post Hp; discriminate]
    | |- silenced _ _ [EvBegin _] =>
        split;
        [intros _; split; [constructor|];
         intros Hnb; inversion Hnb; subst; discriminate
        |intros [|? [|? ?]] post Hp; discriminate]
    | |- _ /\ _ =>
        split; (apply silenced_plain; [by left|plain_events|plain_events])
    | |- _ =>
        apply silenced_plain; [first [by left|by right]|plain_events|plain_events]
    end.
Qed.

Lemma late_tickets_refl w : late_tickets w w [].
Proof.
  split; [simpl; lia|]. split.
  - intros n H. split; [exact H|constructor].
  - intros [|? ?] post H; discriminate.
Qed.

Lemma late_tickets_trans w1 w2 w3 e1 e2 :
  late_tickets w1 w2 e1 -> late_tickets w2 w3 e2 -> late_tickets w1 w3 (e1 ++ e2).
Proof.
  intros (A1 & B1 & C1) (A2 & B2 & C2). split; [|split].
  - rewrite enqueued_app, length_app. lia.
  - intros n H. destruct (B1 n H) as [H2 F1]. destruct (B2 n H2) as [H3 F2].
    split; [exact H3|]. rewrite begun_app. by apply Forall_app.
  - intros pre post H.
    apply app_eq_app_cons in H as [(p1 & -> & ->)|(p2 & -> & ->)].
    + destruct (C1 pre p1 eq_refl) as [H2 F1]. destruct (B2 _ H2) as [H3 F2].
      split; [exact H3|]. rewrite begun_app. by apply Forall_app.
    + destruct (C2 p2 post eq_refl) as [H3 F2].
      rewrite enqueued_app, length_app, A1 in *.
      rewrite Nat.add_assoc. by split.
Qed.

(** A step that hands out no ticket, takes nothing from the queue but
    possibly all of it, and emits no queue event and no stop. *)
Lemma late_tickets_plain w w' evs :
  queue w' = queue w \/ queue w' = [] -> tickets w' = tickets w ->
  Forall no_queue_event evs -> EvStop ∉ evs -> late_tickets w w' evs.
Proof.
  intros Hq Ht Hevs Hns.
  destruct (no_queue_event_omap evs Hevs) as [Eb Ee].
  split; [rewrite Ee; simpl; lia|]. split.
  - intros n [Hn1 Hn2]. rewrite Eb. split; [|constructor].
    split; [|lia]. destruct Hq as [->| ->]; [exact Hn1|constructor].
  - intros pre post ->. destruct Hns. apply elem_of_app. right.
    apply elem_of_cons. by left.
Qed.

Lemma late_tickets_quiet w w' evs : quiet_step w w' evs -> late_tickets w w' evs.
Proof.
  intros (_ & _ & Hq & _ & Ht & _ & _ & Hevs).
  apply late_tickets_plain; [by left|done| |].
  - eapply Forall_impl; [exact Hevs|]. by intros [].
  - intros Hin. rewrite Forall_forall in Hevs. by apply Hevs in Hin.
Qed.

Lemma late_tickets_initialize : respects late_tickets initialize.
Proof.
  intros w a w' evs H. unfold initialize in H. minv.
  destruct (initialized w); minv; simpl;
    (apply late_tickets_plain; [by left|done|plain_events|plain_events]).
Qed.

Lemma late_tickets_stopAudio : respects late_tickets stopAudio.
Proof.
  intros w a w' evs H. unfold stopAudio in H. minv. simpl.
  split; [simpl; lia|]. split.
  - intros n [Hn1 Hn2]. unfold lower_bound. simpl.
    split; [|constructor]. split; [constructor|exact Hn2].
  - intros [|? [|? ?]] post H; try discriminate. injection H as <-.
    unfold lower_bound. simpl. split; [|constructor]. split; [constructor|lia].
Qed.

Lemma late_tickets_server env MAX_CHUNK_LENGTH DEFAULT_SPEAKER rounds requests :
  respects late_tickets (server env MAX_CHUNK_LENGTH DEFAULT_SPEAKER rounds requests).
Proof.
  apply server_keeps;
    first [exact late_tickets_refl | exact late_tickets_trans
          | exact late_tickets_quiet | exact late_tickets_initialize
          | exact late_tickets_stopAudio | idtac].
  all: intros;
    lazymatch goal with
    | |- late_tickets _ _ [EvEnqueue _] =>
        split; [simpl; lia|]; split;
        [intros n [Hn1 Hn2]; unfold lower_bound; simpl; split; [|constructor];
         split; [|lia];
         rewrite fmap_app; apply Forall_app; split; [exact Hn1|by repeat constructor]
        |intros [|? [|? ?]] post Hp; discriminate]
    | Eq : queue _ = _ :: _ |- late_tickets _ _ [EvBegin _] =>
        split; [simpl; lia|]; split;
        [intros n [Hn1 Hn2]; rewrite Eq in Hn1; unfold lower_bound; simpl in *;
         inversion Hn1; subst; split; [by split|by repeat constructor]
        |intros [|? [|? ?]] post Hp; discriminate]
    | |- _ /\ _ =>
        split; (apply late_tickets_plain; [by left|done|plain_events|plain_events])
    | |- _ =>
        apply late_tickets_plain; [by left|done|plain_events|plain_events]
    end.
Qed.

(** ** Stop *)

Lemma stopAudio_effect w :
  stopAudio w
  = Some (true, set_queue [] (set_isPlayingAudio false w), [EvStop]).
Proof. reflexivity. Qed.

(** The scenario of the specification: [enqueue([A, B])] and then a stop
    that is served at once, while the first engine call is pending.  The
    player is never run, and the queue is empty in the end. *)
Lemma enqueue_then_stop :
  exists w',
    tool (stop_at 0) 300 3 1 (Speak greeting) idle
    = Some (tt, w',
            [EvEnqueue 0; EvBegin 0; EvTurnBegin 0; EvStop;
             EvSynth 0 (js "A") 3 true; EvUnlink 0; EvTurnEnd 0; EvEnd 0])
    /\ queue w' = [] /\ isProcessing w' = false /\ isPlayingAudio w' = false.
Proof. eexists. vm_compute. repeat split; reflexivity. Qed.

(** C6: [stopAudio] leaves the flag false and the queue empty.
    Consequently, in every run of the server and after every stop: nothing
    is played up to the next Turn-list that begins, and a Turn-list that
    begins after the stop was enqueued after it (its ticket is not among
    the tickets handed out before the stop) -- so for the Turn-lists
    enqueued before the stop the player is not run again, and not at all
    when it had not been run for them before. *)
Theorem stop_silences_pending env MAX_CHUNK_LENGTH DEFAULT_SPEAKER rounds requests :
  1 <= MAX_CHUNK_LENGTH ->
  (forall w, exists w1,
      stopAudio w = Some (true, w1, [EvStop])
      /\ isPlayingAudio w1 = false /\ queue w1 = [])
  /\ exists w' evs,
       server env MAX_CHUNK_LENGTH DEFAULT_SPEAKER rounds requests idle
       = Some (tt, w', evs)
       /\ forall pre post,
            evs = pre ++ EvStop :: post ->
            no_exec (until_begin post)
            /\ Forall (fun t => length (enqueued pre) <= t)%nat (begun post).
Proof.
  intros HM. split.
  - intros w. eexists. rewrite stopAudio_effect. by repeat split.
  - destruct (total_server env MAX_CHUNK_LENGTH DEFAULT_SPEAKER HM rounds requests idle)
      as ([] & w' & evs & E & _).
    exists w', evs. split; [exact E|]. intros pre post Hevs.
    pose proof (silenced_server _ _ _ _ _ _ _ _ _ E) as [_ Hs].
    pose proof (late_tickets_server _ _ _ _ _ _ _ _ _ E) as (_ & _ & Hl).
    split; [apply (Hs pre post Hevs)|]. apply (Hl pre post Hevs).
Qed.

(** ** What reaches the synthesizer client *)

Lemma synthesised_app e1 e2 :
  synthesised (e1 ++ e2) = synthesised e1 ++ synthesised e2.
Proof. apply omap_app. Qed.

Lemma synthesised_arrivals evs : Forall is_arrival evs -> synthesised evs = [].
Proof.
  induction 1 as [|e evs He _ IH]; [reflexivity|]. destruct e; try done; exact IH.
Qed.

Lemma io_wait_synthesised env w a w' evs :
  io_wait env w = Some (a, w', evs) -> synthesised evs = [].
Proof. intros H. apply io_wait_frame in H. apply synthesised_arrivals, H. Qed.

Lemma synthesizeSentence_synthesised env o t s w r w' evs :
  synthesizeSentence env o t s w = Some (r, w', evs) -> synthesised evs = [t].
Proof.
  intros H. unfold synthesizeSentence in H. minv.
  match goal with H : io_wait _ _ = Some _ |- _ =>
    apply io_wait_synthesised in H; rename H into Hio end.
  destruct (engine env _ _ _); minv; simpl; rewrite synthesised_app, Hio; reflexivity.
Qed.

Lemma unlinkSync_synthesised p w r w' evs :
  unlinkSync p w = Some (r, w', evs) -> synthesised evs = [].
Proof. unfold unlinkSync. intros H. minv. case_bool_decide; by minv. Qed.

Lemma playAudio_synthesised env f w r w' evs :
  playAudio env f w = Some (r, w', evs) -> synthesised evs = [].
Proof.
  intros H. unfold playAudio, initialize in H. mrun;
    repeat match goal with
    | H : io_wait _ _ = Some _ |- _ => apply io_wait_synthesised in H
    | H : unlinkSync _ _ = Some _ |- _ => apply unlinkSync_synthesised in H
    end;
    rewrite ?synthesised_app; simpl;
    repeat match goal with H : synthesised _ = [] |- _ => rewrite H; clear H end;
    reflexivity.
Qed.

Lemma chunkAt_elem_of chunks i : (i < length chunks)%nat -> chunkAt chunks i ∈ chunks.
Proof.
  intros Hi. unfold chunkAt. destruct (chunks !! i) eqn:E; simpl.
  - by eapply list_elem_of_lookup_2.
  - apply lookup_ge_None in E. lia.
Qed.

(** Reduce the synthesised texts of a run to those of its calls. *)
Ltac synthesised_calls :=
  repeat match goal with
  | H : playAudio _ _ _ = Some _ |- _ => apply playAudio_synthesised in H
  | H : playAudioFile _ _ _ = Some _ |- _ => apply playAudio_synthesised in H
  | H : synthesizeSentence _ _ _ _ _ = Some _ |- _ =>
      apply synthesizeSentence_synthesised in H
  end;
  rewrite ?synthesised_app; simpl;
  repeat match goal with H : synthesised _ = _ |- _ => rewrite H; clear H end;
  simpl.

Section SynthesisedTexts.

Variable env : Env.
Variable chunks : list jsstring.

Lemma steadyLoop_synthesised fuel speaker p buf ci he w r w' evs :
  steadyLoop env fuel chunks speaker p buf ci he w = Some (r, w', evs) ->
  Forall (fun t => t ∈ chunks) (synthesised evs).
Proof.
  revert p buf ci he w evs.
  induction fuel as [|fuel IH]; intros p buf ci he w evs H; simpl in H; mrun;
    try (constructor; fail);
    match goal with H : steadyLoop _ _ _ _ _ _ _ _ _ = Some _ |- _ =>
      apply IH in H end;
    synthesised_calls; try assumption.
  all: constructor; [|assumption].
  all: apply chunkAt_elem_of; by apply Nat.ltb_lt.
Qed.

Lemma sequentialLoop_synthesised fuel speaker buffered ci he w r w' evs :
  sequentialLoop env fuel chunks speaker buffered ci he w = Some (r, w', evs) ->
  Forall (fun t => t ∈ chunks) (synthesised evs).
Proof.
  revert ci he w evs.
  induction fuel as [|fuel IH]; intros ci he w evs H; simpl in H; mrun;
    try (constructor; fail);
    try match goal with H : sequentialLoop _ _ _ _ _ _ _ _ = Some _ |- _ =>
      apply IH in H end;
    synthesised_calls;
    repeat (constructor; [apply chunkAt_elem_of; by apply Nat.ltb_lt|]);
    first [assumption | constructor].
Qed.

Lemma preload_synthesised speaker l w r w' evs :
  Forall (fun i => i < length chunks)%nat l ->
  mapM (fun i => synthesizeSentence env i (chunkAt chunks i) speaker) l w
  = Some (r, w', evs) ->
  Forall (fun t => t ∈ chunks) (synthesised evs).
Proof.
  revert w r evs. induction l as [|i l IH]; intros w r evs Hl H; simpl in H; minv.
  - constructor.
  - inversion Hl; subst.
    match goal with H : mapM _ _ _ = Some _ |- _ => apply IH in H; [|assumption] end.
    synthesised_calls. rewrite app_nil_r.
    constructor; [by apply chunkAt_elem_of|assumption].
Qed.

Lemma processChunksParallel_synthesised speaker w r w' evs :
  processChunksParallel env chunks speaker w = Some (r, w', evs) ->
  Forall (fun t => t ∈ chunks) (synthesised evs).
Proof.
  intros H. unfold processChunksParallel in H.
  case_bool_decide as Hn; minv; [constructor|].
  assert (Hpos : (0 < length chunks)%nat) by lia.
  destruct (usable _); minv.
  - match goal with H : steadyLoop _ _ _ _ _ _ _ _ _ = Some (?x, _, _) |- _ =>
      destruct x as [[buf' ci'] he']; apply steadyLoop_synthesised in H end.
    minv.
    match goal with H : sequentialLoop _ _ _ _ _ _ _ _ = Some _ |- _ =>
      apply sequentialLoop_synthesised in H end.
    match goal with H : mapM _ _ _ = Some _ |- _ =>
      apply preload_synthesised in H end.
    + synthesised_calls. rewrite app_nil_r.
      constructor; [by apply chunkAt_elem_of|].
      repeat (apply Forall_app; split); assumption.
    + apply Forall_forall. intros i Hi. apply elem_of_seq in Hi.
      unfold MAX_PARALLEL in Hi. lia.
  - synthesised_calls. constructor; [by apply chunkAt_elem_of|constructor].
Qed.

End SynthesisedTexts.

(** C10: with [MAX_CHUNK_LENGTH >= 1] the chunker returns and none of its
    chunks is the empty string; and a Turn hands the synthesizer client
    chunks only, so no empty text. *)
Theorem chunks_nonempty env (MAX_CHUNK_LENGTH : Z) (text : jsstring) speaker w :
  1 <= MAX_CHUNK_LENGTH ->
  exists chunks,
    allChunks MAX_CHUNK_LENGTH text = Some chunks
    /\ Forall (fun c => c <> []) chunks
    /\ exists r w' evs,
         textToSpeech env MAX_CHUNK_LENGTH text speaker w = Some (r, w', evs)
         /\ Forall (fun t => t ∈ chunks /\ t <> []) (synthesised evs).
Proof.
  intros HM.
  destruct (allChunks_good MAX_CHUNK_LENGTH text HM) as (cs & E & _ & Hgood).
  assert (Hne : Forall (fun c => c <> []) cs).
  { eapply Forall_impl; [exact Hgood|]. by intros c [Hc _]. }
  exists cs. split; [exact E|]. split; [exact Hne|].
  destruct (total_textToSpeech env MAX_CHUNK_LENGTH HM text speaker w)
    as (r & w' & evs & Et & _).
  exists r, w', evs. split; [exact Et|].
  unfold textToSpeech in Et. rewrite E in Et.
  apply processChunksParallel_synthesised in Et.
  rewrite Forall_forall in *. intros t Ht. split; auto.
Qed.

(** ** The order of playback *)

Lemma played_app e1 e2 : played (e1 ++ e2) = played e1 ++ played e2.
Proof. apply omap_app. Qed.

Lemma played_arrivals evs : Forall is_arrival evs -> played evs = [].
Proof.
  induction 1 as [|e evs He _ IH]; [reflexivity|]. destruct e; try done; exact IH.
Qed.

Lemma io_wait_played env w a w' evs :
  io_wait env w = Some (a, w', evs) -> played evs = [].
Proof. intros H. apply io_wait_frame in H. apply played_arrivals, H. Qed.

Lemma unlinkSync_played p w r w' evs :
  unlinkSync p w = Some (r, w', evs) -> played evs = [].
Proof. unfold unlinkSync. intros H. minv. case_bool_decide; by minv. Qed.

(** A synthesis plays nothing; its result is a failure without a file or a
    success with a file for the chunk it was asked for. *)
Lemma synthesizeSentence_played env o t s w r w' evs :
  synthesizeSentence env o t s w = Some (r, w', evs) ->
  played evs = []
  /\ (r = mkSynthesis false None
      \/ exists p, r = mkSynthesis true (Some (mkTempFile p o))).
Proof.
  intros H. unfold synthesizeSentence in H. minv.
  match goal with H : io_wait _ _ = Some _ |- _ =>
    apply io_wait_played in H; rename H into Hio end.
  destruct (engine env _ _ _); minv; simpl; rewrite played_app, Hio; simpl;
    split; eauto.
Qed.

(** A playback plays its file or nothing. *)
Lemma playAudio_played env f w r w' evs :
  playAudio env f w = Some (r, w', evs) ->
  played evs = [] \/ played evs = [origin f].
Proof.
  intros H. unfold playAudio, initialize in H. mrun;
    repeat match goal with
    | H : io_wait _ _ = Some _ |- _ => apply io_wait_played in H
    | H : unlinkSync _ _ = Some _ |- _ => apply unlinkSync_played in H
    end;
    rewrite ?played_app; simpl;
    repeat match goal with H : played _ = [] |- _ => rewrite H; clear H end;
    simpl; auto.
Qed.

Lemma origins_app b1 b2 : origins (b1 ++ b2) = origins b1 ++ origins b2.
Proof. apply omap_app. Qed.

Lemma origins_cons r buf f :
  tempFile r = Some f -> origins (r :: buf) = origin f :: origins buf.
Proof. intros H. unfold origins. simpl. by rewrite H. Qed.

Lemma origins_lookup buf p r f :
  Forall (fun r => is_Some (tempFile r)) buf ->
  buf !! p = Some r -> tempFile r = Some f -> origins buf !! p = Some (origin f).
Proof.
  intros Hall. revert p. induction Hall as [|r0 buf [f0 Hf0] _ IH]; intros p Hp Hf.
  - by destruct p.
  - rewrite (origins_cons _ _ _ Hf0). destruct p as [|p]; simpl in *.
    + injection Hp as ->. congruence.
    + by apply IH.
Qed.

Lemma sorted_lookup_drop (l : list nat) p a b :
  StronglySorted le l -> l !! p = Some a -> b ∈ drop (S p) l -> (a <= b)%nat.
Proof.
  intros Hs Hp Hb.
  rewrite <- (take_drop (S p) l) in Hs.
  apply (StronglySorted_app_1_elem_of _ _ _ a b Hs); [|exact Hb].
  apply list_elem_of_lookup. exists p. rewrite lookup_take_lt; [exact Hp|lia].
Qed.

Lemma buffer_inv_step buf ci : buffer_inv buf ci -> buffer_inv buf (S ci).
Proof.
  intros (H1 & H2 & H3). repeat split; try assumption.
  eapply Forall_impl; [exact H3|]. simpl. intros; lia.
Qed.

Lemma buffer_inv_push buf ci p :
  buffer_inv buf ci ->
  buffer_inv (buf ++ [mkSynthesis true (Some (mkTempFile p (ci + length buf)))]) (S ci).
Proof.
  intros (H1 & H2 & H3). repeat split.
  - apply Forall_app. split; [exact H1|]. repeat constructor. by eexists.
  - rewrite origins_app. apply StronglySorted_app_2; [|exact H2|repeat constructor].
    intros x1 x2 Hx1 Hx2. apply list_elem_of_singleton in Hx2 as ->.
    rewrite Forall_forall in H3. by apply H3.
  - rewrite origins_app, length_app. simpl. apply Forall_app. split.
    + eapply Forall_impl; [exact H3|]. simpl. intros; lia.
    + repeat constructor. lia.
Qed.

Section PlaybackOrder.

Variable env : Env.

Lemma steadyLoop_played fuel chunks speaker p buf ci he w buf' ci' he' w' evs :
  steadyLoop env fuel chunks speaker p buf ci he w = Some ((buf', ci', he'), w', evs) ->
  buffer_inv buf ci ->
  buf `prefix_of` buf'
  /\ buffer_inv buf' ci'
  /\ StronglySorted le (played evs)
  /\ Forall (fun o => o ∈ drop p (origins buf')) (played evs).
Proof.
  revert p buf ci he w evs.
  induction fuel as [|fuel IH]; intros p buf ci he w evs H Hinv; simpl in H.
  - mrun; simplify_eq; (split; [reflexivity|]); (split; [assumption|]);
      split; constructor.
  - destruct (buf !! p) as [r0|] eqn:Ep; minv;
      [|simplify_eq; split; [reflexivity|]; split; [assumption|]; split; constructor].
    destruct (isPlayingAudio _); [|minv; simplify_eq; split; [reflexivity|]; split;
      [assumption|]; split; constructor].
    destruct (tempFile r0) as [file|] eqn:Ef; [|minv; simplify_eq; split;
      [reflexivity|]; split; [assumption|]; split; constructor].
    apply bind_Some in H as (playResult & w1 & e_play & e1 & Hplay & H & ->).
    apply bind_Some in H as (next & w2 & e_next & e_rest & Hnext & H & ->).
    apply playAudio_played in Hplay.
    match type of H with steadyLoop _ _ _ _ _ ?b _ _ _ = _ => set (grown := b) in * end.
    assert (Hgrown : played e_next = [] /\ buffer_inv grown (S ci)
                     /\ buf `prefix_of` grown).
    { unfold grown. destruct (ci + length buf <? length chunks)%nat; minv.
      - match goal with H : synthesizeSentence _ _ _ _ _ = Some _ |- _ =>
          apply synthesizeSentence_played in H; destruct H as [Hs [->|[q ->]]] end;
          rewrite played_app, Hs; simpl.
        + split; [reflexivity|]. split; [by apply buffer_inv_step|reflexivity].
        + split; [reflexivity|].
          split; [by apply buffer_inv_push|by apply prefix_app_r].
      - split; [reflexivity|]. split; [by apply buffer_inv_step|reflexivity]. }
    destruct Hgrown as (Hrest & Hnextinv & Hpre).
    apply IH in H; [|exact Hnextinv].
    destruct H as (Hpre' & Hinv' & Hsorted & Hmem).
    assert (Hpre2 : buf `prefix_of` buf') by (etrans; eassumption).
    split; [exact Hpre2|]. split; [exact Hinv'|].
    rewrite !played_app, Hrest. simpl.
    assert (Hp' : origins buf' !! p = Some (origin file)).
    { destruct Hinv' as (Hfiles & _ & _).
      eapply origins_lookup; [exact Hfiles| |exact Ef].
      eapply prefix_lookup_Some; eassumption. }
    assert (Hdrop : forall o, o ∈ drop (S p) (origins buf') -> o ∈ drop p (origins buf')).
    { intros o Ho. rewrite (drop_S _ _ _ Hp'). apply elem_of_cons; by right. }
    destruct Hplay as [-> | ->]; simpl.
    + split; [exact Hsorted|]. eapply Forall_impl; [exact Hmem|]. exact Hdrop.
    + split.
      * constructor; [exact Hsorted|].
        eapply Forall_impl; [exact Hmem|]. simpl. intros o Ho.
        destruct Hinv' as (_ & Hs' & _).
        exact (sorted_lookup_drop _ _ _ _ Hs' Hp' Ho).
      * constructor.
        -- rewrite (drop_S _ _ _ Hp'). apply elem_of_cons; by left.
        -- eapply Forall_impl; [exact Hmem|]. exact Hdrop.
Qed.

Lemma sequentialLoop_played fuel chunks speaker buffered ci he w he' w' evs :
  sequentialLoop env fuel chunks speaker buffered ci he w = Some (he', w', evs) ->
  StronglySorted le (played evs)
  /\ Forall (fun o => ci + buffered <= o)%nat (played evs).
Proof.
  revert ci he w evs.
  induction fuel as [|fuel IH]; intros ci he w evs H; simpl in H.
  - mrun; split; constructor.
  - destruct (ci + buffered <? length chunks)%nat; [|minv; split; constructor].
    apply bind_Some in H as (playing & w0 & ea & eb & Hc & H & ->).
    unfold checkPlayState in Hc. minv.
    destruct (isPlayingAudio _); simpl in H; [|minv; split; constructor].
    apply bind_Some in H as (r & w1 & e_synth & ec & Hs & H & ->).
    apply synthesizeSentence_played in Hs as [Hs Hshape].
    apply bind_Some in H as (playing' & w2 & ed & ee & Hc & H & ->).
    unfold checkPlayState in Hc. minv.
    rewrite !played_app, Hs. simpl.
    destruct (isPlayingAudio _); simpl in H; [|minv; split; constructor].
    destruct Hshape as [->|[q ->]]; simpl in H.
    + apply IH in H as [H1 H2]. split; [exact H1|].
      eapply Forall_impl; [exact H2|]. simpl. intros; lia.
    + apply bind_Some in H as (playResult & w3 & e_play & e_rest & Hp & H & ->).
      apply playAudio_played in Hp. apply IH in H as [H1 H2].
      rewrite played_app.
      assert (H2' : Forall (fun o => ci + buffered <= o)%nat (played e_rest)).
      { eapply Forall_impl; [exact H2|]. simpl. intros; lia. }
      destruct Hp as [-> | ->]; simpl; [by split|].
      split; [constructor; [exact H1|exact H2']|]. constructor; [lia|exact H2'].
Qed.

Lemma preload_played chunks speaker l w rs w' evs :
  mapM (fun i => synthesizeSentence env i (chunkAt chunks i) speaker) l w
  = Some (rs, w', evs) ->
  played evs = []
  /\ Forall2 (fun i r => r = mkSynthesis false None
                         \/ exists q, r = mkSynthesis true (Some (mkTempFile q i)))
             l rs.
Proof.
  revert w rs evs. induction l as [|i l IH]; intros w rs evs H; simpl in H.
  - minv. split; [reflexivity|constructor].
  - apply bind_Some in H as (r & w1 & e1 & e2 & Hs & H & ->).
    apply bind_Some in H as (rs' & w2 & e3 & e4 & Hm & H & ->). minv.
    apply synthesizeSentence_played in Hs as [Hs Hshape].
    apply IH in Hm as [Hm Hall].
    rewrite !played_app, Hs, Hm. split; [reflexivity|by constructor].
Qed.

(** The lookahead batch leaves a buffer that the steady-state loop can
    start from. *)
Lemma preload_buffer_inv k rs :
  (k <= 2)%nat ->
  Forall2 (fun i r => r = mkSynthesis false None
                      \/ exists q, r = mkSynthesis true (Some (mkTempFile q i)))
          (seq 1 k) rs ->
  buffer_inv (filter (fun r => success r = true) rs) 1.
Proof.
  intros Hk Hall.
  assert (Hempty : buffer_inv [] 1) by (repeat split; constructor).
  assert (Hone : forall q i, (1 <= i <= 2)%nat ->
                             buffer_inv [mkSynthesis true (Some (mkTempFile q i))] 1).
  { intros q i Hi. unfold buffer_inv, origins. simpl. split; [|split].
    - constructor; [by eexists|constructor].
    - repeat constructor.
    - constructor; [lia|constructor]. }
  destruct k as [|[|[|k]]]; [| | |lia]; simpl in Hall.
  - inversion Hall; subst. exact Hempty.
  - inversion Hall as [|? r1 ? ? H1 Hr]; subst. inversion Hr; subst.
    destruct H1 as [->|[q ->]].
    + rewrite filter_cons_False by done. exact Hempty.
    + rewrite filter_cons_True by done. apply Hone. lia.
  - inversion Hall as [|? r1 ? ? H1 Hr]; subst.
    inversion Hr as [|? r2 ? ? H2 Hr']; subst. inversion Hr'; subst.
    destruct H1 as [->|[q1 ->]], H2 as [->|[q2 ->]];
      rewrite ?filter_cons_False, ?filter_cons_True by done;
      rewrite ?filter_cons_False, ?filter_cons_True by done;
      rewrite ?filter_nil.
    + exact Hempty.
    + apply Hone. lia.
    + apply Hone. lia.
    + unfold buffer_inv, origins. simpl. split; [|split].
      * constructor; [by eexists|]. constructor; [by eexists|constructor].
      * constructor; [repeat constructor|]. constructor; [lia|constructor].
      * constructor; [lia|]. constructor; [lia|constructor].
Qed.

(** X11: the part of the ordering that the code keeps: no chunk is played
    after a later one, whatever the engine, the player and the tool calls
    do.  (It can be played twice: [chunk_played_twice].) *)
Lemma played_never_descends chunks speaker w r w' evs :
  processChunksParallel env chunks speaker w = Some (r, w', evs) ->
  StronglySorted le (played evs).
Proof.
  intros H. unfold processChunksParallel in H.
  case_bool_decide as Hn; [minv; constructor|].
  apply bind_Some in H as (r0 & w1 & e0 & e1 & Hs0 & H & ->).
  apply synthesizeSentence_played in Hs0 as [Hs0 Hshape].
  rewrite played_app, Hs0. simpl.
  destruct Hshape as [->|[q ->]]; simpl in H; [minv; constructor|].
  apply bind_Some in H as (rs & w2 & e_pre & e2 & Hpre & H & ->).
  apply preload_played in Hpre as [Hpre Hall].
  apply bind_Some in H as (playResult & w3 & e_play & e3 & Hplay & H & ->).
  apply playAudio_played in Hplay. simpl in Hplay.
  apply bind_Some in H as ([[buf' ci'] he'] & w4 & e_steady & e4 & Hsteady & H & ->).
  apply bind_Some in H as (he'' & w5 & e_seq & e5 & Hseq & H & ->). minv.
  apply steadyLoop_played in Hsteady.
  2:{ eapply preload_buffer_inv; [|exact Hall]. unfold MAX_PARALLEL. lia. }
  destruct Hsteady as (_ & (_ & _ & Hbound) & Hsorted & Hmem).
  apply sequentialLoop_played in Hseq as [Hqsorted Hqbound].
  rewrite !played_app, Hpre, app_nil_r. simpl.
  assert (Hrest : StronglySorted le (played e_steady ++ played e_seq)).
  { apply StronglySorted_app_2; [|exact Hsorted|exact Hqsorted].
    intros x1 x2 Hx1 Hx2.
    rewrite Forall_forall in Hmem, Hbound, Hqbound.
    specialize (Hmem x1 Hx1). rewrite drop_0 in Hmem.
    specialize (Hbound x1 Hmem). specialize (Hqbound x2 Hx2). lia. }
  destruct Hplay as [-> | ->]; simpl; [exact Hrest|].
  constructor; [exact Hrest|]. apply Forall_forall. intros; lia.
Qed.

End PlaybackOrder.

(** ** More about the sentence splitter *)

Lemma trimStart_head s c s' : trimStart s = c :: s' -> is_whitespace c = false.
Proof.
  induction s as [|d s IH]; simpl; [discriminate|].
  destruct (is_whitespace d) eqn:E; [exact IH|]. by intros [= <- <-].
Qed.

Lemma trimStart_idem s : trimStart (trimStart s) = trimStart s.
Proof.
  destruct (trimStart s) as [|c s'] eqn:E; [reflexivity|].
  apply trimStart_head in E. simpl. by rewrite E.
Qed.

Lemma trimEnd_idem s : trimEnd (trimEnd s) = trimEnd s.
Proof. unfold trimEnd. by rewrite rev_involutive, trimStart_idem. Qed.

Lemma trimStart_trimEnd s : trimStart (trimEnd (trimStart s)) = trimEnd (trimStart s).
Proof.
  destruct (trimEnd_spec (trimStart s)) as (w & E & _).
  destruct (trimEnd (trimStart s)) as [|c t] eqn:Et; [reflexivity|].
  simpl in E. apply trimStart_head in E. simpl. by rewrite E.
Qed.

Lemma trim_idem s : trim (trim s) = trim s.
Proof. unfold trim. by rewrite trimStart_trimEnd, trimEnd_idem. Qed.

Lemma sentence_trimmed text sentence :
  sentence ∈ splitTextIntoSentences text -> trim sentence = sentence.
Proof.
  rewrite splitTextIntoSentences_eq. intros Hin.
  apply list_elem_of_filter in Hin as [_ Hin].
  apply list_elem_of_fmap in Hin as (p & -> & _). apply trim_idem.
Qed.

(** X1: every sentence the splitter returns is non-empty, has no
    whitespace at either end ([trim] leaves it as it is) and holds a
    terminator, if any, only as its last code unit. *)
Theorem sentences_trimmed text :
  Forall (fun sentence => sentence <> [] /\ trim sentence = sentence
                          /\ last_only sentence)
         (splitTextIntoSentences text).
Proof.
  apply Forall_forall. intros sentence Hin.
  destruct (sentences_last_only _ _ Hin) as [Hlast Hne].
  repeat split; try assumption. by eapply sentence_trimmed.
Qed.

(** X2: the guard of the fallback [return [text.trim()]] is false on
    every text: when no piece survives the filter the text is blank, so
    the branch is never taken. *)
Theorem fallback_never_taken text :
  let sentences :=
    filter (fun sentence => 0 < jslength sentence)
           (map trim (split_after_terminator text)) in
  (bool_decide (length sentences = 0%nat) && (0 <? jslength (trim text))) = false.
Proof.
  intros sentences. apply andb_false_iff.
  destruct sentences as [|s l] eqn:E; [right|left; by apply bool_decide_eq_false].
  apply filter_trim_nil in E. rewrite split_concat in E.
  by rewrite (trim_whitespace text E).
Qed.

Lemma split_last_only_whole s :
  last_only s -> s <> [] -> split_after_terminator s = [s].
Proof.
  induction s as [|c s IH]; intros Hlast Hne; [done|]. simpl.
  destruct s as [|d s].
  - rewrite bool_decide_eq_true_2 by done. by rewrite andb_false_r.
  - assert (Hc : is_terminator c = false).
    { destruct (is_terminator c) eqn:E; [|reflexivity].
      specialize (Hlast 0%nat c eq_refl E). simpl in Hlast. lia. }
    rewrite Hc. simpl andb. cbv iota.
    rewrite IH; [reflexivity| |done].
    by apply (last_only_drop 1 (c :: d :: s)).
Qed.

(** X3: splitting a sentence again gives that sentence back. *)
Theorem sentence_splits_to_itself text sentence :
  sentence ∈ splitTextIntoSentences text ->
  splitTextIntoSentences sentence = [sentence].
Proof.
  intros Hin.
  destruct (sentences_last_only _ _ Hin) as [Hlast Hne].
  rewrite splitTextIntoSentences_eq, split_last_only_whole by assumption.
  simpl. rewrite (sentence_trimmed _ _ Hin). rewrite filter_cons_True; [reflexivity|].
  unfold jslength. destruct sentence; [done|simpl; lia].
Qed.

(** X4: the splitter returns no sentence exactly on the texts that are
    blank (empty or whitespace only). *)
Theorem no_sentence_iff_blank text :
  splitTextIntoSentences text = [] <-> all_whitespace text.
Proof.
  rewrite splitTextIntoSentences_eq. split.
  - intros H. apply filter_trim_nil in H. by rewrite split_concat in H.
  - intros H. apply whitespace_pieces. by rewrite split_concat.
Qed.

(** ** More about the cut *)

(** [s.substring(a, b)] with [0 <= a <= b] is the slice from [a] of length [b - a]. *)
Lemma substring_slice s a b :
  0 <= a <= b ->
  substring s a (Some b) = take (Z.to_nat (b - a)) (drop (Z.to_nat a) s).
Proof.
  intros Hab. unfold substring, clamp. simpl.
  destruct (Z.le_gt_cases a (jslength s)) as [Ha|Ha].
  - rewrite (Z.max_l a 0), (Z.min_l a (jslength s)), (Z.max_l b 0) by lia.
    destruct (Z.le_gt_cases b (jslength s)) as [Hb|Hb].
    + rewrite (Z.min_l b), Z.min_l, Z.max_r by lia. reflexivity.
    + rewrite (Z.min_r b), Z.min_l, Z.max_r by lia.
      unfold jslength in *.
      rewrite !take_ge by (rewrite length_drop; lia). reflexivity.
  - rewrite (Z.max_l a 0), (Z.min_r a (jslength s)), (Z.max_l b 0),
      (Z.min_r b (jslength s)) by lia.
    rewrite Z.min_l, Z.max_l by lia. unfold jslength in *.
    rewrite Z.sub_diag. rewrite (drop_ge s (Z.to_nat a)) by lia. by rewrite take_nil.
Qed.

Section Slices.

Variable MAX_CHUNK_LENGTH : Z.
Hypothesis MAX_positive : 1 <= MAX_CHUNK_LENGTH.

Lemma cutLoop_slices fuel s cs :
  last_only s ->
  cutLoop MAX_CHUNK_LENGTH fuel s = Some cs ->
  jslength s <= Z.of_nat (length cs) * MAX_CHUNK_LENGTH < jslength s + MAX_CHUNK_LENGTH
  /\ forall (i : nat) c,
       cs !! i = Some c ->
       c = take (Z.to_nat MAX_CHUNK_LENGTH) (drop (i * Z.to_nat MAX_CHUNK_LENGTH) s).
Proof.
  revert s cs. induction fuel as [|fuel IH]; intros s cs Hlast H.
  - destruct s; [|discriminate]. simpl in H. injection H as <-.
    split; [unfold jslength; simpl; lia|]. intros i c Hi. by destruct i.
  - destruct s as [|c0 s0].
    { simpl in H. injection H as <-.
      split; [unfold jslength; simpl; lia|]. intros i c Hi. by destruct i. }
    set (r := c0 :: s0) in *.
    assert (Hr : r <> []) by done.
    pose proof (chunkEndOf_bounds _ MAX_positive r Hr) as Hb.
    pose proof (chunkEndOf_last_only MAX_CHUNK_LENGTH r Hlast) as He.
    change (cutLoop MAX_CHUNK_LENGTH (S fuel) r) with
      (if (0 <? jslength r) then
         (rest ← cutLoop MAX_CHUNK_LENGTH fuel
                   (substring r (chunkEndOf MAX_CHUNK_LENGTH r) None);
          Some (substring r 0 (Some (chunkEndOf MAX_CHUNK_LENGTH r)) :: rest))
       else Some []) in H.
    assert (Hpos : (0 <? jslength r) = true).
    { apply Z.ltb_lt. unfold jslength, r. simpl. lia. }
    rewrite Hpos, substring_take, substring_drop in H by lia.
    destruct (cutLoop _ fuel _) as [rest|] eqn:Erest; [|discriminate].
    simpl in H. injection H as <-.
    apply IH in Erest; [|by apply last_only_drop].
    destruct Erest as [Hlen Hslices].
    set (m := Z.to_nat MAX_CHUNK_LENGTH) in *.
    set (e := Z.to_nat (chunkEndOf MAX_CHUNK_LENGTH r)) in *.
    assert (Hem : e = Nat.min (length r) m).
    { unfold e, m. rewrite He. unfold jslength. lia. }
    assert (Hdl : jslength (drop e r) = jslength r - Z.of_nat e).
    { unfold jslength. rewrite length_drop. lia. }
    rewrite Hdl in Hlen. split.
    + simpl length. rewrite Nat2Z.inj_succ. unfold jslength in *.
      assert (Hr1 : (1 <= length r)%nat) by (unfold r; simpl; lia).
      destruct (Nat.min_spec (length r) m) as [[Hlt Hmin]|[Hge Hmin]];
        rewrite Hmin in Hem; unfold m in *; clearbody e; subst e.
      * destruct rest as [|x rest']; simpl length in *; [lia|nia].
      * nia.
    + assert (Hm1 : (1 <= m)%nat) by (unfold m; lia).
      clearbody m e.
      intros [|i] c Hi; simpl in Hi.
      * injection Hi as <-. rewrite Nat.mul_0_l, drop_0.
        rewrite Hem. destruct (Nat.min_spec (length r) m) as [[? ->]|[? ->]];
          [|reflexivity].
        by rewrite !take_ge by lia.
      * apply Hslices in Hi. rewrite drop_drop in Hi.
        destruct (decide (length r <= m)%nat) as [Hs|Hs].
        -- rewrite drop_ge in Hi by lia. rewrite drop_ge by lia. exact Hi.
        -- replace (e + i * m)%nat with (S i * m)%nat in Hi by lia. exact Hi.
Qed.

(** X5: the chunks of a sentence of the splitter are its consecutive
    slices of [MAX_CHUNK_LENGTH] code units, [sentence.substring(i * MAX,
    (i + 1) * MAX)]: the scan for the ideographic full stop never moves a
    cut, whatever the sentence holds.  There are as many chunks as it
    takes to cover the sentence. *)
Theorem sentence_cut_in_slices text sentence :
  sentence ∈ splitTextIntoSentences text ->
  exists chunks,
    chunksOfSentence MAX_CHUNK_LENGTH sentence = Some chunks
    /\ jslength sentence <= Z.of_nat (length chunks) * MAX_CHUNK_LENGTH
       < jslength sentence + MAX_CHUNK_LENGTH
    /\ forall (i : nat) c,
         chunks !! i = Some c ->
         c = substring sentence (Z.of_nat i * MAX_CHUNK_LENGTH)
                                (Some ((Z.of_nat i + 1) * MAX_CHUNK_LENGTH)).
Proof.
  intros Hin. apply sentences_last_only in Hin as [Hlast Hne].
  destruct (chunksOfSentence_spec MAX_CHUNK_LENGTH MAX_positive sentence Hne)
    as (cs & E & _). exists cs. split; [exact E|].
  assert (H : jslength sentence <= Z.of_nat (length cs) * MAX_CHUNK_LENGTH
              < jslength sentence + MAX_CHUNK_LENGTH
              /\ forall (i : nat) c,
                   cs !! i = Some c ->
                   c = take (Z.to_nat MAX_CHUNK_LENGTH)
                            (drop (i * Z.to_nat MAX_CHUNK_LENGTH) sentence)).
  { unfold chunksOfSentence in E.
    destruct (MAX_CHUNK_LENGTH <? jslength sentence) eqn:El.
    - by eapply cutLoop_slices.
    - apply Z.ltb_ge in El. injection E as <-. split.
      + simpl. assert (1 <= jslength sentence); [|lia].
        unfold jslength. destruct sentence; [done|simpl; lia].
      + intros [|i] c Hi; [|by destruct i]. injection Hi as <-. simpl.
        rewrite drop_0, take_ge; [reflexivity|]. unfold jslength in El. lia. }
  destruct H as [Hlen Hslices]. split; [exact Hlen|].
  intros i c Hi. rewrite (Hslices i c Hi), substring_slice by lia.
  f_equal; [lia|]. f_equal. lia.
Qed.

End Slices.

(** The chunker fails to return only for a limit of zero or less. *)
Lemma allChunks_None MAX_CHUNK_LENGTH text :
  allChunks MAX_CHUNK_LENGTH text = None -> MAX_CHUNK_LENGTH <= 0.
Proof.
  intros H. destruct (Z_le_gt_dec MAX_CHUNK_LENGTH 0) as [Hle|Hgt]; [exact Hle|].
  destruct (allChunks_good MAX_CHUNK_LENGTH text) as (cs & E & _); [lia|].
  congruence.
Qed.

Section Nonpositive.

Variable MAX_CHUNK_LENGTH : Z.
Hypothesis MAX_nonpositive : MAX_CHUNK_LENGTH <= 0.

Lemma chunkEndOf_nonpositive s : s <> [] -> chunkEndOf MAX_CHUNK_LENGTH s = MAX_CHUNK_LENGTH.
Proof.
  intros Hs. assert (1 <= jslength s).
  { unfold jslength. destruct s; [done|simpl; lia]. }
  unfold chunkEndOf. rewrite Z.min_r by lia.
  replace (Z.to_nat MAX_CHUNK_LENGTH) with 0%nat by lia. simpl.
  destruct (MAX_CHUNK_LENGTH <? 2 * MAX_CHUNK_LENGTH) eqn:E; [|reflexivity].
  apply Z.ltb_lt in E. lia.
Qed.

Lemma cutLoop_never_ends fuel s : s <> [] -> cutLoop MAX_CHUNK_LENGTH fuel s = None.
Proof.
  intros Hs. assert (Hpos : (0 <? jslength s) = true).
  { apply Z.ltb_lt. unfold jslength. destruct s; [done|simpl; lia]. }
  induction fuel as [|fuel IH]; simpl; rewrite Hpos; [reflexivity|].
  rewrite (chunkEndOf_nonpositive s Hs).
  assert (Hsame : substring s MAX_CHUNK_LENGTH None = s).
  { unfold substring, clamp. simpl. apply Z.ltb_lt in Hpos.
    rewrite (Z.max_r MAX_CHUNK_LENGTH 0), (Z.min_l 0 (jslength s)),
      (Z.max_l (jslength s) 0), (Z.min_l (jslength s) (jslength s)),
      (Z.min_l 0 (jslength s)), (Z.max_r 0 (jslength s)) by lia.
    simpl. rewrite Z.sub_0_r. apply take_ge. unfold jslength. lia. }
  rewrite Hsame, IH. reflexivity.
Qed.

(** X6: with a [MAX_CHUNK_LENGTH] of zero or less, [textToSpeech] fails
    on every text that is not blank, with no engine call, no playback and
    no change of state: the first sentence is longer than the limit and
    the cut loop makes no progress on it, whatever the number of rounds,
    so that the run ends in the [catch]. *)
Theorem nonpositive_limit_fails env text speaker w :
  ~ all_whitespace text ->
  (exists sentence more,
      splitTextIntoSentences text = sentence :: more
      /\ MAX_CHUNK_LENGTH < jslength sentence
      /\ forall fuel, cutLoop MAX_CHUNK_LENGTH fuel sentence = None)
  /\ textToSpeech env MAX_CHUNK_LENGTH text speaker w = Some (false, w, []).
Proof.
  intros Hblank.
  destruct (splitTextIntoSentences text) as [|sentence more] eqn:E.
  { exfalso. apply Hblank. rewrite splitTextIntoSentences_eq in E.
    apply filter_trim_nil in E. by rewrite split_concat in E. }
  assert (Hne : sentence <> []).
  { eapply (sentences_last_only text). rewrite E. apply elem_of_cons. by left. }
  assert (Hlong : MAX_CHUNK_LENGTH < jslength sentence).
  { unfold jslength. destruct sentence; [done|simpl; lia]. }
  split.
  - exists sentence, more. split; [reflexivity|]. split; [exact Hlong|].
    intros fuel. by apply cutLoop_never_ends.
  - unfold textToSpeech, allChunks. rewrite E. simpl. unfold chunksOfSentence.
    apply Z.ltb_lt in Hlong. rewrite Hlong, cutLoop_never_ends by done. reflexivity.
Qed.

End Nonpositive.

(** X7: on a blank text [textToSpeech] reports success at once, whatever
    the limit is: no engine call, no playback, no change of state. *)
Theorem blank_turn_succeeds env MAX_CHUNK_LENGTH text speaker w :
  all_whitespace text ->
  textToSpeech env MAX_CHUNK_LENGTH text speaker w = Some (true, w, []).
Proof.
  intros H. unfold textToSpeech, allChunks.
  rewrite splitTextIntoSentences_eq, whitespace_pieces by (by rewrite split_concat).
  reflexivity.
Qed.

(** ** More about the playback sink *)

Lemma filter_absent (p : nat) (l : list nat) :
  p ∉ l -> filter (fun q => q ≠ p) l = l.
Proof.
  induction l as [|x l IH]; [reflexivity|]. intros H.
  rewrite not_elem_of_cons in H. destruct H as [Hx Hl].
  rewrite filter_cons_True by congruence. by rewrite IH.
Qed.

Section PlaybackOutcome.

Variable env : Env.

(** Whether [playAudio] runs the platform command, what it reports, and
    what it leaves of the disk. *)
Lemma playAudio_effect tempFile w r w' evs :
  playAudio env tempFile w = Some (r, w', evs) ->
  (EvExec tempFile ∈ evs <-> initialized w = true /\ isPlayingAudio w = true)
  /\ (r = true <-> initialized w = true /\ isPlayingAudio w = true
                   /\ player env (playCalls w) = true /\ path tempFile ∈ files w)
  /\ files w' = (if initialized w && isPlayingAudio w && negb (player env (playCalls w))
                 then files w
                 else filter (fun q => q ≠ path tempFile) (files w)).
Proof.
  intros H. unfold playAudio, initialize in H.
  apply bind_Some in H as (w0 & ? & ? & ? & Hget & H & ->).
  apply get_Some in Hget as (-> & -> & ->).
  assert (Hrefused : forall w1 a w2 e,
             files w1 = files w ->
             unlinkSync (path tempFile) w1 = Some (a, w2, e) ->
             (EvExec tempFile ∉ e)
             /\ files w2 = filter (fun q => q ≠ path tempFile) (files w)).
  { intros w1 a w2 e Hf Hu. unfold unlinkSync in Hu. minv. rewrite Hf in *.
    case_bool_decide as Hin; minv; simpl.
    - split; [|reflexivity]. intros Hx. apply elem_of_cons in Hx as [Hx|Hx]; [done|].
      by apply elem_of_nil in Hx.
    - split; [apply not_elem_of_nil|]. rewrite Hf. symmetry. by apply filter_absent. }
  destruct (initialized w) eqn:Ei.
  - minv. destruct (isPlayingAudio w) eqn:Ef; simpl in *; minv.
    + match goal with H : io_wait _ _ = Some (_, _, ?e) |- _ =>
        apply io_wait_frame in H;
        destruct H as (Hfiles & _ & _ & _ & _ & _ & _ & _ & _ & Harr) end.
      simpl in *.
      split; [split; [done|]; intros _; apply elem_of_cons; by left|].
      destruct (player env (playCalls w)) eqn:Ep; minv; simpl.
      * match goal with H : unlinkSync _ _ = Some _ |- _ =>
          pose proof (Hrefused _ _ _ _ Hfiles H) as [_ Hfs];
          unfold unlinkSync in H end.
        minv. rewrite Hfiles in *. split; [|exact Hfs].
        case_bool_decide as Hin; minv; [by split|].
        split; [done|]. by intros (_ & _ & _ & ?).
      * split; [|exact Hfiles]. split; [done|]. by intros (_ & _ & ? & _).
    + eapply Hrefused in H0; [destruct H0 as [Hne Hfs]|reflexivity].
      rewrite app_nil_r. split; [|split; [|exact Hfs]].
      * split; [done|]. by intros [_ ?].
      * split; [done|]. by intros (_ & ? & _).
  - minv. rewrite ?Ei in *. minv. cbn [isPlayingAudio set_isPlayingAudio negb] in *.
    minv.
    match goal with H : unlinkSync _ _ = Some _ |- _ =>
      eapply Hrefused in H; [destruct H as [Hne Hfs]|reflexivity] end.
    simpl. rewrite app_nil_r. split; [|split; [|exact Hfs]].
    + split; [done|]. by intros [? _].
    + split; [done|]. by intros (? & _).
Qed.


Lemma playAudio_initialized tempFile w r w' evs :
  playAudio env tempFile w = Some (r, w', evs) -> initialized w' = true.
Proof.
  intros H. unfold playAudio, initialize, unlinkSync in H. mrun;
    repeat match goal with
    | H : io_wait _ _ = Some _ |- _ =>
        apply io_wait_frame in H; destruct H as (_&_&H&_)
    end; simpl in *; congruence.
Qed.

(** X8: [playAudio] runs the platform command exactly when the player is
    initialised and the flag is set; it reports success exactly when, in
    addition, the command exits without error and the file is there to be
    removed; and afterwards the file is gone unless the command was run
    and failed, while every other file is where it was. *)
Theorem playAudio_outcome tempFile w r w' evs :
  playAudio env tempFile w = Some (r, w', evs) ->
  (EvExec tempFile ∈ evs <-> initialized w = true /\ isPlayingAudio w = true)
  /\ (r = true <-> initialized w = true /\ isPlayingAudio w = true
                   /\ player env (playCalls w) = true /\ path tempFile ∈ files w)
  /\ (path tempFile ∈ files w' <->
        path tempFile ∈ files w /\ initialized w = true /\ isPlayingAudio w = true
        /\ player env (playCalls w) = false)
  /\ (forall q, q <> path tempFile -> q ∈ files w' <-> q ∈ files w).
Proof.
  intros H. apply playAudio_effect in H as (Hexec & Hr & Hfs).
  split; [exact Hexec|]. split; [exact Hr|]. rewrite Hfs.
  destruct (initialized w), (isPlayingAudio w), (player env (playCalls w)); simpl;
    (split; [|intros q Hq]); rewrite ?list_elem_of_filter; intuition congruence.
Qed.

(** X9: [playAudio] leaves the player initialised; on a player that was
    not, it runs no command and reports failure whatever the flag was,
    because [initialize] clears the flag first. *)
Theorem playAudio_initializes tempFile w r w' evs :
  playAudio env tempFile w = Some (r, w', evs) ->
  initialized w' = true
  /\ (initialized w = false ->
      r = false /\ no_exec evs /\ isPlayingAudio w' = false
      /\ playCalls w' = playCalls w).
Proof.
  intros H. unfold playAudio, initialize in H.
  apply bind_Some in H as (w0 & ? & ? & ? & Hget & H & ->).
  apply get_Some in Hget as (-> & -> & ->).
  destruct (initialized w) eqn:Ei.
  - split; [|done]. rewrite ?Ei in *. minv. destruct (isPlayingAudio w) eqn:Ef; simpl in *; minv.
    + match goal with H : io_wait _ _ = Some (_, _, ?e) |- _ =>
        apply io_wait_frame in H;
        destruct H as (_ & _ & Hinit & _) end.
      simpl in *. destruct (player env (playCalls w)); minv; simpl; [|congruence].
      unfold unlinkSync in *. minv. case_bool_decide; minv; simpl; congruence.
    + unfold unlinkSync in *. minv. case_bool_decide; minv; simpl; congruence.
  - rewrite ?Ei in *. minv. rewrite ?Ei in *. minv.
    cbn [isPlayingAudio set_isPlayingAudio negb] in *. minv.
    unfold unlinkSync in *. minv.
    case_bool_decide; minv; simpl; repeat split; auto; repeat constructor.
Qed.

End PlaybackOutcome.

(** ** What a run of the scheduler keeps

    An invariant of the world, a property of the files in the lookahead
    buffer and a property of the events, kept by each engine call and by
    each playback of a file with the property, are kept by a run. *)

Section SchedulerInvariant.

Variable env : Env.
Variable chunks : list jsstring.
Variable speaker : Z.
Variable I : World -> Prop.
Variable P : TempFile -> Prop.
Variable E : Event -> Prop.

Hypothesis synth_inv :
  forall o w r w' evs,
    (o < length chunks)%nat ->
    synthesizeSentence env o (chunkAt chunks o) speaker w = Some (r, w', evs) ->
    I w -> I w' /\ Forall E evs /\ (forall f, tempFile r = Some f -> P f).
Hypothesis play_inv :
  forall f w r w' evs,
    P f -> playAudio env f w = Some (r, w', evs) -> I w -> I w' /\ Forall E evs.

Lemma steadyLoop_inv fuel p buf ci he w res w' evs :
  steadyLoop env fuel chunks speaker p buf ci he w = Some (res, w', evs) ->
  I w -> Forall (fun r => forall f, tempFile r = Some f -> P f) buf ->
  I w' /\ Forall E evs.
Proof.
  revert p buf ci he w evs.
  induction fuel as [|fuel IH]; intros p buf ci he w evs H Hw Hbuf; simpl in H.
  - mrun; by split.
  - destruct (buf !! p) as [r0|] eqn:Ep; minv; [|by split].
    destruct (isPlayingAudio _); [|minv; by split].
    destruct (tempFile r0) as [file|] eqn:Ef; [|minv; by split].
    apply bind_Some in H as (playResult & w1 & e_play & e1 & Hplay & H & ->).
    apply bind_Some in H as (next & w2 & e_next & e_rest & Hnext & H & ->).
    apply play_inv in Hplay as [Hw1 He1]; [| |exact Hw].
    2:{ rewrite Forall_forall in Hbuf. eapply Hbuf; [|exact Ef].
        by eapply list_elem_of_lookup_2. }
    match type of H with steadyLoop _ _ _ _ _ ?b _ _ _ = _ => set (grown := b) in * end.
    assert (Hgrown : I w2 /\ Forall E e_next
                     /\ Forall (fun r => forall f, tempFile r = Some f -> P f) grown).
    { unfold grown. destruct (ci + length buf <? length chunks)%nat eqn:En; minv.
      - apply Nat.ltb_lt in En.
        match goal with H : synthesizeSentence _ _ _ _ _ = Some (?r, _, _) |- _ =>
          apply synth_inv in H; [destruct H as (Hw2 & He2 & Hr)|exact En|exact Hw1];
          rename r into r1 end.
        rewrite app_nil_r. split; [exact Hw2|]. split; [exact He2|].
        destruct (usable r1); [|exact Hbuf].
        apply Forall_app. split; [exact Hbuf|]. by repeat constructor.
      - by repeat split. }
    destruct Hgrown as (Hw2 & He2 & Hgrown).
    apply IH in H as [Hw' He']; [|exact Hw2|exact Hgrown].
    split; [exact Hw'|]. simpl. by repeat (apply Forall_app; split).
Qed.

Lemma sequentialLoop_inv fuel buffered ci he w res w' evs :
  sequentialLoop env fuel chunks speaker buffered ci he w = Some (res, w', evs) ->
  I w -> I w' /\ Forall E evs.
Proof.
  revert ci he w evs.
  induction fuel as [|fuel IH]; intros ci he w evs H Hw; simpl in H.
  - mrun; by split.
  - destruct (ci + buffered <? length chunks)%nat eqn:En; [|minv; by split].
    apply Nat.ltb_lt in En.
    apply bind_Some in H as (playing & w0 & ea & eb & Hc & H & ->).
    unfold checkPlayState in Hc. minv.
    destruct (isPlayingAudio _); simpl in H; [|minv; by split].
    apply bind_Some in H as (r & w1 & e_synth & ec & Hs & H & ->).
    apply synth_inv in Hs as (Hw1 & He1 & Hr); [|exact En|exact Hw].
    apply bind_Some in H as (playing' & w2 & ed & ee & Hc & H & ->).
    unfold checkPlayState in Hc. minv.
    destruct (isPlayingAudio _); simpl in H;
      [|minv; split; [exact Hw1|by rewrite !app_nil_r]].
    simpl.
    destruct (usable r) as [file|] eqn:Eu.
    + apply bind_Some in H as (playResult & w3 & e_play & e_rest & Hp & H & ->).
      apply play_inv in Hp as [Hw3 He3]; [| |exact Hw1].
      2:{ apply Hr. unfold usable in Eu. by destruct (success r). }
      apply IH in H as [Hw' He']; [|exact Hw3].
      split; [exact Hw'|]. by repeat (apply Forall_app; split).
    + apply IH in H as [Hw' He']; [|exact Hw1].
      split; [exact Hw'|]. by apply Forall_app.
Qed.

Lemma preload_inv l w rs w' evs :
  Forall (fun i => i < length chunks)%nat l ->
  mapM (fun i => synthesizeSentence env i (chunkAt chunks i) speaker) l w
  = Some (rs, w', evs) ->
  I w ->
  I w' /\ Forall E evs
  /\ Forall (fun r => forall f, tempFile r = Some f -> P f) rs.
Proof.
  revert w rs evs. induction l as [|i l IH]; intros w rs evs Hl H Hw; simpl in H.
  - minv. by repeat split.
  - inversion Hl as [|? ? Hi Hl']; subst.
    apply bind_Some in H as (r & w1 & e1 & e2 & Hs & H & ->).
    apply bind_Some in H as (rs' & w2 & e3 & e4 & Hm & H & ->). minv.
    apply synth_inv in Hs as (Hw1 & He1 & Hr); [|exact Hi|exact Hw].
    apply IH in Hm as (Hw2 & He3 & Hrs); [|exact Hl'|exact Hw1].
    rewrite app_nil_r. split; [exact Hw2|]. split; [by apply Forall_app|].
    by constructor.
Qed.

Lemma processChunksParallel_inv w r w' evs :
  processChunksParallel env chunks speaker w = Some (r, w', evs) ->
  I w -> I w' /\ Forall E evs.
Proof.
  intros H Hw. unfold processChunksParallel in H.
  case_bool_decide as Hn; [minv; by split|].
  assert (Hpos : (0 < length chunks)%nat) by lia.
  apply bind_Some in H as (r0 & w1 & e0 & e1 & Hs0 & H & ->).
  apply synth_inv in Hs0 as (Hw1 & He0 & Hr0); [|exact Hpos|exact Hw].
  destruct (usable r0) as [file|] eqn:Eu; [|minv; split; [exact Hw1|by rewrite app_nil_r]].
  apply bind_Some in H as (rs & w2 & e_pre & e2 & Hpre & H & ->).
  apply preload_inv in Hpre as (Hw2 & Hepre & Hrs); [| |exact Hw1].
  2:{ apply Forall_forall. intros i Hi. apply elem_of_seq in Hi.
      unfold MAX_PARALLEL in Hi. lia. }
  apply bind_Some in H as (playResult & w3 & e_play & e3 & Hplay & H & ->).
  apply play_inv in Hplay as [Hw3 Heplay]; [| |exact Hw2].
  2:{ apply Hr0. unfold usable in Eu. by destruct (success r0). }
  apply bind_Some in H as ([[buf' ci'] he'] & w4 & e_steady & e4 & Hsteady & H & ->).
  apply bind_Some in H as (he'' & w5 & e_seq & e5 & Hseq & H & ->). minv.
  apply steadyLoop_inv in Hsteady as [Hw4 Hes]; [|exact Hw3|].
  2:{ apply Forall_forall. intros x Hx. apply list_elem_of_filter in Hx as [_ Hx].
      rewrite Forall_forall in Hrs. by apply Hrs. }
  apply sequentialLoop_inv in Hseq as [Hw5 Heq]; [|exact Hw4].
  split; [exact Hw5|]. rewrite app_nil_r. by repeat (apply Forall_app; split).
Qed.

End SchedulerInvariant.

(** What the two calls emit. *)
Lemma synthesizeSentence_events env o t s w r w' evs :
  synthesizeSentence env o t s w = Some (r, w', evs) ->
  exists arr, evs = arr ++ [EvSynth o t s (success r)] /\ Forall is_arrival arr.
Proof.
  intros H. unfold synthesizeSentence in H. minv.
  match goal with H : io_wait _ _ = Some (_, _, ?e) |- _ =>
    apply io_wait_frame in H; destruct H as (_&_&_&_&_&_&_&_&_&Harr);
    exists e end.
  destruct (engine env _ _ _); minv; simpl; by rewrite ?app_nil_r.
Qed.

Lemma playAudio_events env f w r w' evs :
  playAudio env f w = Some (r, w', evs) ->
  Forall (fun e => is_arrival e \/ e = EvExec f \/ e = EvUnlink (path f)) evs.
Proof.
  intros H. unfold playAudio, initialize, unlinkSync in H. mrun;
    repeat match goal with
    | H : io_wait _ _ = Some _ |- _ =>
        apply io_wait_frame in H; destruct H as (_&_&_&_&_&_&_&_&_&H)
    end;
    repeat first [apply Forall_app; split | apply Forall_cons; split
                 | apply Forall_nil];
    auto.
  all: eapply Forall_impl; [eassumption|]; auto.
Qed.

Lemma is_arrival_call_of chunks speaker e : is_arrival e -> call_of chunks speaker e.
Proof. by destruct e. Qed.

(** What a run emits comes from its chunk array. *)
Lemma processChunksParallel_call_of env chunks speaker w r w' evs :
  processChunksParallel env chunks speaker w = Some (r, w', evs) ->
  Forall (call_of chunks speaker) evs.
Proof.
  intros H.
  apply (processChunksParallel_inv env chunks speaker (fun _ => True)
           (fun f => (origin f < length chunks)%nat) (call_of chunks speaker))
    in H; [by destruct H| | |done].
  - intros o w0 r0 w1 e Ho Hs _.
    pose proof (synthesizeSentence_played _ _ _ _ _ _ _ _ Hs) as [_ Hshape].
    apply synthesizeSentence_events in Hs as (arr & -> & Harr).
    split; [done|]. split.
    + apply Forall_app. split.
      * eapply Forall_impl; [exact Harr|]. apply is_arrival_call_of.
      * repeat constructor. unfold chunkAt.
        destruct (chunks !! o) eqn:El; [reflexivity|].
        apply lookup_ge_None in El. lia.
    + intros f Hf. destruct Hshape as [->|[q ->]]; [discriminate|].
      injection Hf as <-. exact Ho.
  - intros f w0 r0 w1 e Hf Hp _. split; [done|].
    apply playAudio_events in Hp. eapply Forall_impl; [exact Hp|].
    intros e0 [Ha|[->| ->]]; [by apply is_arrival_call_of|exact Hf|exact Logic.I].
Qed.


Lemma call_of_attempted chunks speaker evs :
  Forall (call_of chunks speaker) evs ->
  Forall (fun i => i < length chunks)%nat (attempted evs)
  /\ Forall (fun i => i < length chunks)%nat (played evs).
Proof.
  induction 1 as [|e evs He _ [IH1 IH2]]; [by split|].
  destruct e; simpl in *; try done; split; try assumption; constructor; try assumption.
  destruct He as [He _]. by eapply lookup_lt_Some.
Qed.

(** X12: in a run of the scheduler every engine call is for the chunk at
    an index of the array, with that chunk as its text and the speaker of
    the run, and every file played was synthesised from a chunk of the
    array: no index is out of range. *)
Theorem chunk_indices_in_range env chunks speaker w r w' evs :
  processChunksParallel env chunks speaker w = Some (r, w', evs) ->
  Forall (fun e => match e with
                   | EvSynth i t s _ => chunks !! i = Some t /\ s = speaker
                   | _ => True
                   end) evs
  /\ Forall (fun i => i < length chunks)%nat (attempted evs)
  /\ Forall (fun i => i < length chunks)%nat (played evs).
Proof.
  intros H. apply processChunksParallel_call_of in H.
  split; [|by eapply call_of_attempted].
  eapply Forall_impl; [exact H|]. by intros [].
Qed.

Lemma filter_fresh (p : nat) (l : list nat) n0 :
  Forall (fun q => q < n0)%nat l -> (n0 <= p)%nat -> filter (fun q => q ≠ p) l = l.
Proof.
  intros Hl Hp. apply filter_absent. intros Hin.
  rewrite Forall_forall in Hl. apply Hl in Hin. lia.
Qed.

Lemma playAudio_nextPath env f w r w' evs :
  playAudio env f w = Some (r, w', evs) -> nextPath w' = nextPath w.
Proof.
  intros H. unfold playAudio, initialize, unlinkSync in H. mrun;
    repeat match goal with
    | H : io_wait _ _ = Some _ |- _ =>
        apply io_wait_frame in H; destruct H as (_&H&_)
    end; simpl in *; congruence.
Qed.

Lemma is_arrival_unlinks_since n0 e : is_arrival e -> unlinks_since n0 e.
Proof. by destruct e. Qed.

(** The disk after a run, from a disk whose files were named before. *)
Lemma processChunksParallel_disk env chunks speaker w r w' evs :
  fresh_paths w ->
  processChunksParallel env chunks speaker w = Some (r, w', evs) ->
  disk_since (nextPath w) (files w) w'
  /\ Forall (unlinks_since (nextPath w)) evs.
Proof.
  intros Hfresh H.
  apply (processChunksParallel_inv env chunks speaker
           (disk_since (nextPath w) (files w))
           (fun f => (nextPath w <= path f)%nat) (unlinks_since (nextPath w)))
    in H; [exact H| | |].
  - intros o w0 r0 w1 e _ Hs [Hn (created & Hfiles & Hcreated)].
    pose proof (synthesizeSentence_events _ _ _ _ _ _ _ _ Hs) as (arr & -> & Harr).
    unfold synthesizeSentence in Hs. minv.
    match goal with H : io_wait _ _ = Some _ |- _ =>
      apply io_wait_frame in H; destruct H as (Hf & Hnp & _) end.
    simpl in Hf, Hnp.
    assert (Hev : Forall (unlinks_since (nextPath w)) (arr ++ [EvSynth o (chunkAt chunks o) speaker (success r0)])).
    { apply Forall_app. split; [|by repeat constructor].
      eapply Forall_impl; [exact Harr|]. apply is_arrival_unlinks_since. }
    destruct (engine env _ _ _); minv; unfold disk_since; simpl.
    + split; [|split; [exact Hev|]].
      * split; [lia|]. exists (nextPath w0 :: created). rewrite Hf, Hnp, Hfiles.
        split; [reflexivity|]. constructor; [lia|].
        eapply Forall_impl; [exact Hcreated|]. simpl. intros; lia.
      * intros f [= <-]. simpl. lia.
    + split; [|split; [exact Hev|done]].
      split; [lia|]. exists created. rewrite Hf, Hnp. by split.
  - intros f w0 r0 w1 e Hf Hp [Hn (created & Hfiles & Hcreated)].
    pose proof (playAudio_events _ _ _ _ _ _ Hp) as Hev.
    pose proof (playAudio_effect _ _ _ _ _ _ Hp) as (_ & _ & Hfs).
    pose proof (playAudio_nextPath _ _ _ _ _ _ Hp) as Hnp.
    split.
    + split; [lia|]. rewrite Hnp.
      destruct (initialized w0 && isPlayingAudio w0 && negb (player env (playCalls w0))).
      * exists created. by rewrite Hfs.
      * exists (filter (fun q => q ≠ path f) created). rewrite Hfs, Hfiles, filter_app.
        rewrite (filter_fresh (path f) (files w) (nextPath w)) by assumption.
        split; [reflexivity|]. apply Forall_forall. intros q Hq.
        apply list_elem_of_filter in Hq as [_ Hq].
        rewrite Forall_forall in Hcreated. by apply Hcreated.
    + eapply Forall_impl; [exact Hev|].
      intros e0 [Ha|[->| ->]]; [by apply is_arrival_unlinks_since|done|exact Hf].
  - split; [lia|]. exists []. by split.
Qed.

(** X13: a run of the scheduler removes no file that was on disk before
    it: afterwards the disk holds the files it held, in their order, and
    before them files that the run named; every removal is of a file
    that the run named. *)
Theorem run_keeps_older_files env chunks speaker w r w' evs :
  fresh_paths w ->
  processChunksParallel env chunks speaker w = Some (r, w', evs) ->
  (exists created,
      files w' = created ++ files w
      /\ Forall (fun p => nextPath w <= p < nextPath w')%nat created)
  /\ Forall (fun e => match e with
                      | EvUnlink p => (nextPath w <= p)%nat
                      | _ => True
                      end) evs.
Proof.
  intros Hfresh H.
  destruct (processChunksParallel_disk _ _ _ _ _ _ _ Hfresh H) as [[_ Hdisk] Hev].
  by split.
Qed.

(** ** A run that is not disturbed cleans up *)

Lemma serve_no_stop r w a w' evs :
  serve r w = Some (a, w', evs) -> EvStop ∉ evs ->
  isPlayingAudio w' = isPlayingAudio w.
Proof.
  intros H Hns. destruct r as [[|d ds]|]; simpl in H.
  - by minv.
  - unfold queuePush in H. minv. destruct (isProcessing _) in *; by minv.
  - unfold stopAudio in H. minv. exfalso. apply Hns. simpl. apply elem_of_cons. by left.
Qed.

Lemma arrivals_no_stop l w a w' evs :
  forEachM serve l w = Some (a, w', evs) -> EvStop ∉ evs ->
  isPlayingAudio w' = isPlayingAudio w.
Proof.
  revert w evs. induction l as [|r l IH]; intros w evs H Hns; simpl in H; minv; [done|].
  rewrite not_elem_of_app in Hns. destruct Hns.
  etrans; [eapply IH; eassumption|eapply serve_no_stop; eassumption].
Qed.

Lemma io_wait_no_stop env w a w' evs :
  io_wait env w = Some (a, w', evs) -> EvStop ∉ evs ->
  isPlayingAudio w' = isPlayingAudio w.
Proof.
  intros H Hns. unfold io_wait in H. minv. simpl in Hns.
  match goal with H : forEachM _ _ _ = Some _ |- _ =>
    apply arrivals_no_stop in H; [|exact Hns] end.
  exact H.
Qed.

(** An engine call that no stop interrupts: the flags stay, and the disk
    gains the file of the result, if any. *)
Lemma synthesizeSentence_no_stop env o t s w r w' evs :
  synthesizeSentence env o t s w = Some (r, w', evs) -> EvStop ∉ evs ->
  isPlayingAudio w' = isPlayingAudio w /\ initialized w' = initialized w
  /\ ((r = mkSynthesis false None /\ files w' = files w)
      \/ (r = mkSynthesis true (Some (mkTempFile (nextPath w) o))
          /\ files w' = nextPath w :: files w)).
Proof.
  intros H Hns. unfold synthesizeSentence in H. minv.
  rewrite not_elem_of_app in Hns. destruct Hns as [_ Hns].
  rewrite not_elem_of_app in Hns. destruct Hns as [_ Hns].
  rewrite not_elem_of_app in Hns. destruct Hns as [Hns _].
  match goal with H : io_wait _ _ = Some _ |- _ =>
    pose proof (io_wait_no_stop _ _ _ _ _ H Hns) as Hflag;
    apply io_wait_frame in H; destruct H as (Hf & Hnp & Hinit & _) end.
  simpl in *.
  destruct (engine env _ _ _); minv; simpl; rewrite ?Hf, ?Hnp; auto.
Qed.

(** A playback where the player is initialised, the flag is set, the
    command succeeds and no stop arrives: the file is removed. *)
Lemma playAudio_no_stop env f w r w' evs :
  playAudio env f w = Some (r, w', evs) -> EvStop ∉ evs ->
  initialized w = true -> isPlayingAudio w = true ->
  player env (playCalls w) = true ->
  isPlayingAudio w' = true /\ initialized w' = true
  /\ files w' = filter (fun q => q ≠ path f) (files w).
Proof.
  intros H Hns Hi Hflag Hp.
  pose proof (playAudio_effect _ _ _ _ _ _ H) as (_ & _ & Hfs).
  pose proof (playAudio_initialized _ _ _ _ _ _ H) as Hi'.
  rewrite Hi, Hflag, Hp in Hfs. simpl in Hfs. split; [|by split].
  unfold playAudio in H. minv. rewrite Hi in *. minv.
  simpl in *. rewrite Hflag in *. simpl in *. minv.
  rewrite Hp in *. minv.
  match goal with H : io_wait _ _ = Some _ |- _ =>
    apply io_wait_no_stop in H end.
  - unfold unlinkSync in *. minv. case_bool_decide; minv; simpl in *; congruence.
  - intros Hin. apply Hns. simpl. apply elem_of_cons. right.
    rewrite !elem_of_app. auto.
Qed.

Lemma paths_app b1 b2 : paths (b1 ++ b2) = paths b1 ++ paths b2.
Proof. apply omap_app. Qed.

Section CleanUp.

Variable env : Env.
Variable n0 : nat.
Hypothesis player_ok : forall k, player env k = true.

Lemma steadyLoop_clean fuel chunks speaker p buf ci he w res w' evs :
  steadyLoop env fuel chunks speaker p buf ci he w = Some (res, w', evs) ->
  EvStop ∉ evs ->
  initialized w = true -> isPlayingAudio w = true ->
  Forall (fun r => is_Some (tempFile r)) buf ->
  only_pending n0 (paths (drop p buf)) w ->
  initialized w' = true /\ isPlayingAudio w' = true /\ only_pending n0 [] w'.
Proof.
  revert p buf ci he w evs.
  induction fuel as [|fuel IH]; intros p buf ci he w evs H Hns Hi Hflag Hbuf Hpend;
    simpl in H.
  - destruct (buf !! p) as [r0|] eqn:Ep; minv.
    + rewrite Hflag in *.
      rewrite Forall_forall in Hbuf.
      destruct (Hbuf r0) as [file Hfile]; [by eapply list_elem_of_lookup_2|].
      rewrite Hfile in *. discriminate.
    + apply lookup_ge_None in Ep. rewrite drop_ge in Hpend by lia. by repeat split.
  - destruct (buf !! p) as [r0|] eqn:Ep; minv.
    2:{ apply lookup_ge_None in Ep. rewrite drop_ge in Hpend by lia. by repeat split. }
    rewrite Hflag in *.
    assert (Hfile : is_Some (tempFile r0)).
    { rewrite Forall_forall in Hbuf. apply Hbuf. by eapply list_elem_of_lookup_2. }
    destruct Hfile as [file Hfile]. rewrite Hfile in *.
    apply bind_Some in H as (playResult & w1 & e_play & e1 & Hplay & H & ->).
    apply bind_Some in H as (next & w2 & e_next & e_rest & Hnext & H & ->).
    simpl in Hns. rewrite !not_elem_of_app in Hns. destruct Hns as (Hns1 & Hns2 & Hns3).
    apply playAudio_no_stop in Hplay as (Hflag1 & Hi1 & Hfs1); auto.
    assert (Hdrop : paths (drop p buf) = path file :: paths (drop (S p) buf)).
    { rewrite (drop_S _ _ _ Ep). unfold paths. simpl. by rewrite Hfile. }
    assert (Hpend1 : only_pending n0 (paths (drop (S p) buf)) w1).
    { intros q Hq Hn. rewrite Hfs1 in Hq. apply list_elem_of_filter in Hq as [Hne Hq].
      specialize (Hpend q Hq Hn). rewrite Hdrop in Hpend.
      apply elem_of_cons in Hpend as [->|Hpend]; [done|exact Hpend]. }
    match type of H with steadyLoop _ _ _ _ _ ?b _ _ _ = _ => set (grown := b) in * end.
    assert (Hlt : (p < length buf)%nat) by (by eapply lookup_lt_Some).
    assert (Hgrown : initialized w2 = true /\ isPlayingAudio w2 = true
                     /\ Forall (fun r => is_Some (tempFile r)) grown
                     /\ only_pending n0 (paths (drop (S p) grown)) w2).
    { unfold grown. destruct (ci + length buf <? length chunks)%nat eqn:En; minv.
      - rewrite app_nil_r in Hns2.
        match goal with H : synthesizeSentence _ _ _ _ _ = Some _ |- _ =>
          apply synthesizeSentence_no_stop in H; [|exact Hns2];
          destruct H as (Hflag2 & Hi2 & [[-> Hfs2]|[-> Hfs2]]) end; simpl.
        + repeat split; try congruence. intros q Hq. rewrite Hfs2 in Hq. by apply Hpend1.
        + repeat split; try congruence.
          * apply Forall_app. split; [exact Hbuf|]. repeat constructor. by eexists.
          * intros q Hq Hn. rewrite Hfs2 in Hq.
            rewrite drop_app_le by lia. rewrite paths_app, elem_of_app.
            apply elem_of_cons in Hq as [->|Hq].
            -- right. unfold paths. simpl. apply elem_of_cons. by left.
            -- left. by apply Hpend1.
      - by repeat split. }
    destruct Hgrown as (Hi2 & Hflag2 & Hbuf2 & Hpend2).
    by eapply IH.
Qed.

Lemma sequentialLoop_clean fuel chunks speaker buffered ci he w res w' evs :
  sequentialLoop env fuel chunks speaker buffered ci he w = Some (res, w', evs) ->
  EvStop ∉ evs ->
  initialized w = true -> isPlayingAudio w = true ->
  only_pending n0 [] w ->
  only_pending n0 [] w'.
Proof.
  revert ci he w evs.
  induction fuel as [|fuel IH]; intros ci he w evs H Hns Hi Hflag Hpend; simpl in H.
  - destruct (ci + buffered <? length chunks)%nat; minv; [|exact Hpend].
    rewrite Hflag in *. simpl in *. discriminate.
  - destruct (ci + buffered <? length chunks)%nat; [|minv; exact Hpend].
    apply bind_Some in H as (playing & w0 & ea & eb & Hc & H & ->).
    unfold checkPlayState in Hc. minv. rewrite Hflag in H. simpl in H.
    apply bind_Some in H as (r & w1 & e_synth & ec & Hs & H & ->).
    apply bind_Some in H as (playing' & w2 & ed & ee & Hc & H & ->).
    unfold checkPlayState in Hc. minv.
    simpl in Hns. rewrite !not_elem_of_app in Hns. destruct Hns as (Hns1 & Hns2).
    apply synthesizeSentence_no_stop in Hs; [|exact Hns1].
    destruct Hs as (Hflag1 & Hi1 & Hshape).
    rewrite Hflag1, Hflag in H. simpl in H.
    destruct Hshape as [[-> Hfs]|[-> Hfs]]; simpl in H.
    + eapply IH; eauto; try congruence. intros q Hq. rewrite Hfs in Hq. by apply Hpend.
    + apply bind_Some in H as (playResult & w3 & e_play & e_rest & Hp & H & ->).
      rewrite not_elem_of_app in Hns2. destruct Hns2 as [Hns2 Hns3].
      apply playAudio_no_stop in Hp as (Hflag3 & Hi3 & Hfs3); auto; try congruence.
      eapply IH; eauto. intros q Hq Hn. rewrite Hfs3 in Hq.
      apply list_elem_of_filter in Hq as [Hne Hq]. rewrite Hfs in Hq.
      apply elem_of_cons in Hq as [->|Hq]; [done|by apply Hpend].
Qed.

Lemma preload_clean chunks speaker l w rs w' evs :
  mapM (fun i => synthesizeSentence env i (chunkAt chunks i) speaker) l w
  = Some (rs, w', evs) ->
  EvStop ∉ evs ->
  isPlayingAudio w' = isPlayingAudio w /\ initialized w' = initialized w
  /\ Forall (fun r => success r = true -> is_Some (tempFile r)) rs
  /\ (forall q, q ∈ files w' -> q ∈ files w \/ q ∈ paths (filter (fun r => success r = true) rs)).
Proof.
  revert w rs evs. induction l as [|i l IH]; intros w rs evs H Hns; simpl in H.
  - minv. repeat split; auto.
  - apply bind_Some in H as (r & w1 & e1 & e2 & Hs & H & ->).
    apply bind_Some in H as (rs' & w2 & e3 & e4 & Hm & H & ->). minv.
    rewrite app_nil_r in Hns. rewrite not_elem_of_app in Hns. destruct Hns as [Hns1 Hns2].
    apply synthesizeSentence_no_stop in Hs as (Hflag1 & Hi1 & Hshape); [|exact Hns1].
    apply IH in Hm as (Hflag2 & Hi2 & Hrs & Hfiles); [|exact Hns2].
    split; [congruence|]. split; [congruence|].
    destruct Hshape as [[-> Hfs]|[-> Hfs]].
    + split; [by constructor|]. rewrite filter_cons_False by done.
      intros q Hq. rewrite <- Hfs. by apply Hfiles.
    + split; [constructor; [by eexists|exact Hrs]|].
      rewrite filter_cons_True by done.
      intros q Hq. apply Hfiles in Hq as [Hq|Hq].
      * rewrite Hfs in Hq. apply elem_of_cons in Hq as [->|Hq]; [|by left].
        right. unfold paths. simpl. apply elem_of_cons. by left.
      * right. unfold paths. simpl. apply elem_of_cons. by right.
Qed.

End CleanUp.

Lemma removals_logged_refl w : removals_logged w w [].
Proof. split; [lia|]. intros p [Hp|Hp] Hn; [done|lia]. Qed.

Lemma removals_logged_trans w1 w2 w3 e1 e2 :
  removals_logged w1 w2 e1 -> removals_logged w2 w3 e2 ->
  removals_logged w1 w3 (e1 ++ e2).
Proof.
  intros [Hle1 H1] [Hle2 H2]. split; [lia|]. intros p Hp Hn.
  apply elem_of_app.
  destruct (decide (p ∈ files w2)) as [Hin|Hout].
  - right. apply H2; [by left|exact Hn].
  - assert (Hcase : p ∈ files w1 \/ (nextPath w1 <= p < nextPath w2)%nat
                    \/ (nextPath w2 <= p < nextPath w3)%nat).
    { destruct Hp as [Hp|Hp]; [by left|]. right. lia. }
    destruct Hcase as [Hp1|[Hp1|Hp2]].
    + left. apply H1; [by left|exact Hout].
    + left. apply H1; [by right|exact Hout].
    + right. apply H2; [by right|exact Hn].
Qed.

Lemma unlink_after_exec_refl w : unlink_after_exec w w [].
Proof.
  intros Hi Hf _. split; [exact Hi|]. split; [exact Hf|].
  intros pre p post H. by destruct pre.
Qed.

Lemma unlink_after_exec_trans w1 w2 w3 e1 e2 :
  unlink_after_exec w1 w2 e1 -> unlink_after_exec w2 w3 e2 ->
  unlink_after_exec w1 w3 (e1 ++ e2).
Proof.
  intros H1 H2 Hi Hf Hns. rewrite not_elem_of_app in Hns. destruct Hns as [Hns1 Hns2].
  destruct (H1 Hi Hf Hns1) as (Hi2 & Hf2 & Hu1).
  destruct (H2 Hi2 Hf2 Hns2) as (Hi3 & Hf3 & Hu2).
  split; [exact Hi3|]. split; [exact Hf3|].
  intros pre p post H. apply app_eq_app_cons in H
    as [(post1 & -> & ->)|(pre2 & -> & ->)].
  - by eapply Hu1.
  - destruct (Hu2 pre2 p post eq_refl) as [o Ho]. exists o.
    apply elem_of_app. by right.
Qed.

Lemma synthesizeSentence_removals_logged env o t s :
  respects removals_logged (synthesizeSentence env o t s).
Proof.
  intros w r w' evs H. unfold synthesizeSentence in H. minv.
  match goal with H : io_wait _ _ = Some _ |- _ =>
    apply io_wait_frame in H; destruct H as (Hfs & Hnp & _) end.
  simpl in *. destruct (engine env _ _ _); minv; simpl in *.
  - split; simpl; [lia|]. intros p Hp Hn. exfalso. apply Hn.
    rewrite Hfs, Hnp. destruct Hp as [Hp|Hp].
    + apply elem_of_cons. by right.
    + apply elem_of_cons. left. lia.
  - split; simpl; [lia|]. intros p Hp Hn. exfalso. apply Hn. rewrite Hfs.
    destruct Hp as [Hp|Hp]; [exact Hp|lia].
Qed.

Lemma playAudio_removals_logged env f : respects removals_logged (playAudio env f).
Proof.
  intros w r w' evs H.
  pose proof (playAudio_nextPath _ _ _ _ _ _ H) as Hnp.
  split; [lia|]. intros p [Hp|Hp] Hn; [|lia].
  unfold playAudio, initialize, unlinkSync in H. mrun;
    repeat match goal with
    | H : io_wait _ _ = Some _ |- _ =>
        apply io_wait_frame in H; destruct H as (H & _)
    end; simpl in *;
    repeat match goal with
    | H : files _ = files _ |- _ => rewrite H in *; clear H
    end;
    try (by destruct Hn);
    try (destruct (decide (p = path f)) as [->|Hne];
         [set_solver
         |exfalso; apply Hn; apply list_elem_of_filter; by split]).
Qed.

Lemma synthesizeSentence_unlink_after_exec env o t s :
  respects unlink_after_exec (synthesizeSentence env o t s).
Proof.
  intros w r w' evs H Hi Hf Hns.
  pose proof (synthesizeSentence_events _ _ _ _ _ _ _ _ H) as (arr & -> & Harr).
  apply synthesizeSentence_no_stop in H as (Hf' & Hi' & _); [|exact Hns].
  split; [congruence|]. split; [congruence|].
  intros pre p post Heq. exfalso.
  assert (Hin : EvUnlink p ∈ arr ++ [EvSynth o t s (success r)]).
  { rewrite Heq. apply elem_of_app. right. apply elem_of_cons. by left. }
  apply elem_of_app in Hin as [Hin|Hin].
  - rewrite Forall_forall in Harr. by apply Harr in Hin.
  - apply elem_of_cons in Hin as [Hin|Hin]; [discriminate|by apply elem_of_nil in Hin].
Qed.

Lemma playAudio_unlink_after_exec env f :
  respects unlink_after_exec (playAudio env f).
Proof.
  intros w r w' evs H Hi Hf Hns.
  pose proof (playAudio_events _ _ _ _ _ _ H) as Hevs.
  pose proof (playAudio_initialized _ _ _ _ _ _ H) as Hi'.
  assert (Hshape : isPlayingAudio w' = true /\ exists rest, evs = EvExec f :: rest).
  { unfold playAudio, initialize, unlinkSync in H. rewrite ?Hi in H.
    mrun; rewrite ?Hi, ?Hf in *; try discriminate;
      repeat match goal with
      | H : io_wait _ _ = Some _ |- _ =>
          apply io_wait_no_stop in H;
          [|intros ?; apply Hns; set_solver]
      end; simpl in *; (split; [congruence|by eexists]). }
  destruct Hshape as [Hf' [rest ->]].
  split; [exact Hi'|]. split; [exact Hf'|].
  intros pre p post Heq.
  destruct pre as [|e pre]; [discriminate|]. injection Heq as <- Heq.
  assert (Hp : EvUnlink p ∈ EvExec f :: rest).
  { rewrite Heq. apply elem_of_cons. right. apply elem_of_app. right.
    apply elem_of_cons. by left. }
  rewrite Forall_forall in Hevs. apply Hevs in Hp as [Hp|[Hp|Hp]]; try done.
  injection Hp as ->. exists (origin f). apply elem_of_cons. left. by destruct f.
Qed.

(** Without a failing command and without a stop, no file named during
    the run is on disk when it returns. *)
Lemma processChunksParallel_clean env chunks speaker w r w' evs :
  (forall k, player env k = true) ->
  initialized w = true -> isPlayingAudio w = true -> fresh_paths w ->
  processChunksParallel env chunks speaker w = Some (r, w', evs) ->
  EvStop ∉ evs ->
  only_pending (nextPath w) [] w'.
Proof.
  intros Hplayer Hi Hflag Hfresh H Hns.
  unfold processChunksParallel in H.
  case_bool_decide as Hn.
  { minv. intros q Hq Hge. unfold fresh_paths in Hfresh.
    rewrite Forall_forall in Hfresh. apply Hfresh in Hq. lia. }
  apply bind_Some in H as (r0 & w1 & e0 & e1 & Hs0 & H & ->).
  rewrite not_elem_of_app in Hns. destruct Hns as [Hns0 Hns].
  apply synthesizeSentence_no_stop in Hs0 as (Hflag1 & Hi1 & Hshape); [|exact Hns0].
  assert (Hold : forall q, q ∈ files w -> (nextPath w <= q)%nat -> False).
  { intros q Hq Hge. unfold fresh_paths in Hfresh.
    rewrite Forall_forall in Hfresh. apply Hfresh in Hq. lia. }
  destruct Hshape as [[-> Hfs1]|[-> Hfs1]]; simpl in H.
  { minv. intros q Hq Hge. rewrite Hfs1 in Hq. by destruct (Hold q). }
  apply bind_Some in H as (rs & w2 & e_pre & e2 & Hpre & H & ->).
  rewrite not_elem_of_app in Hns. destruct Hns as [Hnspre Hns].
  apply (preload_clean env) in Hpre as (Hflag2 & Hi2 & Hrs & Hfs2); [|exact Hnspre].
  apply bind_Some in H as (playResult & w3 & e_play & e3 & Hplay & H & ->).
  rewrite not_elem_of_app in Hns. destruct Hns as [Hnsplay Hns].
  apply playAudio_no_stop in Hplay as (Hflag3 & Hi3 & Hfs3);
    [|exact Hnsplay|congruence|congruence|apply Hplayer].
  apply bind_Some in H as ([[buf' ci'] he'] & w4 & e_steady & e4 & Hsteady & H & ->).
  apply bind_Some in H as (he'' & w5 & e_seq & e5 & Hseq & H & ->). minv.
  rewrite app_nil_r in Hns. rewrite not_elem_of_app in Hns. destruct Hns as [Hnss Hnsq].
  apply (steadyLoop_clean env (nextPath w) Hplayer) in Hsteady
    as (Hi4 & Hflag4 & Hpend4); [|exact Hnss|exact Hi3|exact Hflag3| |].
  - eapply (sequentialLoop_clean env (nextPath w) Hplayer); eauto.
  - apply Forall_forall. intros x Hx. apply list_elem_of_filter in Hx as [Hsx Hx].
    rewrite Forall_forall in Hrs. by apply Hrs.
  - rewrite drop_0. intros q Hq Hge. rewrite Hfs3 in Hq.
    apply list_elem_of_filter in Hq as [Hne Hq]. simpl in Hne.
    apply Hfs2 in Hq as [Hq|Hq]; [|exact Hq].
    rewrite Hfs1 in Hq. apply elem_of_cons in Hq as [->|Hq]; [done|].
    by destruct (Hold q).
Qed.

(** X14: when no playback command fails and no stop is served, a run of
    the scheduler that starts with the flag set plays and then removes
    every file that a synthesis hands to it, whatever the engine does:
    each file named during the run has an unlink in the trace, after its
    playback command, and is not on disk when the run returns. *)
Theorem undisturbed_run_cleans_up env chunks speaker w r w' evs :
  (forall k, player env k = true) ->
  initialized w = true -> isPlayingAudio w = true -> fresh_paths w ->
  processChunksParallel env chunks speaker w = Some (r, w', evs) ->
  EvStop ∉ evs ->
  forall p, (nextPath w <= p < nextPath w')%nat ->
    (p ∉ files w')
    /\ exists pre post o,
         evs = pre ++ EvUnlink p :: post /\ EvExec (mkTempFile p o) ∈ pre.
Proof.
  intros Hplayer Hi Hflag Hfresh H Hns p Hp.
  pose proof (processChunksParallel_clean _ _ _ _ _ _ _ Hplayer Hi Hflag Hfresh H Hns)
    as Hclean.
  assert (Hout : p ∉ files w').
  { intros Hin. eapply elem_of_nil, (Hclean p Hin). lia. }
  split; [exact Hout|].
  pose proof (processChunksParallel_respects env removals_logged
                removals_logged_refl removals_logged_trans
                (synthesizeSentence_removals_logged env)
                (playAudio_removals_logged env) _ _ _ _ _ _ H) as [_ Hlogged].
  pose proof (processChunksParallel_respects env unlink_after_exec
                unlink_after_exec_refl unlink_after_exec_trans
                (synthesizeSentence_unlink_after_exec env)
                (playAudio_unlink_after_exec env) _ _ _ _ _ _ H Hi Hflag Hns)
    as (_ & _ & Hafter).
  assert (Hin : EvUnlink p ∈ evs) by (apply Hlogged; [by right|exact Hout]).
  apply list_elem_of_split in Hin as (pre & post & ->).
  destruct (Hafter pre p post eq_refl) as [o Ho].
  by exists pre, post, o.
Qed.

(** ** What a reported success means *)

Lemma counts_commands_refl w : counts_commands w w [].
Proof. unfold counts_commands. simpl. lia. Qed.

Lemma counts_commands_trans w1 w2 w3 e1 e2 :
  counts_commands w1 w2 e1 -> counts_commands w2 w3 e2 ->
  counts_commands w1 w3 (e1 ++ e2).
Proof. unfold counts_commands. rewrite played_app, length_app. lia. Qed.

Lemma counts_commands_synthesizeSentence env o t s :
  respects counts_commands (synthesizeSentence env o t s).
Proof.
  intros w r w' evs H. unfold counts_commands.
  pose proof (synthesizeSentence_played _ _ _ _ _ _ _ _ H) as [-> _].
  unfold synthesizeSentence in H. minv.
  match goal with H : io_wait _ _ = Some _ |- _ =>
    apply io_wait_frame in H; destruct H as (_&_&_&_&Hpc&_) end.
  simpl in *. destruct (engine env _ _ _); minv; simpl; lia.
Qed.

(** A playback runs at most one command, the one numbered [playCalls];
    when it reports success, that command was run and exited without
    error. *)
Lemma playAudio_command env f w r w' evs :
  playAudio env f w = Some (r, w', evs) ->
  counts_commands w w' evs
  /\ (r = true -> played evs = [origin f] /\ player env (playCalls w) = true).
Proof.
  intros H. unfold counts_commands.
  unfold playAudio, initialize, unlinkSync in H. mrun;
    repeat match goal with
    | H : io_wait _ _ = Some _ |- _ =>
        pose proof (io_wait_played _ _ _ _ _ H);
        apply io_wait_frame in H; destruct H as (_&_&_&_&H&_)
    end;
    rewrite ?played_app; simpl in *;
    repeat match goal with H : played _ = [] |- _ => rewrite H; clear H end;
    simpl; split; try lia; try done.
Qed.

Lemma commands_ok_trans env w1 w2 w3 :
  commands_ok env w1 w2 -> commands_ok env w2 w3 -> commands_ok env w1 w3.
Proof.
  intros H1 H2 k Hk. destruct (decide (k < playCalls w2)%nat); [apply H1|apply H2]; lia.
Qed.

Lemma commands_ok_none env w w' : playCalls w' = playCalls w -> commands_ok env w w'.
Proof. intros E k Hk. lia. Qed.

Lemma playAudio_commands_ok env f w w' evs :
  playAudio env f w = Some (true, w', evs) -> commands_ok env w w'.
Proof.
  intros H. apply playAudio_command in H as [Hc Hr].
  destruct (Hr eq_refl) as [Hp Hok]. unfold counts_commands in Hc.
  rewrite Hp in Hc. simpl in Hc. intros k Hk.
  replace k with (playCalls w) by lia. exact Hok.
Qed.

Lemma synthesizeSentence_commands_ok env o t s w r w' evs :
  synthesizeSentence env o t s w = Some (r, w', evs) -> commands_ok env w w'.
Proof.
  intros H. pose proof (synthesizeSentence_played _ _ _ _ _ _ _ _ H) as [Hp _].
  apply counts_commands_synthesizeSentence in H. unfold counts_commands in H.
  rewrite Hp in H. simpl in H. apply commands_ok_none. lia.
Qed.

Section Success.

Variable env : Env.

Lemma steadyLoop_success fuel chunks speaker p buf ci he w buf' ci' w' evs :
  steadyLoop env fuel chunks speaker p buf ci he w = Some ((buf', ci', false), w', evs) ->
  he = false /\ commands_ok env w w'.
Proof.
  revert p buf ci he w evs.
  induction fuel as [|fuel IH]; intros p buf ci he w evs H; simpl in H.
  - mrun; simplify_eq; (split; [reflexivity|by apply commands_ok_none]).
  - destruct (buf !! p) as [r0|] eqn:Ep; minv;
      [|simplify_eq; split; [reflexivity|by apply commands_ok_none]].
    destruct (isPlayingAudio _);
      [|minv; simplify_eq; split; [reflexivity|by apply commands_ok_none]].
    destruct (tempFile r0) as [file|] eqn:Ef;
      [|minv; simplify_eq; split; [reflexivity|by apply commands_ok_none]].
    apply bind_Some in H as (playResult & w1 & e_play & e1 & Hplay & H & ->).
    apply bind_Some in H as (next & w2 & e_next & e_rest & Hnext & H & ->).
    apply IH in H as [Herr Hok2].
    apply orb_false_iff in Herr as [-> Hpr]. apply negb_false_iff in Hpr. subst playResult.
    split; [reflexivity|].
    eapply commands_ok_trans; [by eapply playAudio_commands_ok|].
    eapply commands_ok_trans; [|exact Hok2].
    destruct (ci + length buf <? length chunks)%nat; minv.
    + by eapply synthesizeSentence_commands_ok.
    + by apply commands_ok_none.
Qed.

Lemma sequentialLoop_success fuel chunks speaker buffered ci he w w' evs :
  sequentialLoop env fuel chunks speaker buffered ci he w = Some (false, w', evs) ->
  he = false /\ commands_ok env w w'.
Proof.
  revert ci he w evs.
  induction fuel as [|fuel IH]; intros ci he w evs H; simpl in H.
  - mrun; (split; [reflexivity|by apply commands_ok_none]).
  - destruct (ci + buffered <? length chunks)%nat;
      [|minv; split; [reflexivity|by apply commands_ok_none]].
    apply bind_Some in H as (playing & w0 & ea & eb & Hc & H & ->).
    unfold checkPlayState in Hc. minv.
    destruct (isPlayingAudio _); simpl in H;
      [|minv; split; [reflexivity|by apply commands_ok_none]].
    apply bind_Some in H as (r & w1 & e_synth & ec & Hs & H & ->).
    apply synthesizeSentence_commands_ok in Hs.
    apply bind_Some in H as (playing' & w2 & ed & ee & Hc & H & ->).
    unfold checkPlayState in Hc. minv.
    destruct (isPlayingAudio _); simpl in H; [|minv; by split].
    destruct (usable r) as [file|].
    + apply bind_Some in H as (playResult & w3 & e_play & e_rest & Hp & H & ->).
      apply IH in H as [Herr Hok].
      apply orb_false_iff in Herr as [-> Hpr]. apply negb_false_iff in Hpr. subst.
      split; [reflexivity|].
      eapply commands_ok_trans; [exact Hs|].
      eapply commands_ok_trans; [by eapply playAudio_commands_ok|exact Hok].
    + by apply IH in H as [? _].
Qed.

Lemma preload_commands_ok chunks speaker l w rs w' evs :
  mapM (fun i => synthesizeSentence env i (chunkAt chunks i) speaker) l w
  = Some (rs, w', evs) ->
  commands_ok env w w'.
Proof.
  revert w rs evs. induction l as [|i l IH]; intros w rs evs H; simpl in H; minv.
  - by apply commands_ok_none.
  - eapply commands_ok_trans; [by eapply synthesizeSentence_commands_ok|by eapply IH].
Qed.

(** X15: a run of the scheduler that reports success ran one platform
    command per playback, every one of them exited without error, and the
    first chunk was the first to be played. *)
Theorem success_means_commands_succeeded chunks speaker w w' evs :
  processChunksParallel env chunks speaker w = Some (true, w', evs) ->
  playCalls w' = (playCalls w + length (played evs))%nat
  /\ (forall k, (playCalls w <= k < playCalls w')%nat -> player env k = true)
  /\ (chunks <> [] -> exists rest, played evs = 0%nat :: rest).
Proof.
  intros H. split.
  { eapply (processChunksParallel_respects env counts_commands
              counts_commands_refl counts_commands_trans); [| |exact H].
    - apply counts_commands_synthesizeSentence.
    - intros f w0 r0 w1 e Hp. by apply playAudio_command in Hp as [? _]. }
  unfold processChunksParallel in H.
  case_bool_decide as Hn.
  { minv. split; [by apply commands_ok_none|]. intros Hne. by destruct chunks. }
  apply bind_Some in H as (r0 & w1 & e0 & e1 & Hs0 & H & ->).
  pose proof (synthesizeSentence_played _ _ _ _ _ _ _ _ Hs0) as [Hp0 Hshape].
  apply synthesizeSentence_commands_ok in Hs0.
  destruct Hshape as [->|[q ->]]; simpl in H; [by minv|].
  apply bind_Some in H as (rs & w2 & e_pre & e2 & Hpre & H & ->).
  pose proof (preload_played _ _ _ _ _ _ _ _ Hpre) as [Hppre _].
  apply preload_commands_ok in Hpre.
  apply bind_Some in H as (playResult & w3 & e_play & e3 & Hplay & H & ->).
  apply bind_Some in H as ([[buf' ci'] he'] & w4 & e_steady & e4 & Hsteady & H & ->).
  apply bind_Some in H as (he'' & w5 & e_seq & e5 & Hseq & H & ->).
  apply ret_Some in H as (Hr & -> & ->).
  symmetry in Hr. apply negb_true_iff in Hr. subst he''.
  apply sequentialLoop_success in Hseq as [-> Hokq].
  apply steadyLoop_success in Hsteady as [Herr Hoks].
  apply orb_false_iff in Herr as [_ Hpr]. apply negb_false_iff in Hpr. subst playResult.
  pose proof (playAudio_command _ _ _ _ _ _ Hplay) as [_ Hplayed].
  destruct (Hplayed eq_refl) as [Hplayed0 _].
  apply playAudio_commands_ok in Hplay.
  split.
  - repeat (eapply commands_ok_trans; [eassumption|]). by apply commands_ok_none.
  - intros _. rewrite !played_app, Hp0, Hppre, Hplayed0. simpl. by eexists.
Qed.

End Success.

(** ** The first playback *)

Lemma played_nil_no_exec evs : played evs = [] -> no_exec evs.
Proof.
  induction evs as [|e evs IH]; [constructor|]. intros H.
  destruct e; simpl in H; try discriminate; constructor; try reflexivity; by apply IH.
Qed.

Lemma attempted_app e1 e2 : attempted (e1 ++ e2) = attempted e1 ++ attempted e2.
Proof. apply omap_app. Qed.

Lemma attempted_arrivals evs : Forall is_arrival evs -> attempted evs = [].
Proof.
  induction 1 as [|e evs He _ IH]; [reflexivity|]. destruct e; try done; exact IH.
Qed.

Lemma synthesizeSentence_attempted env o t s w r w' evs :
  synthesizeSentence env o t s w = Some (r, w', evs) -> attempted evs = [o].
Proof.
  intros H. apply synthesizeSentence_events in H as (arr & -> & Harr).
  by rewrite attempted_app, (attempted_arrivals _ Harr).
Qed.

Lemma preload_attempted env chunks speaker l w rs w' evs :
  mapM (fun i => synthesizeSentence env i (chunkAt chunks i) speaker) l w
  = Some (rs, w', evs) ->
  attempted evs = l.
Proof.
  revert w rs evs. induction l as [|i l IH]; intros w rs evs H; simpl in H; minv.
  - reflexivity.
  - rewrite !attempted_app. simpl. rewrite app_nil_r.
    match goal with H : synthesizeSentence _ _ _ _ _ = Some _ |- _ =>
      apply synthesizeSentence_attempted in H; rewrite H end.
    match goal with H : mapM _ _ _ = Some _ |- _ => apply IH in H; rewrite H end.
    reflexivity.
Qed.

(** Up to its first playback a trace is cut in one way only. *)
Lemma first_exec_unique (a a' b b' : list Event) f f' :
  a ++ EvExec f :: b = a' ++ EvExec f' :: b' ->
  no_exec a -> no_exec a' -> a = a' /\ f = f'.
Proof.
  revert a'. induction a as [|x a IH]; intros [|x' a'] H Ha Ha'; simpl in H.
  - by injection H as <- _.
  - injection H as <- _. inversion Ha'; subst. discriminate.
  - injection H as -> _. inversion Ha; subst. discriminate.
  - injection H as <- H. inversion Ha; inversion Ha'; subst.
    destruct (IH a' H) as [-> ->]; auto.
Qed.

(** A playback begins with the platform command, or runs none and leaves
    the flag false. *)
Lemma playAudio_shape env f w r w' evs :
  playAudio env f w = Some (r, w', evs) ->
  (exists rest, evs = EvExec f :: rest)
  \/ (no_exec evs /\ isPlayingAudio w' = false).
Proof.
  intros H. unfold playAudio, initialize, unlinkSync in H. mrun;
    lazymatch goal with
    | |- (exists rest, EvExec _ :: _ = _) \/ _ => left; eexists; reflexivity
    | |- _ =>
        right; split;
        [unfold no_exec;
         repeat first [apply Forall_nil_2 | apply Forall_cons_2; [reflexivity|]]
        |first [by apply negb_true_iff | congruence]]
    end.
Qed.

Section Lookahead.

Variable env : Env.

(** X16: nothing is played before the lookahead batch has settled: the
    first platform command of a run is for chunk 0, and by then the
    synthesis of the chunks [0 .. min(n, MAX_PARALLEL) - 1] has been
    attempted, each once and in order, and of no other chunk. *)
Theorem first_playback_after_lookahead chunks speaker w r w' evs pre f post :
  processChunksParallel env chunks speaker w = Some (r, w', evs) ->
  evs = pre ++ EvExec f :: post -> no_exec pre ->
  origin f = 0%nat
  /\ attempted pre = seq 0 (Nat.min (length chunks) MAX_PARALLEL).
Proof.
  intros H Hevs Hpre.
  assert (Hexec : ~ no_exec evs).
  { rewrite Hevs. intros Hx. apply no_exec_app in Hx as [_ Hx]. inversion Hx; subst.
    discriminate. }
  unfold processChunksParallel in H.
  case_bool_decide as Hn.
  { minv. exfalso. apply Hexec. constructor. }
  apply bind_Some in H as (r0 & w1 & e0 & e1 & Hs0 & H & ->).
  pose proof (synthesizeSentence_played _ _ _ _ _ _ _ _ Hs0) as [Hp0 Hshape].
  apply synthesizeSentence_attempted in Hs0.
  destruct Hshape as [->|[q ->]]; simpl in H.
  { minv. exfalso. apply Hexec. rewrite app_nil_r. by apply played_nil_no_exec. }
  apply bind_Some in H as (rs & w2 & e_pre & e2 & Hpl & H & ->).
  pose proof (preload_played _ _ _ _ _ _ _ _ Hpl) as [Hppre _].
  apply preload_attempted in Hpl.
  apply bind_Some in H as (playResult & w3 & e_play & e3 & Hplay & H & ->).
  apply bind_Some in H as ([[buf' ci'] he'] & w4 & e_steady & e4 & Hsteady & H & ->).
  apply bind_Some in H as (he'' & w5 & e_seq & e5 & Hseq & H & ->). minv.
  apply played_nil_no_exec in Hp0, Hppre.
  apply playAudio_shape in Hplay as [[rest ->]|[Hsilent Hflag]].
  - rewrite app_assoc in Hevs. simpl in Hevs.
    apply first_exec_unique in Hevs as [<- <-];
      [|by apply no_exec_app|exact Hpre].
    split; [reflexivity|].
    rewrite attempted_app, Hs0, Hpl. unfold MAX_PARALLEL.
    destruct (length chunks) as [|[|[|n]]]; try done.
  - exfalso. apply Hexec.
    apply (steadyLoop_respects env cancel_safe cancel_safe_refl cancel_safe_trans
             (cancel_safe_synthesizeSentence env) (cancel_safe_playAudio env))
      in Hsteady.
    destruct Hsteady as [Hs _]. destruct (Hs Hflag) as [Hflag4 Hsteady].
    apply (sequentialLoop_respects env cancel_safe cancel_safe_refl cancel_safe_trans
             (cancel_safe_synthesizeSentence env) (cancel_safe_playAudio env))
      in Hseq.
    destruct Hseq as [Hq _]. destruct (Hq Hflag4) as [_ Hseq].
    rewrite app_nil_r. by repeat (apply no_exec_app; split).
Qed.

End Lookahead.

(** ** Cancellation and the files

    Which files a run removes, and when: the loops attempt a playback only
    right after they have seen the flag set, so that the one attempt that
    can find the flag cleared is that of the first chunk, made after the
    lookahead batch has settled. *)















(** ** The dialogue loop *)



Lemma call_of_calls chunks speaker turn evs rest :
  Forall (call_of chunks speaker) evs ->
  calls turn (evs ++ rest)
  = map (fun t => (turn, t, speaker)) (synthesised evs) ++ calls turn rest.
Proof.
  induction 1 as [|e evs He _ IH]; [reflexivity|].
  destruct e; try done; simpl; rewrite ?IH; try reflexivity.
  destruct He as [_ ->]. reflexivity.
Qed.

Section Conversation.

Variable env : Env.
Variable MAX_CHUNK_LENGTH : Z.
Variable DEFAULT_SPEAKER : Z.

(** A turn either ends in the [catch] at once, or is a run of the
    scheduler on the chunks of its text. *)
Lemma textToSpeech_call_of text speaker w r w' evs :
  textToSpeech env MAX_CHUNK_LENGTH text speaker w = Some (r, w', evs) ->
  (allChunks MAX_CHUNK_LENGTH text = None /\ r = false /\ evs = [])
  \/ (exists chunks,
        allChunks MAX_CHUNK_LENGTH text = Some chunks
        /\ processChunksParallel env chunks speaker w = Some (r, w', evs)
        /\ Forall (call_of chunks speaker) evs).
Proof.
  unfold textToSpeech. intros H.
  destruct (allChunks MAX_CHUNK_LENGTH text) as [chunks|].
  - right. exists chunks. split; [reflexivity|]. split; [exact H|].
    by eapply processChunksParallel_call_of.
  - left. by minv.
Qed.






Lemma conversationLoop_calls done dialogues w r w' evs turn :
  conversationLoop env MAX_CHUNK_LENGTH DEFAULT_SPEAKER (length done) dialogues w
  = Some (r, w', evs) ->
  Forall (call_of_dialogue MAX_CHUNK_LENGTH DEFAULT_SPEAKER (done ++ dialogues))
         (calls turn evs).
Proof.
  revert done w evs turn.
  induction dialogues as [|d ds IH]; intros done w evs turn H; simpl in H.
  - minv. constructor.
  - apply bind_Some in H as (playing & w0 & ea & eb & Hc & H & ->).
    unfold checkPlayState in Hc. minv.
    destruct (isPlayingAudio w) eqn:Ef; simpl in H; [|minv; constructor].
    apply bind_Some in H as ([] & w1 & e1 & e2 & Hb & H & ->).
    apply emit_Some in Hb as [-> ->].
    apply bind_Some in H as (result & w2 & e_tts & e3 & Ht & H & ->).
    apply bind_Some in H as ([] & w3 & e4 & e5 & He & H & ->).
    apply emit_Some in He as [-> ->].
    apply textToSpeech_call_of in Ht
      as [(_ & -> & ->)|(chunks & Hchunks & Ht' & Hcalls)].
    { simpl in H. minv. constructor. }
    apply processChunksParallel_synthesised in Ht'.
    simpl. rewrite (call_of_calls _ _ _ _ _ Hcalls). simpl.
    apply Forall_app. split.
    + apply Forall_forall. intros c Hc. apply list_elem_of_fmap in Hc as (t & -> & Ht).
      exists (length done), d, chunks. repeat split; try assumption.
      * by rewrite list_lookup_middle.
      * rewrite Forall_forall in Ht'. by apply Ht'.
    + destruct result; simpl in H; [|minv; constructor].
      specialize (IH (done ++ [d]) w2 e5 None).
      rewrite length_app, <- app_assoc in IH. simpl in IH.
      rewrite Nat.add_1_r in IH. by apply IH.
Qed.

(** X18: every engine call that [conversationToSpeech] makes is made
    inside a turn, for a chunk of the text of that turn's dialogue, with
    the speaker of that dialogue or, when it names none, the default
    speaker. *)
Theorem calls_follow_dialogues dialogues w r w' evs :
  conversationToSpeech env MAX_CHUNK_LENGTH DEFAULT_SPEAKER dialogues w
  = Some (r, w', evs) ->
  Forall (call_of_dialogue MAX_CHUNK_LENGTH DEFAULT_SPEAKER dialogues)
         (calls None evs).
Proof.
  unfold conversationToSpeech. intros H. minv. simpl.
  by eapply (conversationLoop_calls []).
Qed.

End Conversation.

(** A sentence that is not empty gives at least one chunk. *)
Lemma chunksOfSentence_nonempty MAX_CHUNK_LENGTH sentence cs :
  sentence <> [] -> chunksOfSentence MAX_CHUNK_LENGTH sentence = Some cs -> cs <> [].
Proof.
  intros Hne. unfold chunksOfSentence.
  destruct (MAX_CHUNK_LENGTH <? jslength sentence); [|by intros [= <-]].
  destruct sentence as [|c s]; [done|]. simpl length.
  change (cutLoop MAX_CHUNK_LENGTH (S (length s)) (c :: s)) with
    (if (0 <? jslength (c :: s)) then
       (rest ← cutLoop MAX_CHUNK_LENGTH (length s)
                 (substring (c :: s) (chunkEndOf MAX_CHUNK_LENGTH (c :: s)) None);
        Some (substring (c :: s) 0 (Some (chunkEndOf MAX_CHUNK_LENGTH (c :: s))) :: rest))
     else Some []).
  assert (Hpos : (0 <? jslength (c :: s)) = true).
  { apply Z.ltb_lt. unfold jslength. simpl. lia. }
  rewrite Hpos. destruct (cutLoop _ _ _); simpl; [|discriminate]. by intros [= <-].
Qed.

Lemma allChunks_nil MAX_CHUNK_LENGTH text :
  allChunks MAX_CHUNK_LENGTH text = Some [] <-> all_whitespace text.
Proof.
  unfold allChunks. split.
  - intros H. destruct (splitTextIntoSentences text) as [|sentence more] eqn:E.
    + rewrite splitTextIntoSentences_eq in E. apply filter_trim_nil in E.
      by rewrite split_concat in E.
    + exfalso. simpl in H.
      destruct (chunksOfSentence MAX_CHUNK_LENGTH sentence) as [cs|] eqn:Ec;
        [|discriminate].
      apply chunksOfSentence_nonempty in Ec.
      * simpl in H. destruct (chunkSentences _ more); simpl in H; [|discriminate].
        injection H as H. by apply app_eq_nil in H as [? _].
      * eapply (sentences_last_only text). rewrite E. apply elem_of_cons. by left.
  - intros H. rewrite splitTextIntoSentences_eq, whitespace_pieces; [reflexivity|].
    by rewrite split_concat.
Qed.

Section EngineDown.

Variable env : Env.
Hypothesis engine_fails : forall k t s, engine env k t s = false.

Lemma processChunksParallel_engine_down chunks speaker w r w' evs :
  processChunksParallel env chunks speaker w = Some (r, w', evs) ->
  chunks <> [] ->
  r = false /\ played evs = [] /\ attempted evs = [0%nat].
Proof.
  intros H Hne. unfold processChunksParallel in H.
  case_bool_decide as Hn; [by destruct chunks|].
  apply bind_Some in H as (r0 & w1 & e0 & e1 & Hs0 & H & ->).
  pose proof (synthesizeSentence_played _ _ _ _ _ _ _ _ Hs0) as [Hp0 _].
  pose proof (synthesizeSentence_attempted _ _ _ _ _ _ _ _ Hs0) as Ha0.
  unfold synthesizeSentence in Hs0. minv. rewrite engine_fails in *. minv.
  simpl in H. minv. rewrite app_nil_r. by repeat split.
Qed.

Lemma conversationLoop_engine_down MAX_CHUNK_LENGTH DEFAULT_SPEAKER i dialogues
    w r w' evs :
  conversationLoop env MAX_CHUNK_LENGTH DEFAULT_SPEAKER i dialogues w
  = Some (r, w', evs) ->
  isPlayingAudio w = true ->
  played evs = [] /\ (length (attempted evs) <= 1)%nat
  /\ (r = true <-> Forall (fun d => all_whitespace (text d)) dialogues).
Proof.
  revert i w evs. induction dialogues as [|d ds IH]; intros i w evs H Hflag; simpl in H.
  - minv. repeat split; auto.
  - apply bind_Some in H as (playing & w0 & ea & eb & Hc & H & ->).
    unfold checkPlayState in Hc. minv. rewrite Hflag in H. simpl in H.
    apply bind_Some in H as ([] & w1 & e1 & e2 & Hb & H & ->).
    apply emit_Some in Hb as [-> ->].
    apply bind_Some in H as (result & w2 & e_tts & e3 & Ht & H & ->).
    apply bind_Some in H as ([] & w3 & e4 & e5 & He & H & ->).
    apply emit_Some in He as [-> ->].
    unfold textToSpeech in Ht.
    destruct (allChunks MAX_CHUNK_LENGTH (text d)) as [[|c chunks]|] eqn:Ec.
    3:{ minv. simpl in H. minv. simpl.
        split; [reflexivity|]. split; [lia|]. split; [done|].
        inversion 1 as [|? ? Hd _]; subst.
        apply (allChunks_nil MAX_CHUNK_LENGTH) in Hd. congruence. }
    + apply allChunks_nil in Ec. unfold processChunksParallel in Ht.
      rewrite bool_decide_eq_true_2 in Ht by reflexivity. minv. simpl in H.
      apply IH in H as (Hp & Ha & Hr); [|exact Hflag].
      simpl. split; [exact Hp|]. split; [exact Ha|].
      rewrite Hr. split; [by constructor|]. by inversion 1.
    + apply processChunksParallel_engine_down in Ht as (-> & Hp & Ha); [|done].
      simpl in H. minv. simpl.
      rewrite played_app, attempted_app, Hp, Ha. simpl.
      split; [reflexivity|]. split; [lia|]. split; [done|].
      inversion 1 as [|? ? Hd _]; subst.
      apply (allChunks_nil MAX_CHUNK_LENGTH) in Hd. congruence.
Qed.

(** X19: when the engine is down, [conversationToSpeech] makes at most
    one engine call and plays nothing; it reports success only for a
    Turn-list whose texts are all blank. *)
Theorem engine_down_one_call MAX_CHUNK_LENGTH DEFAULT_SPEAKER dialogues w r w' evs :
  conversationToSpeech env MAX_CHUNK_LENGTH DEFAULT_SPEAKER dialogues w
  = Some (r, w', evs) ->
  played evs = [] /\ (length (attempted evs) <= 1)%nat
  /\ (r = true <-> Forall (fun d => all_whitespace (text d)) dialogues).
Proof.
  unfold conversationToSpeech. intros H. minv. simpl.
  by eapply conversationLoop_engine_down.
Qed.

End EngineDown.

(** ** The drain *)

Lemma none_lost_refl w : none_lost w w [].
Proof. intros _. simpl. by rewrite app_nil_r. Qed.

Lemma none_lost_trans w1 w2 w3 e1 e2 :
  none_lost w1 w2 e1 -> none_lost w2 w3 e2 -> none_lost w1 w3 (e1 ++ e2).
Proof.
  intros H1 H2 Hns. rewrite not_elem_of_app in Hns. destruct Hns as [Hn1 Hn2].
  specialize (H1 Hn1). specialize (H2 Hn2).
  rewrite begun_app, enqueued_app, <- app_assoc, H2, !app_assoc, H1. reflexivity.
Qed.

Lemma none_lost_plain w w' evs :
  queue w' = queue w -> Forall no_queue_event evs -> none_lost w w' evs.
Proof.
  intros Hq Hev _. apply no_queue_event_omap in Hev as [-> ->].
  rewrite Hq. simpl. by rewrite app_nil_r.
Qed.

Lemma none_lost_server env MAX_CHUNK_LENGTH DEFAULT_SPEAKER rounds requests :
  respects none_lost (server env MAX_CHUNK_LENGTH DEFAULT_SPEAKER rounds requests).
Proof.
  apply server_keeps.
  all: try exact none_lost_refl.
  all: try exact none_lost_trans.
  all: intros;
    lazymatch goal with
    | |- respects _ initialize =>
        intros w a w' evs H; unfold initialize in H; mrun;
        apply none_lost_plain; simpl; auto
    | |- respects _ stopAudio =>
        intros w a w' evs H; unfold stopAudio in H; minv; simpl;
        intros Hns; exfalso; apply Hns; apply elem_of_cons; by left
    | H : quiet_step _ _ _ |- _ =>
        destruct H as (_&_&Hq&_&_&_&_&Hev); apply none_lost_plain; [exact Hq|];
        eapply Forall_impl; [exact Hev|]; by intros []
    | |- _ /\ _ => split; apply none_lost_plain; simpl; auto; by repeat constructor
    | H : queue _ = _ :: _ |- _ =>
        intros _; simpl; rewrite H; simpl; by rewrite app_nil_r
    | |- none_lost _ _ [EvEnqueue _] =>
        intros _; simpl; by rewrite fmap_app
    | |- _ => apply none_lost_plain; simpl; auto; by repeat constructor
    end.
Qed.

(** X21: unless a stop is served, the server loses no Turn-list and
    takes them in the order of their arrival: those that began, followed
    by those that still wait, are those that waited at the start followed
    by those enqueued since. *)
Theorem no_turn_list_lost env MAX_CHUNK_LENGTH DEFAULT_SPEAKER rounds requests
    w w' evs :
  server env MAX_CHUNK_LENGTH DEFAULT_SPEAKER rounds requests w = Some (tt, w', evs) ->
  EvStop ∉ evs ->
  begun evs ++ (queue w').*1 = (queue w).*1 ++ enqueued evs.
Proof. intros H. by apply none_lost_server in H. Qed.

Lemma begins_none_refl w : begins_none w w [].
Proof. reflexivity. Qed.

Lemma begins_none_trans w1 w2 w3 e1 e2 :
  begins_none w1 w2 e1 -> begins_none w2 w3 e2 -> begins_none w1 w3 (e1 ++ e2).
Proof. unfold begins_none. rewrite begun_app. by intros -> ->. Qed.

Lemma conversationToSpeech_begun env MAX_CHUNK_LENGTH DEFAULT_SPEAKER dialogues
    w r w' evs :
  conversationToSpeech env MAX_CHUNK_LENGTH DEFAULT_SPEAKER dialogues w
  = Some (r, w', evs) ->
  begun evs = [].
Proof.
  unfold conversationToSpeech. intros H. minv. simpl.
  match goal with H : conversationLoop _ _ _ _ _ _ = Some _ |- _ =>
    eapply (conversationLoop_keeps env MAX_CHUNK_LENGTH DEFAULT_SPEAKER begins_none
              begins_none_refl begins_none_trans) in H; [exact H|..] end.
  all: intros; unfold begins_none;
    lazymatch goal with
    | |- respects _ initialize =>
        intros w0 a w1 evs0 H0; unfold initialize in H0; by mrun
    | |- respects _ stopAudio =>
        intros w0 a w1 evs0 H0; unfold stopAudio in H0; by minv
    | H : quiet_step _ _ _ |- _ =>
        destruct H as (_&_&_&_&_&_&_&Hev);
        apply no_queue_event_omap; eapply Forall_impl; [exact Hev|]; by intros []
    | |- _ /\ _ => by split
    | |- _ => reflexivity
    end.
Qed.

(** X20: [processQueue] stops by itself only on an empty queue, and it
    clears [isProcessing] when it does; observed before that, it has begun
    one Turn-list per round and [isProcessing] is set. *)
Theorem drain_ends_ready env MAX_CHUNK_LENGTH DEFAULT_SPEAKER rounds w w' evs :
  processQueue env MAX_CHUNK_LENGTH DEFAULT_SPEAKER rounds w = Some (tt, w', evs) ->
  (queue w' = [] /\ isProcessing w' = false)
  \/ (queue w' <> [] /\ length (begun evs) = rounds
      /\ (isProcessing w = true \/ (0 < rounds)%nat -> isProcessing w' = true)).
Proof.
  revert w evs. induction rounds as [|rounds IH]; intros w evs H; simpl in H.
  - minv. destruct (queue w) as [|[t ds] rest] eqn:Eq; minv.
    + left. by split.
    + right. rewrite Eq. repeat split; [done|]. intros [Hp|Hr]; [exact Hp|lia].
  - minv. destruct (queue w) as [|[t ds] rest] eqn:Eq; minv.
    { left. by split. }
    match goal with H : conversationToSpeech _ _ _ _ _ = Some _ |- _ =>
      pose proof (conversationToSpeech_begun _ _ _ _ _ _ _ _ H) as Hb;
      apply drain_kept_conversationToSpeech in H; destruct (H eq_refl) as [Hkept _] end.
    match goal with H : processQueue _ _ _ _ _ = Some _ |- _ =>
      apply IH in H; destruct H as [Hend|(Hq & Hlen & Hp)] end.
    + by left.
    + right. split; [exact Hq|]. simpl. rewrite begun_app, Hb. simpl.
      split; [by rewrite Hlen|]. intros _. apply Hp. by left.
Qed.

(** ** The synthesizer client *)

Lemma length_append (a b : string) :
  String.length (a +:+ b) = (String.length a + String.length b)%nat.
Proof.
  induction a as [|c a IH]; [reflexivity|].
  change (String c a +:+ b) with (String c (a +:+ b)). simpl. by rewrite IH.
Qed.

Lemma append_suffix_inj (a b s : string) : a +:+ s = b +:+ s -> a = b.
Proof.
  revert b. induction a as [|c a IH]; intros [|d b] H.
  - reflexivity.
  - apply (f_equal String.length) in H. rewrite !length_append in H. simpl in H. lia.
  - apply (f_equal String.length) in H. rewrite !length_append in H. simpl in H. lia.
  - change (String c (a +:+ s) = String d (b +:+ s)) in H.
    injection H as -> H. by rewrite (IH b H).
Qed.

(** A number printed in decimal does not start with the letter p. *)
Lemma pretty_N_go_not_p x s :
  (forall s', s <> "p" +:+ s') -> forall s', pretty_N_go x s <> "p" +:+ s'.
Proof.
  revert s. induction (N.lt_wf_0 x) as [x _ IH]; intros s Hs.
  assert (x = 0 \/ 0 < x)%N as [->|Hx] by lia.
  - by rewrite pretty_N_go_0.
  - rewrite pretty_N_go_step by done. apply IH.
    { by apply N.div_lt. }
    intros s'. unfold pretty_N_char. by repeat case_match.
Qed.

Lemma pretty_N_not_p (t : N) s : pretty t +:+ ".wav" <> "p" +:+ s.
Proof.
  unfold pretty, pretty_N. case_decide as Ht; [done|].
  destruct (pretty_N_go t "") as [|c r] eqn:E; [done|].
  intros Hp. apply (pretty_N_go_not_p t "" ltac:(done) r). rewrite E.
  inversion Hp. reflexivity.
Qed.

Lemma raw_not_processed t t' : Client.rawName t <> Client.processedName t'.
Proof.
  unfold Client.rawName, Client.processedName. intros H.
  injection H as H. by apply pretty_N_not_p in H.
Qed.

(** X22: the name of a temporary file is decided by the clock reading
    alone: two raw files, or two filtered files, have the same name
    exactly when they were named in the same millisecond; and a raw file
    never has the name of a filtered one. *)
Theorem temp_names_by_clock (t t' : N) :
  (Client.rawName t = Client.rawName t' <-> t = t')
  /\ (Client.processedName t = Client.processedName t' <-> t = t')
  /\ Client.rawName t <> Client.processedName t'.
Proof.
  unfold Client.rawName, Client.processedName. split; [|split].
  - split; [|by intros ->]. intros H. apply (inj _) in H.
    apply append_suffix_inj in H. by apply (inj pretty) in H.
  - split; [|by intros ->]. intros H. apply (inj _) in H.
    apply append_suffix_inj in H. by apply (inj pretty) in H.
  - apply raw_not_processed.
Qed.

Section ClientFacts.

Context {Value : Type}.
Variable config : Client.Config (Value := Value).
Variable services : Client.Services (Value := Value).

(** What [applyAudioFilters] hands back: the input, with every file but
    the output where it was, or the output named after the clock; the
    output only when ffmpeg was loaded and its command ended well. *)
Lemma applyAudioFilters_cases inputFile st finalFile st' :
  let outputFile :=
    Client.processedName (Client.now services (Client.clockReads st)) in
  Client.applyAudioFilters config services inputFile st = (finalFile, st') ->
  (finalFile = inputFile
   /\ (forall name, name <> outputFile ->
         Client.disk st' !! name = Client.disk st !! name))
  \/ (exists ffmpeg input output,
        Client.loadFfmpeg config services = Some ffmpeg
        /\ Client.disk st !! inputFile = Some input
        /\ Client.run_ffmpeg services inputFile input = Client.Finished output
        /\ finalFile = outputFile
        /\ Client.disk st'
           = delete inputFile (<[outputFile := output]> (Client.disk st))).
Proof.
  intros outputFile. unfold Client.applyAudioFilters.
  destruct (Client.ENABLE_FFMPEG config) eqn:Een; simpl;
    [|intros [= <- <-]; by left].
  destruct (Client.loadFfmpeg config services) as [ffmpeg|] eqn:El;
    [|intros [= <- <-]; by left].
  destruct (Client.disk st !! inputFile) as [input|] eqn:Ein;
    [|intros [= <- <-]; by left].
  destruct (Client.run_ffmpeg services inputFile input) as [output|partial] eqn:Er;
    intros [= <- <-].
  - right. by exists ffmpeg, input, output.
  - left. split; [reflexivity|]. intros name Hname. simpl.
    destruct partial; [|reflexivity].
    apply lookup_insert_ne. intros Heq. apply Hname. by rewrite <- Heq.
Qed.

Lemma applyAudioFilters_keeps_a_file inputFile st :
  inputFile <> Client.processedName (Client.now services (Client.clockReads st)) ->
  is_Some (Client.disk st !! inputFile) ->
  is_Some (Client.disk (Client.applyAudioFilters config services inputFile st).2
           !! (Client.applyAudioFilters config services inputFile st).1).
Proof.
  intros Hne Hin.
  destruct (Client.applyAudioFilters config services inputFile st)
    as [finalFile st'] eqn:E. simpl.
  apply applyAudioFilters_cases in E.
  destruct E as [[-> Hsame]|(ffmpeg & input & output & _ & _ & _ & -> & ->)].
  - by rewrite Hsame.
  - rewrite lookup_delete_ne by done. rewrite lookup_insert_eq. by eexists.
Qed.

(** X24: [applyAudioFilters] resolves with its input or with the output
    named after the clock; with its input, and nothing changed, when
    [loadFfmpeg] gives [null]; on an input that exists and does not have
    the name of the output, the file it resolves with exists afterwards,
    and when that is the output the input is gone. *)
Theorem filtered_file_exists inputFile st :
  let outputFile :=
    Client.processedName (Client.now services (Client.clockReads st)) in
  let finalFile := (Client.applyAudioFilters config services inputFile st).1 in
  let st' := (Client.applyAudioFilters config services inputFile st).2 in
  (finalFile = inputFile \/ finalFile = outputFile)
  /\ (Client.loadFfmpeg config services = None -> finalFile = inputFile /\ st' = st)
  /\ (inputFile <> outputFile ->
      (is_Some (Client.disk st !! inputFile) ->
       is_Some (Client.disk st' !! finalFile))
      /\ (finalFile <> inputFile -> Client.disk st' !! inputFile = None)).
Proof.
  intros outputFile finalFile st'. subst finalFile st'.
  pose proof (applyAudioFilters_keeps_a_file inputFile st) as Hkeeps.
  destruct (Client.applyAudioFilters config services inputFile st)
    as [finalFile st'] eqn:E. simpl in *.
  pose proof (applyAudioFilters_cases _ _ _ _ E) as H. fold outputFile in H.
  split; [|split].
  - destruct H as [[-> _]|(? & ? & ? & _ & _ & _ & -> & _)]; auto.
  - intros Hl. unfold Client.applyAudioFilters in E. rewrite Hl in E.
    destruct (Client.ENABLE_FFMPEG config); by injection E as <- <-.
  - intros Hne. split; [by apply Hkeeps|].
    destruct H as [[-> _]|(ffmpeg & input & output & _ & _ & _ & -> & ->)]; [done|].
    intros _. by rewrite lookup_delete_eq.
Qed.

(** What [synthesizeSentence] does, by the answers of the services. *)
Lemma synthesizeSentence_cases text speaker st r st' :
  let raw := Client.rawName (Client.now services (Client.clockReads st)) in
  let written audio :=
    Client.mkStore (<[raw := audio]> (Client.disk st)) (S (Client.clockReads st)) in
  Client.synthesizeSentence config services text speaker st = (r, st') ->
  (r = Client.mkResult false None /\ Client.disk st' = Client.disk st
   /\ ~ (exists queryData audio,
           Client.audio_query services text speaker = Some queryData
           /\ Client.synthesis services (Client.override config queryData) speaker
              = Some audio
           /\ Client.writable services raw = true))
  \/ (exists queryData audio,
        Client.audio_query services text speaker = Some queryData
        /\ Client.synthesis services (Client.override config queryData) speaker
           = Some audio
        /\ Client.writable services raw = true
        /\ r = Client.mkResult true
                 (Some (if Client.ENABLE_FFMPEG config
                        then (Client.applyAudioFilters config services raw
                                (written audio)).1
                        else raw))
        /\ st' = (if Client.ENABLE_FFMPEG config
                  then (Client.applyAudioFilters config services raw
                          (written audio)).2
                  else written audio)).
Proof.
  intros raw written.
  unfold Client.synthesizeSentence, synthesisRequest. fold (Client.override config).
  destruct (Client.audio_query services text speaker) as [queryData|] eqn:Eq; simpl.
  2:{ intros [= <- <-]. left. repeat split. by intros (? & ? & ? & _). }
  destruct (Client.synthesis services (Client.override config queryData) speaker)
    as [audio|] eqn:Es.
  2:{ intros [= <- <-]. left. repeat split.
      intros (? & ? & [= <-] & ? & _). congruence. }
  fold raw. destruct (Client.writable services raw) eqn:Ew.
  2:{ intros [= <- <-]. left. repeat split. intros (? & ? & _ & _ & ?). congruence. }
  fold (written audio). intros H.
  right. exists queryData, audio.
  split; [reflexivity|]. split; [exact Es|]. split; [reflexivity|].
  destruct (Client.ENABLE_FFMPEG config); simpl in H; [|by injection H as <- <-].
  destruct (Client.applyAudioFilters config services raw (written audio)).
  by injection H as <- <-.
Qed.

(** X23: [synthesizeSentence] reports success exactly when it hands back
    a file, which is exactly when both engine calls answer and the audio
    can be written; the file it hands back exists; and a call that fails
    leaves the disk as it was. *)
Theorem synthesis_result text speaker st :
  let r := (Client.synthesizeSentence config services text speaker st).1 in
  let st' := (Client.synthesizeSentence config services text speaker st).2 in
  let raw := Client.rawName (Client.now services (Client.clockReads st)) in
  (Client.success r = true <-> is_Some (Client.tempFile r))
  /\ (Client.success r = true <->
        exists queryData audio,
          Client.audio_query services text speaker = Some queryData
          /\ Client.synthesis services (Client.override config queryData) speaker
             = Some audio
          /\ Client.writable services raw = true)
  /\ (Client.success r = false -> Client.disk st' = Client.disk st)
  /\ (forall finalFile,
        Client.tempFile r = Some finalFile ->
        is_Some (Client.disk st' !! finalFile)).
Proof.
  intros r st' raw. subst r st'.
  destruct (Client.synthesizeSentence config services text speaker st)
    as [r st'] eqn:E. simpl.
  apply synthesizeSentence_cases in E. fold raw in E.
  destruct E as [(-> & Hdisk & Hnot)|(queryData & audio & Hq & Hs & Hw & -> & ->)];
    simpl.
  - split; [split; [done|by intros [? ?]]|].
    split; [split; [done|by intros ?]|]. split; [done|]. by intros ? ?.
  - split; [split; [by eexists|done]|].
    split; [split; [by exists queryData, audio|done]|].
    split; [done|]. intros finalFile [= <-].
    set (st1 := Client.mkStore _ _).
    assert (Hraw : is_Some (Client.disk st1 !! raw)).
    { unfold st1. simpl. rewrite lookup_insert_eq. by eexists. }
    pose proof (applyAudioFilters_keeps_a_file raw st1 (raw_not_processed _ _) Hraw).
    by destruct (Client.ENABLE_FFMPEG config).
Qed.

(** X25: after a synthesis that succeeded, with filters enabled, ffmpeg
    loaded and its command ended well, the file handed back is the
    filtered one, it holds what ffmpeg wrote and the raw file is gone;
    otherwise the file handed back is the raw one, holding the audio of
    the engine, and a command that failed leaves whatever it wrote at the
    output path. *)
Theorem filter_replaces_raw text speaker st queryData audio :
  let raw := Client.rawName (Client.now services (Client.clockReads st)) in
  let processed :=
    Client.processedName (Client.now services (S (Client.clockReads st))) in
  let r := (Client.synthesizeSentence config services text speaker st).1 in
  let st' := (Client.synthesizeSentence config services text speaker st).2 in
  Client.audio_query services text speaker = Some queryData ->
  Client.synthesis services (Client.override config queryData) speaker
  = Some audio ->
  Client.writable services raw = true ->
  match (if Client.ENABLE_FFMPEG config && Client.import_ffmpeg services
         then Client.run_ffmpeg services raw audio
         else Client.Failed None) with
  | Client.Finished output =>
      Client.tempFile r = Some processed
      /\ Client.disk st' !! processed = Some output
      /\ Client.disk st' !! raw = None
  | Client.Failed partial =>
      Client.tempFile r = Some raw
      /\ Client.disk st' !! raw = Some audio
      /\ Client.disk st' !! processed
         = (match partial with
            | Some a => Some a
            | None => Client.disk st !! processed
            end)
  end.
Proof.
  intros raw processed r st' Hq Hs Hw. subst r st'.
  destruct (Client.synthesizeSentence config services text speaker st)
    as [r st'] eqn:E. simpl.
  apply synthesizeSentence_cases in E. fold raw in E.
  destruct E as [(_ & _ & Hnot)|(q & a & Hq' & Hs' & _ & -> & ->)].
  { exfalso. apply Hnot. by exists queryData, audio. }
  assert (q = queryData) as -> by congruence.
  assert (a = audio) as -> by congruence. clear Hq' Hs'.
  pose proof (raw_not_processed (Client.now services (Client.clockReads st))
                (Client.now services (S (Client.clockReads st)))) as Hne.
  fold raw processed in Hne.
  unfold Client.applyAudioFilters, Client.loadFfmpeg. simpl.
  fold raw processed.
  destruct (Client.ENABLE_FFMPEG config); simpl.
  2:{ rewrite lookup_insert_eq, lookup_insert_ne by done. by repeat split. }
  destruct (Client.import_ffmpeg services); simpl.
  2:{ rewrite lookup_insert_eq, lookup_insert_ne by done. by repeat split. }
  rewrite lookup_insert_eq.
  destruct (Client.run_ffmpeg services raw audio) as [output|[partial|]]; simpl.
  - rewrite lookup_delete_ne, lookup_insert_eq, lookup_delete_eq by done.
    by repeat split.
  - rewrite lookup_insert_ne, !lookup_insert_eq by done. by repeat split.
  - rewrite lookup_insert_eq, lookup_insert_ne by done. by repeat split.
Qed.

(** X26: with filters disabled, two calls of [synthesizeSentence] that
    succeed and read the clock in the same millisecond hand back the same
    file, and what it holds afterwards is the audio of the second call:
    the audio of the first is lost. *)
Theorem same_millisecond_same_file text1 speaker1 text2 speaker2 st :
  let r1 := (Client.synthesizeSentence config services text1 speaker1 st).1 in
  let st1 := (Client.synthesizeSentence config services text1 speaker1 st).2 in
  let r2 := (Client.synthesizeSentence config services text2 speaker2 st1).1 in
  let st2 := (Client.synthesizeSentence config services text2 speaker2 st1).2 in
  Client.ENABLE_FFMPEG config = false ->
  Client.success r1 = true -> Client.success r2 = true ->
  Client.now services (Client.clockReads st)
  = Client.now services (S (Client.clockReads st)) ->
  Client.tempFile r1 = Client.tempFile r2
  /\ exists queryData audio finalFile,
       Client.audio_query services text2 speaker2 = Some queryData
       /\ Client.synthesis services (Client.override config queryData) speaker2
          = Some audio
       /\ Client.tempFile r2 = Some finalFile
       /\ Client.disk st2 !! finalFile = Some audio.
Proof.
  intros r1 st1 r2 st2 Hoff Hr1 Hr2 Hclock. subst r2 st2 r1 st1.
  destruct (Client.synthesizeSentence config services text1 speaker1 st)
    as [r1 st1] eqn:E1. simpl in *.
  destruct (Client.synthesizeSentence config services text2 speaker2 st1)
    as [r2 st2] eqn:E2. simpl in *.
  apply synthesizeSentence_cases in E1, E2.
  destruct E1 as [(-> & _)|(q1 & a1 & _ & _ & _ & -> & Hst1)]; [discriminate|].
  destruct E2 as [(-> & _)|(q2 & a2 & Hq2 & Hs2 & _ & -> & Hst2)]; [discriminate|].
  rewrite Hoff in Hst1, Hst2 |- *. subst st1 st2. simpl. rewrite <- Hclock.
  split; [reflexivity|].
  exists q2, a2, (Client.rawName (Client.now services (Client.clockReads st))).
  repeat split; try assumption. by rewrite lookup_insert_eq.
Qed.

End ClientFacts.

(** ** Instances *)

Lemma allChunks_reconstructs_witness :
  exists chunks,
    allChunks 3 (js "abcdefgh. ij.") = Some chunks
    /\ boundary_whitespace chunks (js "abcdefgh. ij.")
    /\ Forall (fun c => jslength c <= 3) chunks
    /\ (all_whitespace (js "abcdefgh. ij.") -> chunks = []).
Proof. apply (allChunks_reconstructs 3 (js "abcdefgh. ij.")). lia. Defined.

Lemma long_sentence_cut_witness :
  exists chunks,
    chunksOfSentence 3 (js "abcdefgh.") = Some chunks
    /\ spec_cutLoop 3 (length (js "abcdefgh.")) (js "abcdefgh.") = Some chunks.
Proof.
  apply (long_sentence_cut 3 (js "abcdefgh. ij.") (js "abcdefgh.")).
  - lia.
  - vm_compute. apply elem_of_cons. by left.
  - vm_compute. reflexivity.
Defined.

Lemma playAudio_command_failure_keeps_file_witness :
  exists w' evs,
    playAudio command_fails (mkTempFile 0 0) (set_files [0%nat] streaming)
    = Some (false, w', evs)
    /\ path (mkTempFile 0 0) ∈ files w'.
Proof.
  apply (playAudio_command_failure_keeps_file command_fails (mkTempFile 0 0)
           (set_files [0%nat] streaming)).
  - reflexivity.
  - reflexivity.
  - reflexivity.
  - simpl. apply elem_of_cons. by left.
Defined.


Lemma chunks_nonempty_witness :
  exists chunks,
    allChunks 1 (js "ab. c") = Some chunks
    /\ Forall (fun c => c <> []) chunks
    /\ exists r w' evs,
         textToSpeech calm 1 (js "ab. c") 3 streaming = Some (r, w', evs)
         /\ Forall (fun t => t ∈ chunks /\ t <> []) (synthesised evs).
Proof. apply (chunks_nonempty calm 1 (js "ab. c") 3 streaming). lia. Defined.

Lemma turn_lists_in_order_witness :
  exists w' evs,
    server (speak_then_stop 0 3 greeting) 300 3 5
      [Speak greeting; Speak greeting] idle
    = Some (tt, w', evs)
    /\ follow Idle evs = Some Idle
    /\ StronglySorted lt (begun evs)
    /\ enqueued evs = seq 0 (tickets w')
    /\ begin_after_enqueue evs
    /\ reentered w' = false.
Proof.
  apply (turn_lists_in_order (speak_then_stop 0 3 greeting) 300 3 5
           [Speak greeting; Speak greeting]).
  lia.
Defined.

Lemma stop_silences_pending_witness :
  (forall w, exists w1,
      stopAudio w = Some (true, w1, [EvStop])
      /\ isPlayingAudio w1 = false /\ queue w1 = [])
  /\ exists w' evs,
       server (speak_then_stop 0 3 greeting) 300 3 5
         [Speak greeting; Speak greeting] idle
       = Some (tt, w', evs)
       /\ forall pre post,
            evs = pre ++ EvStop :: post ->
            no_exec (until_begin post)
            /\ Forall (fun t => length (enqueued pre) <= t)%nat (begun post).
Proof.
  apply (stop_silences_pending (speak_then_stop 0 3 greeting) 300 3 5
           [Speak greeting; Speak greeting]).
  lia.
Defined.

Lemma sentence_splits_to_itself_witness :
  splitTextIntoSentences (js "abc.") = [js "abc."].
Proof.
  eapply (sentence_splits_to_itself (js "abc. de.") (js "abc.")).
  vm_compute. apply elem_of_cons. by left.
Defined.

Lemma sentence_cut_in_slices_witness :
  exists chunks,
    chunksOfSentence 3 (js "abcdefgh.") = Some chunks
    /\ jslength (js "abcdefgh.") <= Z.of_nat (length chunks) * 3
       < jslength (js "abcdefgh.") + 3
    /\ forall (i : nat) c,
         chunks !! i = Some c ->
         c = substring (js "abcdefgh.") (Z.of_nat i * 3)
                       (Some ((Z.of_nat i + 1) * 3)).
Proof.
  eapply (sentence_cut_in_slices 3 ltac:(lia) (js "abcdefgh. ij.") (js "abcdefgh.")).
  vm_compute. apply elem_of_cons. by left.
Defined.

Lemma nonpositive_limit_fails_witness :
  (exists sentence more,
      splitTextIntoSentences (js "a") = sentence :: more
      /\ 0 < jslength sentence
      /\ forall fuel, cutLoop 0 fuel sentence = None)
  /\ textToSpeech calm 0 (js "a") 3 streaming = Some (false, streaming, []).
Proof.
  eapply (nonpositive_limit_fails 0 ltac:(lia) calm (js "a") 3 streaming).
  intros H. apply Forall_cons_1 in H as [H _]. vm_compute in H. discriminate.
Defined.

Lemma blank_turn_succeeds_witness :
  textToSpeech calm 300 (js "  ") 3 streaming = Some (true, streaming, []).
Proof.
  eapply (blank_turn_succeeds calm 300 (js "  ") 3 streaming).
  by repeat constructor.
Defined.

Lemma playAudio_outcome_witness :
  exists r w' evs,
    playAudio command_fails (mkTempFile 0 0) (set_files [0%nat; 1%nat] streaming)
    = Some (r, w', evs)
    /\ (EvExec (mkTempFile 0 0) ∈ evs <-> true = true /\ true = true)
    /\ (r = true <-> true = true /\ true = true /\ false = true
                     /\ 0%nat ∈ [0%nat; 1%nat])
    /\ (0%nat ∈ files w' <->
          0%nat ∈ [0%nat; 1%nat] /\ true = true /\ true = true /\ false = false)
    /\ (forall q, q <> 0%nat -> q ∈ files w' <-> q ∈ [0%nat; 1%nat]).
Proof.
  eexists _, _, _. split; [vm_compute; reflexivity|].
  eapply (playAudio_outcome command_fails (mkTempFile 0 0)
           (set_files [0%nat; 1%nat] streaming)).
  vm_compute. reflexivity.
Defined.

Lemma playAudio_initializes_witness :
  exists r w' evs,
    playAudio calm (mkTempFile 0 0) (set_files [0%nat] (set_initialized false streaming))
    = Some (r, w', evs)
    /\ initialized w' = true
    /\ (false = false ->
        r = false /\ no_exec evs /\ isPlayingAudio w' = false
        /\ playCalls w' = 0%nat).
Proof.
  eexists _, _, _. split; [vm_compute; reflexivity|].
  eapply (playAudio_initializes calm (mkTempFile 0 0)
           (set_files [0%nat] (set_initialized false streaming))).
  vm_compute. reflexivity.
Defined.

Lemma first_chunk_failure_witness :
  exists w' evs,
    processChunksParallel (fails_on (js "c0")) five 3 streaming
    = Some (false, w', evs)
    /\ played evs = []
    /\ attempted evs = [0%nat].
Proof.
  eapply (first_chunk_failure (fails_on (js "c0")) five 3 streaming).
  - discriminate.
  - vm_compute. reflexivity.
Defined.

Lemma played_never_descends_witness :
  exists r w' evs,
    processChunksParallel (stop_at 1) five 3 streaming = Some (r, w', evs)
    /\ StronglySorted le (played evs).
Proof.
  eexists _, _, _. split; [vm_compute; reflexivity|].
  eapply (played_never_descends (stop_at 1) five 3 streaming).
  vm_compute. reflexivity.
Defined.

Lemma chunk_indices_in_range_witness :
  exists r w' evs,
    processChunksParallel (fails_on (js "c3")) five 3 streaming = Some (r, w', evs)
    /\ Forall (fun e => match e with
                        | EvSynth i t s _ => five !! i = Some t /\ s = 3
                        | _ => True
                        end) evs
    /\ Forall (fun i => i < length five)%nat (attempted evs)
    /\ Forall (fun i => i < length five)%nat (played evs).
Proof.
  eexists _, _, _. split; [vm_compute; reflexivity|].
  eapply (chunk_indices_in_range (fails_on (js "c3")) five 3 streaming).
  vm_compute. reflexivity.
Defined.

Lemma run_keeps_older_files_witness :
  exists r w' evs,
    processChunksParallel command_fails five 3
      (set_files [0%nat] (set_nextPath 1 streaming))
    = Some (r, w', evs)
    /\ (exists created,
          files w' = created ++ [0%nat]
          /\ Forall (fun p => 1 <= p < nextPath w')%nat created)
    /\ Forall (fun e => match e with
                        | EvUnlink p => (1 <= p)%nat
                        | _ => True
                        end) evs.
Proof.
  eexists _, _, _. split; [vm_compute; reflexivity|].
  eapply (run_keeps_older_files command_fails five 3
           (set_files [0%nat] (set_nextPath 1 streaming))).
  - unfold fresh_paths. simpl. constructor; [lia|constructor].
  - vm_compute. reflexivity.
Defined.

Lemma undisturbed_run_cleans_up_witness :
  exists r w' evs,
    processChunksParallel (fails_on (js "c3")) five 3
      (set_files [0%nat] (set_nextPath 1 streaming))
    = Some (r, w', evs)
    /\ (1 <= 2 < nextPath w')%nat
    /\ (2%nat ∉ files w')
    /\ exists pre post o,
         evs = pre ++ EvUnlink 2 :: post /\ EvExec (mkTempFile 2 o) ∈ pre.
Proof.
  eexists _, _, _. split; [vm_compute; reflexivity|].
  split; [vm_compute; lia|].
  eapply (undisturbed_run_cleans_up (fails_on (js "c3")) five 3
            (set_files [0%nat] (set_nextPath 1 streaming)) _ _ _).
  - reflexivity.
  - reflexivity.
  - reflexivity.
  - unfold fresh_paths. simpl. constructor; [lia|constructor].
  - vm_compute. reflexivity.
  - intros H. vm_compute in H.
    repeat (apply elem_of_cons in H as [H|H]; [discriminate|]).
    by apply elem_of_nil in H.
  - vm_compute. lia.
Defined.

Lemma success_means_commands_succeeded_witness :
  exists w' evs,
    processChunksParallel calm five 3 streaming = Some (true, w', evs)
    /\ playCalls w' = (playCalls streaming + length (played evs))%nat
    /\ (forall k, (playCalls streaming <= k < playCalls w')%nat ->
                  player calm k = true)
    /\ (five <> [] -> exists rest, played evs = 0%nat :: rest).
Proof.
  eexists _, _. split; [vm_compute; reflexivity|].
  eapply (success_means_commands_succeeded calm five 3 streaming).
  vm_compute. reflexivity.
Defined.

Lemma first_playback_after_lookahead_witness :
  origin (mkTempFile 0 0) = 0%nat
  /\ attempted [EvSynth 0 (js "c0") 3 true; EvSynth 1 (js "c1") 3 true;
                EvSynth 2 (js "c2") 3 true]
     = seq 0 (Nat.min (length five) MAX_PARALLEL).
Proof.
  eapply (first_playback_after_lookahead calm five 3 streaming _ _ _
            [EvSynth 0 (js "c0") 3 true; EvSynth 1 (js "c1") 3 true;
             EvSynth 2 (js "c2") 3 true]
            (mkTempFile 0 0) _).
  - vm_compute. reflexivity.
  - reflexivity.
  - by repeat constructor.
Defined.

Lemma calls_follow_dialogues_witness :
  exists r w' evs,
    conversationToSpeech calm 300 3
      [mkDialogue (js "A") (Some 8); mkDialogue (js "B") None] streaming
    = Some (r, w', evs)
    /\ Forall (call_of_dialogue 300 3
                 [mkDialogue (js "A") (Some 8); mkDialogue (js "B") None])
              (calls None evs).
Proof.
  eexists _, _, _. split; [vm_compute; reflexivity|].
  eapply (calls_follow_dialogues calm 300 3
           [mkDialogue (js "A") (Some 8); mkDialogue (js "B") None] streaming).
  vm_compute. reflexivity.
Defined.

Lemma engine_down_one_call_witness :
  exists r w' evs,
    conversationToSpeech engine_down 300 3 greeting idle = Some (r, w', evs)
    /\ played evs = [] /\ (length (attempted evs) <= 1)%nat
    /\ (r = true <-> Forall (fun d => all_whitespace (text d)) greeting).
Proof.
  eexists _, _, _. split; [vm_compute; reflexivity|].
  eapply (engine_down_one_call engine_down ltac:(reflexivity) 300 3 greeting idle).
  vm_compute. reflexivity.
Defined.

Lemma drain_ends_ready_witness :
  exists w' evs,
    processQueue calm 300 3 1 (set_queue [(0%nat, greeting); (1%nat, greeting)] idle)
    = Some (tt, w', evs)
    /\ ((queue w' = [] /\ isProcessing w' = false)
        \/ (queue w' <> [] /\ length (begun evs) = 1%nat
            /\ (isProcessing idle = true \/ (0 < 1)%nat -> isProcessing w' = true))).
Proof.
  eexists _, _. split; [vm_compute; reflexivity|].
  eapply (drain_ends_ready calm 300 3 1
           (set_queue [(0%nat, greeting); (1%nat, greeting)] idle)).
  vm_compute. reflexivity.
Defined.

Lemma no_turn_list_lost_witness :
  exists w' evs,
    server (speak_at 0 greeting) 300 3 1 [Speak greeting] idle = Some (tt, w', evs)
    /\ begun evs ++ (queue w').*1 = (queue idle).*1 ++ enqueued evs.
Proof.
  eexists _, _. split; [vm_compute; reflexivity|].
  eapply (no_turn_list_lost (speak_at 0 greeting) 300 3 1 [Speak greeting] idle).
  - vm_compute. reflexivity.
  - intros H. vm_compute in H.
    repeat (apply elem_of_cons in H as [H|H]; [discriminate|]).
    by apply elem_of_nil in H.
Defined.

Lemma filter_replaces_raw_witness :
  Client.tempFile
    (Client.synthesizeSentence (studio true) studio_services (js "c0") 3
       empty_store).1
  = Some (Client.processedName 1700000000000)
  /\ Client.disk
       (Client.synthesizeSentence (studio true) studio_services (js "c0") 3
          empty_store).2
     !! Client.processedName 1700000000000
     = Some [Byte.xff; Byte.x00]
  /\ Client.disk
       (Client.synthesizeSentence (studio true) studio_services (js "c0") 3
          empty_store).2
     !! Client.rawName 1700000000000
     = None.
Proof.
  eapply (filter_replaces_raw (studio true) studio_services (js "c0") 3
           empty_store ∅ [Byte.x00]).
  - reflexivity.
  - reflexivity.
  - reflexivity.
Defined.

Lemma same_millisecond_same_file_witness :
  Client.tempFile
    (Client.synthesizeSentence (studio false) studio_services (js "c0") 3
       empty_store).1
  = Client.tempFile
      (Client.synthesizeSentence (studio false) studio_services (js "c1") 3
         (Client.synthesizeSentence (studio false) studio_services (js "c0") 3
            empty_store).2).1
  /\ exists queryData audio finalFile,
       Client.audio_query studio_services (js "c1") 3 = Some queryData
       /\ Client.synthesis studio_services
            (Client.override (studio false) queryData) 3 = Some audio
       /\ Client.tempFile
            (Client.synthesizeSentence (studio false) studio_services (js "c1") 3
               (Client.synthesizeSentence (studio false) studio_services (js "c0")
                  3 empty_store).2).1
          = Some finalFile
       /\ Client.disk
            (Client.synthesizeSentence (studio false) studio_services (js "c1") 3
               (Client.synthesizeSentence (studio false) studio_services (js "c0")
                  3 empty_store).2).2
          !! finalFile = Some audio.
Proof.
  eapply (same_millisecond_same_file (studio false) studio_services
           (js "c0") 3 (js "c1") 3 empty_store).
  - reflexivity.
  - reflexivity.
  - reflexivity.
  - reflexivity.
Defined.
